(** * mkdocs-table-reader-plugin: [TableReaderPlugin.on_page_markdown]

    A shallow embedding of [src/mkdocs_table_reader_plugin/plugin.py] and the
    properties of its tag scanner, path resolution loop, indentation step and
    substitution step.

    Conventions.
    - Text ([str]) is a list of characters; a character is a code point below
      256 ([ascii]).  Python's [str] also holds code points above 255; those
      are outside this model.
    - Paths follow [posixpath]; the file system does not change while
      [on_page_markdown] runs, and changing the working directory does not
      fail.
    - The keys of [READERS] are identifiers, so that the name interpolated
      into the tag pattern stands for itself.
    - Python exceptions are values of [exn]; a computation is a function from
      the interpreter state to an outcome and a new state (the monad [M]). *)

From Stdlib Require Import Ascii String Bool Arith Lia ZArith List.
Import ListNotations.

Set Implicit Arguments.

(* ================================================================= *)
(** ** Text *)

Definition str := list ascii.

Definition txt (s : string) : str := list_ascii_of_string s.

Fixpoint str_eqb (a b : str) : bool :=
  match a, b with
  | [], [] => true
  | x :: a', y :: b' => Ascii.eqb x y && str_eqb a' b'
  | _, _ => false
  end.

Definition code (c : ascii) : nat := nat_of_ascii c.

Definition chr_is (n : nat) (c : ascii) : bool := code c =? n.

(** [str.isspace] on one character, which is also the class [\s] of a
    Unicode pattern: TAB, LF, VT, FF, CR, FS, GS, RS, US, SPACE, NEL, NBSP. *)
Definition isspace (c : ascii) : bool :=
  let n := code c in
  ((9 <=? n) && (n <=? 13)) || ((28 <=? n) && (n <=? 32))
  || (n =? 133) || (n =? 160).

Definition is_blank (c : ascii) : bool := chr_is 32 c.

Definition newline : ascii := ascii_of_nat 10.

(** The class [.] (without DOTALL): anything but a line feed. *)
Definition is_dot (c : ascii) : bool := negb (chr_is 10 c).

Definition backslash : ascii := ascii_of_nat 92.

(** ASCII lower-casing, the case folding IGNORECASE performs on the
    characters of this model when the pattern character is ASCII. *)
Definition lower (c : ascii) : ascii :=
  let n := code c in
  if (65 <=? n) && (n <=? 90) then ascii_of_nat (n + 32) else c.

(* ================================================================= *)
(** ** Values, keyword dictionaries, exceptions *)

(** What [parse_argkwarg] hands back: literals.  A float is kept as the
    dyadic [m * 2^e]; this code only looks at its truth value. *)
Inductive value :=
| VStr (s : str)
| VInt (z : Z)
| VFloat (m e : Z)
| VBool (b : bool)
| VNone.

(** Python truth value ([if x:]). *)
Definition truthy (v : value) : bool :=
  match v with
  | VStr s => negb (str_eqb s [])
  | VInt z => negb (Z.eqb z 0)
  | VFloat m _ => negb (Z.eqb m 0)
  | VBool b => b
  | VNone => false
  end.

(** A [dict] with string keys, in insertion order. *)
Definition kwargs := list (str * value).

(** [d.get(k)] *)
Fixpoint kw_get (k : str) (d : kwargs) : option value :=
  match d with
  | [] => None
  | (k', v) :: d' => if str_eqb k k' then Some v else kw_get k d'
  end.

(** [d[k] = v]: an existing key keeps its place. *)
Fixpoint kw_set (k : str) (v : value) (d : kwargs) : kwargs :=
  match d with
  | [] => [(k, v)]
  | (k', v') :: d' =>
      if str_eqb k k' then (k', v) :: d' else (k', v') :: kw_set k v d'
  end.

Inductive exn :=
| FileNotFoundError (input_file_path : value) (search_directories : list str)
    (** the f-string of line 109, kept as its two interpolated values *)
| UnboundLocalError (name : string)
| TypeError
| ReError (msg : string)   (** [re.error] *)
| Failure (payload : str). (** raised by a collaborator (parser, reader) *)

Inductive outcome (A : Type) :=
| Ok (a : A)
| Raise (e : exn).

Arguments Ok {A} a.
Arguments Raise {A} e.

(* ================================================================= *)
(** ** [os.path.join] (posixpath), two components *)

Definition slash : ascii := ascii_of_nat 47.

Definition startswith_sep (b : str) : bool :=
  match b with
  | c :: _ => Ascii.eqb c slash
  | [] => false
  end.

Definition endswith_sep (a : str) : bool :=
  match rev a with
  | c :: _ => Ascii.eqb c slash
  | [] => false
  end.

Definition os_path_join (a b : str) : str :=
  if startswith_sep b || str_eqb a [] then b
  else if endswith_sep a then a ++ b
  else a ++ slash :: b.

(* ================================================================= *)
(** ** Interpreter state and the monad *)

Inductive event :=
| EvChdir (d : str)
| EvExists (cwd path : str) (found : bool)
| EvCall (cwd : str) (args : list value) (kw : kwargs) (returned : outcome str).

(** The process working directory, what happened so far (oldest first), and
    the two locals of [on_page_markdown] that outlive one occurrence:
    [None] is "not bound yet". *)
Record state := mkState {
  cwd : str;
  trace : list event;
  input_file_path : option value;
  output_file_path : option str
}.

Definition M (A : Type) := state -> outcome A * state.

Definition ret {A} (a : A) : M A := fun st => (Ok a, st).

Definition raise {A} (e : exn) : M A := fun st => (Raise e, st).

Definition bind {A B} (c : M A) (k : A -> M B) : M B :=
  fun st =>
    match c st with
    | (Ok a, st') => k a st'
    | (Raise e, st') => (Raise e, st')
    end.

Notation "x <- c ;; k" := (bind c (fun x => k))
  (at level 61, c at next level, right associativity).
Notation "c ;;; k" := (bind c (fun _ => k))
  (at level 61, right associativity).

Definition lift {A} (r : outcome A) : M A := fun st => (r, st).

Definition log (e : event) : M unit :=
  fun st => (Ok tt, mkState (cwd st) (trace st ++ [e])
                            (input_file_path st) (output_file_path st)).

Definition getcwd : M str := fun st => (Ok (cwd st), st).

Definition chdir (d : str) : M unit :=
  fun st => (Ok tt, mkState d (trace st ++ [EvChdir d])
                            (input_file_path st) (output_file_path st)).

Definition bind_input_file_path (v : value) : M unit :=
  fun st => (Ok tt, mkState (cwd st) (trace st) (Some v) (output_file_path st)).

Definition bind_output_file_path (p : str) : M unit :=
  fun st => (Ok tt, mkState (cwd st) (trace st) (input_file_path st) (Some p)).

(** Reading a local: [UnboundLocalError] when nothing was assigned yet. *)
Definition read_input_file_path : M value :=
  fun st =>
    match input_file_path st with
    | Some v => (Ok v, st)
    | None => (Raise (UnboundLocalError "input_file_path"), st)
    end.

Definition read_output_file_path : M str :=
  fun st =>
    match output_file_path st with
    | Some p => (Ok p, st)
    | None => (Raise (UnboundLocalError "output_file_path"), st)
    end.

(** Modelled from the spec: [mkdocs_table_reader_plugin.utils.cd], whose
    source is not part of [src/].  The spec asks that the working directory
    be "temporarily and safely set to baseDir ... and restored afterward
    regardless of success or failure": the previous directory is saved, the
    body runs in [newdir], and the previous directory is restored whether the
    body returned or raised; the body's outcome is passed on as it is. *)
Definition cd {A} (newdir : str) (body : M A) : M A :=
  fun st =>
    let prevdir := cwd st in
    match chdir newdir st with
    | (_, st1) =>
        match body st1 with
        | (r, st2) => (r, snd (chdir prevdir st2))
        end
    end.

(* ================================================================= *)
(** ** The collaborators of [on_page_markdown] *)

(** A reader of [READERS]: called with the positional and keyword arguments
    in some working directory, it returns text or raises, and may leave the
    process in another working directory.  A reader may keep state: what it
    does may depend on all that happened before the call (its first
    argument). *)
Definition reader_fn :=
  list event -> list value -> kwargs -> str -> outcome str * str.

(** What [on_page_markdown] is given: the directory computed at lines 63-66
    ([mkdocs_dir]), the list built at lines 69-71 ([search_directories]),
    the argument parser of [safe_eval] and [os.path.exists] (which sees the
    working directory and the path). Neither [safe_eval] nor the file system
    is part of [src/]. *)
Record env := mkEnv {
  mkdocs_dir : str;
  search_directories : list str;
  parse_argkwarg : str -> outcome (list value * kwargs);
  os_path_exists : str -> str -> bool
}.

Definition filepath_or_buffer : str := txt "filepath_or_buffer".

(** [os.path.join(data_path, input_file_path)]: a component that is not a
    string is a [TypeError]. *)
Definition join_value (data_path : str) (v : value) : M str :=
  match v with
  | VStr s => ret (os_path_join data_path s)
  | _ => raise TypeError
  end.

(** Lines 93-96. *)
Definition rewrite_positional (data_path : str) (pd_args : list value)
  : M (list value) :=
  match pd_args with
  | [] => ret []
  | a0 :: rest =>
      bind_input_file_path a0 ;;;
      out <- join_value data_path a0 ;;
      bind_output_file_path out ;;;
      ret (VStr out :: rest)
  end.

(** Lines 98-101. *)
Definition rewrite_keyword (data_path : str) (pd_kwargs : kwargs)
  : M kwargs :=
  match kw_get filepath_or_buffer pd_kwargs with
  | Some v =>
      if truthy v then
        bind_input_file_path v ;;;
        out <- join_value data_path v ;;
        bind_output_file_path out ;;;
        ret (kw_set filepath_or_buffer (VStr out) pd_kwargs)
      else ret pd_kwargs
  | None => ret pd_kwargs
  end.

(** Line 103. *)
Definition check_exists (E : env) : M bool :=
  out <- read_output_file_path ;;
  d <- getcwd ;;
  let p := os_path_join (mkdocs_dir E) out in
  let found := os_path_exists E d p in
  log (EvExists d p found) ;;;
  ret found.

(** Lines 91-110: the [for ... else] over the search directories.  [dirs] is
    what is left to iterate; the list in the error message is the whole
    [search_directories]. *)
Fixpoint search_loop (E : env) (dirs : list str)
    (pd_args : list value) (pd_kwargs : kwargs) : M (list value * kwargs) :=
  match dirs with
  | [] =>
      v <- read_input_file_path ;;
      raise (FileNotFoundError v (search_directories E))
  | data_path :: dirs' =>
      a <- rewrite_positional data_path pd_args ;;
      k <- rewrite_keyword data_path pd_kwargs ;;
      found <- check_exists E ;;
      if found then ret (a, k) else search_loop E dirs' a k
  end.

(** Line 112. *)
Definition call (function : reader_fn) (a : list value) (k : kwargs) : M str :=
  fun st =>
    match function (trace st) a k (cwd st) with
    | (r, d) => (r, mkState d (trace st ++ [EvCall (cwd st) a k r])
                            (input_file_path st) (output_file_path st))
    end.

(** Lines 89-112: the [with cd(mkdocs_dir)] block. *)
Definition load_table (E : env) (function : reader_fn)
    (pd_args : list value) (pd_kwargs : kwargs) : M str :=
  cd (mkdocs_dir E)
     (ak <- search_loop E (search_directories E) pd_args pd_kwargs ;;
      call function (fst ak) (snd ak)).

(* ================================================================= *)
(** ** The tag pattern and the backtracking matcher of [re]

    [tag_pattern] is a concatenation of literals and of greedy repetitions of
    a one-character class, two of them inside a capture group.  The matcher
    tries, as [re] does, the longest repetition first and gives characters
    back one at a time until the rest of the pattern matches.
    [re_match p s] matches [p] at the start of [s]. *)

Inductive item :=
| Lit (c : ascii)            (** one character *)
| LitI (c : ascii)           (** one character, under IGNORECASE *)
| Rep (capture : bool) (min : nat) (cls : ascii -> bool).
                             (** [cls*] (min 0) or [cls+] (min 1), greedy *)

Definition pattern := list item.

(** A successful match of a pattern suffix: the groups captured from there
    on, and the text left after the match. *)
Definition cont := str -> option (list str * str).

Fixpoint rep_greedy (cls : ascii -> bool) (min : nat) (k : cont) (s : str)
  : option (str * (list str * str)) :=
  let stop :=
    match min with
    | O => match k s with
           | Some r => Some ([], r)
           | None => None
           end
    | S _ => None
    end in
  match s with
  | c :: s' =>
      if cls c then
        match rep_greedy cls (pred min) k s' with
        | Some (run, r) => Some (c :: run, r)
        | None => stop
        end
      else stop
  | [] => stop
  end.

Fixpoint re_match (p : pattern) : cont :=
  match p with
  | [] => fun s => Some ([], s)
  | Lit c :: p' =>
      fun s =>
        match s with
        | x :: s' => if Ascii.eqb x c then re_match p' s' else None
        | [] => None
        end
  | LitI c :: p' =>
      fun s =>
        match s with
        | x :: s' => if Ascii.eqb (lower x) (lower c) then re_match p' s' else None
        | [] => None
        end
  | Rep capture min cls :: p' =>
      fun s =>
        match rep_greedy cls min (re_match p') s with
        | Some (run, (g, rest)) => Some (if capture then run :: g else g, rest)
        | None => None
        end
  end.

(** One match of [search]: the text before it, its groups (group 1 first),
    the matched text (group 0) and the text after it. *)
Record found := mkFound {
  before : str;
  groups : list str;
  matched : str;
  after : str
}.

(** [pattern.search]: the leftmost position at which the pattern matches. *)
Fixpoint search (p : pattern) (s : str) : option found :=
  match re_match p s with
  | Some (g, rest) =>
      Some (mkFound [] g (firstn (length s - length rest) s) rest)
  | None =>
      match s with
      | [] => None
      | c :: s' =>
          match search p s' with
          | Some m => Some (mkFound (c :: before m) (groups m) (matched m) (after m))
          | None => None
          end
      end
  end.

(** [re.findall]: the groups of the successive non-overlapping matches, from
    left to right.  [skip] counts the characters of the last match that are
    still to be stepped over. *)
Fixpoint findall_from (p : pattern) (skip : nat) (s : str) : list (list str) :=
  match s with
  | [] =>
      match re_match p [] with
      | Some (g, _) => [g]
      | None => []
      end
  | c :: s' =>
      match skip with
      | S n => findall_from p n s'
      | O =>
          match re_match p s with
          | Some (g, rest) =>
              g :: findall_from p (length s - length rest - 1) s'
          | None => findall_from p 0 s'
          end
      end
  end.

Definition findall (p : pattern) (s : str) : list (list str) :=
  findall_from p 0 s.

(** Lines 78-80, the pattern compiled with IGNORECASE: group 1 is a run of
    blanks (possibly empty); then two opening braces, [\s+], the reader's
    name, an opening parenthesis; group 2 is [.+]; then a closing
    parenthesis, [\s+] and two closing braces.
    The keys of [READERS] are identifiers ([read_csv], [read_table], ...), so
    the interpolated name is a run of literal characters. *)
Definition tag_pattern (reader : str) : pattern :=
  [Rep true 0 is_blank; Lit "{"; Lit "{"; Rep false 1 isspace]
  ++ map LitI reader
  ++ [Lit "("; Rep true 1 is_dot; Lit ")"; Rep false 1 isspace;
      Lit "}"; Lit "}"].

(* ================================================================= *)
(** ** Replacement templates ([re] compiles a string [repl] that holds a
       backslash) *)

Inductive piece :=
| PLit (c : ascii)
| PGroup (index : nat).

Definition is_digit (c : ascii) : bool := (48 <=? code c) && (code c <=? 57).
Definition is_octdigit (c : ascii) : bool := (48 <=? code c) && (code c <=? 55).
Definition is_ascii_letter (c : ascii) : bool :=
  let n := code c in
  ((65 <=? n) && (n <=? 90)) || ((97 <=? n) && (n <=? 122)).
Definition digit_val (c : ascii) : nat := code c - 48.

Fixpoint decimal (acc : nat) (s : str) : nat :=
  match s with
  | [] => acc
  | c :: s' => decimal (10 * acc + digit_val c) s'
  end.

(** [ESCAPES] of the template parser. *)
Definition escape_of (c : ascii) : option ascii :=
  let n := code c in
  if n =? 97 then Some (ascii_of_nat 7)          (* \a *)
  else if n =? 98 then Some (ascii_of_nat 8)     (* \b *)
  else if n =? 102 then Some (ascii_of_nat 12)   (* \f *)
  else if n =? 110 then Some (ascii_of_nat 10)   (* \n *)
  else if n =? 114 then Some (ascii_of_nat 13)   (* \r *)
  else if n =? 116 then Some (ascii_of_nat 9)    (* \t *)
  else if n =? 118 then Some (ascii_of_nat 11)   (* \v *)
  else if n =? 92 then Some backslash            (* \\ *)
  else None.

(** [addgroup]: a reference beyond the pattern's groups is an error. *)
Definition addgroup (ngroups index : nat) (tl : outcome (list piece))
  : outcome (list piece) :=
  if ngroups <? index then Raise (ReError "invalid group reference")
  else match tl with
       | Ok ps => Ok (PGroup index :: ps)
       | Raise e => Raise e
       end.

Definition lappend (c : ascii) (tl : outcome (list piece)) : outcome (list piece) :=
  match tl with
  | Ok ps => Ok (PLit c :: ps)
  | Raise e => Raise e
  end.

(** The name between [\g<] and [>].  The pattern has no named group, so a
    name that is not a decimal number is an error ([IndexError] for an
    identifier, [re.error] otherwise; both are [ReError] here).  Python 3.12
    and later take ASCII digits only; earlier versions still took what
    [int] takes, with a deprecation warning. *)
Definition group_of_name (name : str) : outcome nat :=
  match name with
  | [] => Raise (ReError "missing group name")
  | _ => if forallb is_digit name then Ok (decimal 0 name)
         else Raise (ReError "unknown or bad group name")
  end.

(** [parse_template].  [name] is [Some acc] while reading a group name after
    [\g<] ([acc] holds it reversed). *)
Fixpoint parse_template (ngroups : nat) (name : option str) (s : str)
  : outcome (list piece) :=
  match name with
  | Some acc =>
      match s with
      | [] => Raise (ReError "missing >, unterminated name")
      | c :: s' =>
          if chr_is 62 c then
            match group_of_name (rev acc) with
            | Ok index => addgroup ngroups index (parse_template ngroups None s')
            | Raise e => Raise e
            end
          else parse_template ngroups (Some (c :: acc)) s'
      end
  | None =>
      match s with
      | [] => Ok []
      | b :: s1 =>
          if negb (Ascii.eqb b backslash) then lappend b (parse_template ngroups None s1)
          else
            match s1 with
            | [] => Raise (ReError "bad escape (end of pattern)")
            | c :: s2 =>
                if chr_is 103 c then                       (* \g *)
                  match s2 with
                  | lt :: s3 =>
                      if chr_is 60 lt then parse_template ngroups (Some []) s3
                      else Raise (ReError "missing <")
                  | [] => Raise (ReError "missing <")
                  end
                else if chr_is 48 c then                   (* \0, octal *)
                  match s2 with
                  | d1 :: s3 =>
                      if is_octdigit d1 then
                        match s3 with
                        | d2 :: s4 =>
                            if is_octdigit d2 then
                              lappend (ascii_of_nat
                                         ((8 * digit_val d1 + digit_val d2) mod 256))
                                      (parse_template ngroups None s4)
                            else lappend (ascii_of_nat (digit_val d1))
                                         (parse_template ngroups None s3)
                        | [] => lappend (ascii_of_nat (digit_val d1))
                                        (parse_template ngroups None s3)
                        end
                      else lappend (ascii_of_nat 0) (parse_template ngroups None s2)
                  | [] => lappend (ascii_of_nat 0) (parse_template ngroups None s2)
                  end
                else if is_digit c then                    (* \1 .. \99, \ooo *)
                  match s2 with
                  | d1 :: s3 =>
                      if is_digit d1 then
                        match s3 with
                        | d2 :: s4 =>
                            if is_octdigit c && is_octdigit d1 && is_octdigit d2 then
                              let n := 64 * digit_val c + 8 * digit_val d1
                                       + digit_val d2 in
                              if 255 <? n
                              then Raise (ReError "octal escape value outside of range")
                              else lappend (ascii_of_nat n)
                                           (parse_template ngroups None s4)
                            else addgroup ngroups (10 * digit_val c + digit_val d1)
                                          (parse_template ngroups None s3)
                        | [] => addgroup ngroups (10 * digit_val c + digit_val d1)
                                         (parse_template ngroups None s3)
                        end
                      else addgroup ngroups (digit_val c)
                                    (parse_template ngroups None s2)
                  | [] => addgroup ngroups (digit_val c)
                                   (parse_template ngroups None s2)
                  end
                else
                  match escape_of c with
                  | Some e => lappend e (parse_template ngroups None s2)
                  | None =>
                      if is_ascii_letter c then Raise (ReError "bad escape")
                      else lappend b (lappend c (parse_template ngroups None s2))
                  end
            end
      end
  end.

(** Group 0 is the whole match. *)
Definition group (m : found) (index : nat) : str :=
  match index with
  | O => matched m
  | S i => nth i (groups m) []
  end.

Fixpoint expand (m : found) (ps : list piece) : str :=
  match ps with
  | [] => []
  | PLit c :: ps' => c :: expand m ps'
  | PGroup i :: ps' => group m i ++ expand m ps'
  end.

Definition count_groups (p : pattern) : nat :=
  length (filter (fun it => match it with Rep true _ _ => true | _ => false end) p).

(** [pattern.sub(repl, string, count=1)] with a string [repl]: a [repl]
    without backslash is used as it is, any other is compiled as a template
    first (which can fail, match or no match); then the leftmost match, if
    there is one, is replaced. *)
Definition re_sub (p : pattern) (repl : str) (s : str) : outcome str :=
  if negb (existsb (Ascii.eqb backslash) repl) then
    match search p s with
    | Some m => Ok (before m ++ repl ++ after m)
    | None => Ok s
    end
  else
    match parse_template (count_groups p) None repl with
    | Raise e => Raise e
    | Ok ps =>
        match search p s with
        | Some m => Ok (before m ++ expand m ps ++ after m)
        | None => Ok s
        end
    end.

(* ================================================================= *)
(** ** Indentation (lines 114-124) *)

(** [s.split('\n')] *)
Fixpoint split_lf (s : str) : list str :=
  match s with
  | [] => [[]]
  | c :: s' =>
      if chr_is 10 c then [] :: split_lf s'
      else match split_lf s' with
           | l :: ls => (c :: l) :: ls
           | [] => [[c]]
           end
  end.

(** ['\n'.join(lines)] *)
Fixpoint join_lf (lines : list str) : str :=
  match lines with
  | [] => []
  | [l] => l
  | l :: ls => l ++ newline :: join_lf ls
  end.

(** The line boundaries of [str.splitlines] other than CR LF: LF, VT, FF,
    CR, FS, GS, RS, NEL. *)
Definition is_linebreak (c : ascii) : bool :=
  let n := code c in
  ((10 <=? n) && (n <=? 13)) || ((28 <=? n) && (n <=? 30)) || (n =? 133).

(** [s.splitlines(True)]: the lines with their endings. *)
Fixpoint splitlines_keepends (s : str) : list str :=
  match s with
  | [] => []
  | c :: s' =>
      if chr_is 13 c then
        match s' with
        | d :: s'' =>
            if chr_is 10 d then [c; d] :: splitlines_keepends s''
            else [c] :: splitlines_keepends s'
        | [] => [[c]]
        end
      else if is_linebreak c then [c] :: splitlines_keepends s'
      else match splitlines_keepends s' with
           | l :: ls => (c :: l) :: ls
           | [] => [[c]]
           end
  end.

(** The default predicate of [textwrap.indent]: the line does not consist
    solely of whitespace. *)
Definition not_blank_line (line : str) : bool :=
  existsb (fun c => negb (isspace c)) line.

(** [textwrap.indent(text, prefix)] *)
Definition textwrap_indent (text prefix : str) : str :=
  concat (map (fun line => if not_blank_line line then prefix ++ line else line)
              (splitlines_keepends text)).

(** Line 118: [int(len(leading_spaces) / 4) * "    "]. *)
Definition normalize_spaces (leading_spaces : str) : str :=
  concat (repeat (txt "    ") (length leading_spaces / 4)).

(** Lines 116-124. *)
Definition indent_table (leading_spaces markdown_table : str) : str :=
  let leading_spaces := normalize_spaces leading_spaces in
  join_lf (map (fun line => textwrap_indent line leading_spaces)
               (split_lf markdown_table)).

(* ================================================================= *)
(** ** [on_page_markdown] (lines 73-131) *)

(** The registry: [READERS.items()], in iteration order. *)
Definition registry := list (str * reader_fn).

(** The body of [for result in matches] (lines 85-128); [result] holds
    group 1 and group 2 of one match. *)
Definition process_match (E : env) (reader : str) (function : reader_fn)
    (result : list str) (markdown : str) : M str :=
  ak <- lift (parse_argkwarg E (nth 1 result [])) ;;
  markdown_table <- load_table E function (fst ak) (snd ak) ;;
  let markdown_table := indent_table (nth 0 result []) markdown_table in
  lift (re_sub (tag_pattern reader) markdown_table markdown).

Fixpoint for_matches (E : env) (reader : str) (function : reader_fn)
    (matches : list (list str)) (markdown : str) : M str :=
  match matches with
  | [] => ret markdown
  | result :: rest =>
      markdown' <- process_match E reader function result markdown ;;
      for_matches E reader function rest markdown'
  end.

(** The body of [for reader, function in READERS.items()]. *)
Definition process_reader (E : env) (reader : str) (function : reader_fn)
    (markdown : str) : M str :=
  let matches := findall (tag_pattern reader) markdown in
  for_matches E reader function matches markdown.

Fixpoint for_readers (E : env) (READERS : registry) (markdown : str) : M str :=
  match READERS with
  | [] => ret markdown
  | (reader, function) :: rest =>
      markdown' <- process_reader E reader function markdown ;;
      for_readers E rest markdown'
  end.

(** A fresh call: the process is in some directory, nothing has happened
    yet, and neither path local is bound. *)
Definition initial (d : str) : state := mkState d [] None None.

Definition on_page_markdown (E : env) (READERS : registry) (markdown : str)
  : M str :=
  for_readers E READERS markdown.

(** What the caller of [on_page_markdown] gets from a fresh call. *)
Definition run (E : env) (READERS : registry) (markdown : str) (d : str)
  : outcome str * state :=
  on_page_markdown E READERS markdown (initial d).

(* ================================================================= *)
(** ** Vocabulary of the statements *)

(** Lines 69-71: the configured data directory, then (when
    [search_page_directory] is set) the directory of the page. *)
Definition build_search_directories (data_path : str)
    (search_page_directory : bool) (page_dir : str) : list str :=
  data_path :: (if search_page_directory then [page_dir] else []).

(** Two names that IGNORECASE identifies. *)
Fixpoint eq_ci (a b : str) : bool :=
  match a, b with
  | [], [] => true
  | x :: a', y :: b' => Ascii.eqb (lower x) (lower y) && eq_ci a' b'
  | _, _ => false
  end.

(** The characters of an identifier: ASCII letters, digits, underscore. *)
Definition is_ident_char (c : ascii) : bool :=
  is_ascii_letter c || is_digit c || chr_is 95 c.

Definition is_identifier (s : str) : bool :=
  match s with
  | [] => false
  | _ => forallb is_ident_char s
  end.

Definition no_backslash (s : str) : bool :=
  negb (existsb (Ascii.eqb backslash) s).

Definition not_backslash (c : ascii) : bool := negb (Ascii.eqb backslash c).

(** A text without line feed. *)
Definition lf_free (s : str) : Prop := forallb is_dot s = true.

Definition tab : ascii := ascii_of_nat 9.

(** The text ends a line here: nothing is left, or a line feed comes next. *)
Definition at_line_end (s : str) : bool :=
  match s with
  | [] => true
  | c :: _ => chr_is 10 c
  end.

(** An event that happens inside directory [d]: an existence check or a
    reader call made while the process is in [d]. *)
Definition inside (d : str) (ev : event) : Prop :=
  match ev with
  | EvChdir _ => False
  | EvExists c _ _ => c = d
  | EvCall c _ _ _ => c = d
  end.

Definition is_unbound (r : outcome str) : Prop :=
  match r with
  | Raise (UnboundLocalError _) => True
  | _ => False
  end.

(** A run of [n] blanks. *)
Definition blanks (n : nat) : str := repeat " "%char n.

(* ================================================================= *)
(** ** Test doubles: a file system, a parser, readers *)

Fixpoint split_sep (s : str) : list str :=
  match s with
  | [] => [[]]
  | c :: s' =>
      if Ascii.eqb c slash then [] :: split_sep s'
      else match split_sep s' with
           | l :: ls => (c :: l) :: ls
           | [] => [[c]]
           end
  end.

(** Path components with empty and [.] components dropped and [..]
    resolved, as the kernel walks a path without symbolic links. *)
Fixpoint walk (stack : list str) (components : list str) : list str :=
  match components with
  | [] => rev stack
  | c :: cs =>
      if str_eqb c [] || str_eqb c (txt ".") then walk stack cs
      else if str_eqb c (txt "..") then walk (tl stack) cs
      else walk (c :: stack) cs
  end.

Definition resolve (cwd path : str) : list str :=
  walk [] (split_sep (if startswith_sep path then path else cwd ++ slash :: path)).

Fixpoint is_prefix (a b : list str) : bool :=
  match a, b with
  | [], _ => true
  | x :: a', y :: b' => str_eqb x y && is_prefix a' b'
  | _, _ => false
  end.

(** [os.path.exists] over a file system that holds exactly the files
    [files] (absolute paths) and the directories above them. *)
Definition fs_exists (files : list str) (cwd path : str) : bool :=
  existsb (fun f => is_prefix (resolve cwd path) (resolve [slash] f)) files.

(** A parser given by a table from raw argument text to parsed arguments;
    other text is a syntax error. *)
Fixpoint parser_of_table (table : list (str * (list value * kwargs))) (raw : str)
  : outcome (list value * kwargs) :=
  match table with
  | [] => Raise (Failure raw)
  | (k, v) :: table' => if str_eqb k raw then Ok v else parser_of_table table' raw
  end.

(** A reader that returns the same text whatever it is given. *)
Definition const_reader (text : str) : reader_fn :=
  fun _ _ _ d => (Ok text, d).

(** A reader that renders [T1] when called for the first time and [T2]
    afterwards. *)
Definition counting_reader : reader_fn :=
  fun history _ _ d =>
    if existsb (fun ev => match ev with EvCall _ _ _ _ => true | _ => false end)
               history
    then (Ok (txt "T2"), d) else (Ok (txt "T1"), d).

Definition read_csv : str := txt "read_csv".

Definition site : str := txt "/site".

(* ================================================================= *)
(** ** Scenarios *)

Definition two_dirs : list str :=
  build_search_directories (txt "./data") true (txt "./page_dir").

(** The page directory holds [data.csv]; the data directory holds nothing. *)
Definition E_page_only : env :=
  mkEnv site two_dirs
        (parser_of_table [(txt "data.csv", ([VStr (txt "data.csv")], []))])
        (fs_exists [txt "/site/page_dir/data.csv"]).

(** No file anywhere. *)
Definition E_empty : env :=
  mkEnv site two_dirs
        (parser_of_table [(txt "missing.csv", ([VStr (txt "missing.csv")], []))])
        (fs_exists []).

(** Neither [./data/x.csv] nor [./page_dir/x.csv] exists, but
    [./page_dir/data/x.csv] does. *)
Definition E_nested : env :=
  mkEnv site two_dirs
        (parser_of_table [(txt "x.csv", ([VStr (txt "x.csv")], []))])
        (fs_exists [txt "/site/page_dir/data/x.csv"]).

(** The text of one tag: blanks, braces, whitespace, name, parenthesised
    arguments, whitespace, braces. *)
Definition tag_text (sp w1 name args w2 : str) : str :=
  sp ++ txt "{{" ++ w1 ++ name ++ txt "(" ++ args ++ txt ")" ++ w2 ++ txt "}}".

(** The end of the pattern, from the closing parenthesis on. *)
Definition closing : pattern :=
  [Lit ")"; Rep false 1 isspace; Lit "}"; Lit "}"].

(** One reader, [read_csv], that renders every table as [T]; the parser
    knows a few argument texts and rejects all others. *)
Definition parse_known : str -> outcome (list value * kwargs) :=
  parser_of_table
    [(txt "a.csv", ([VStr (txt "a.csv")], []));
     (txt "b.csv", ([VStr (txt "b.csv")], []));
     (txt "f.csv", ([VStr (txt "f.csv")], []));
     (txt "sep=1", ([], [(txt "sep", VInt 1)]))].

Definition E_flat : env :=
  mkEnv site (build_search_directories (txt ".") false []) parse_known
        (fs_exists [txt "/site/a.csv"; txt "/site/b.csv"; txt "/site/f.csv"]).

Definition csv_T : registry := [(read_csv, const_reader (txt "T"))].

(** A document with the same tag on two lines, and its two matches. *)
Definition doc_two_tags : str := txt "x
{{ read_csv(a.csv) }}
y
{{ read_csv(a.csv) }}
z".

Definition first_match : found :=
  mkFound (txt "x
") [ [] ; txt "a.csv"] (txt "{{ read_csv(a.csv) }}") (txt "
y
{{ read_csv(a.csv) }}
z").

Definition second_match : found :=
  mkFound (txt "
y
") [ [] ; txt "a.csv"] (txt "{{ read_csv(a.csv) }}") (txt "
z").

(** An existence check made in directory [d]. *)
Definition is_check (d : str) (ev : event) : Prop :=
  match ev with
  | EvExists c _ _ => c = d
  | _ => False
  end.

(** In the stretch [t] of a trace that ends with outcome [r], a reader call
    that raised is fatal: its exception is the outcome, and nothing follows
    it but the restoration of the working directory. *)
Definition fatal (t : list event) (r : outcome str) : Prop :=
  forall c a k e,
    In (EvCall c a k (Raise e)) t ->
    r = Raise e /\
    exists t0 d, t = t0 ++ [EvCall c a k (Raise e); EvChdir d].

(** A reader that fails on one file name and renders [T] otherwise. *)
Definition picky_reader (bad : str) (e : exn) : reader_fn :=
  fun _ a _ d =>
    match a with
    | VStr p :: _ => if str_eqb p bad then (Raise e, d) else (Ok (txt "T"), d)
    | _ => (Ok (txt "T"), d)
    end.

(* ================================================================= *)
(** ** [on_config] (lines 22-37) *)

Inductive config_exn :=
| ConfigurationError (post_load_plugin : str)
    (** the message of line 37, kept as the plugin it names *)
| ValueError.  (** [list.index]: the value is not in the list *)

(** [on_config] returns nothing ([None]) or raises. *)
Inductive config_outcome :=
| Returned
| Raised (e : config_exn).

(** [x in l] *)
Definition contains (x : str) (l : list str) : bool := existsb (str_eqb x) l.

(** [l.index(x)]: the position of the first element equal to [x]. *)
Fixpoint list_index (x : str) (l : list str) : option nat :=
  match l with
  | [] => None
  | y :: l' => if str_eqb y x then Some 0 else option_map S (list_index x l')
  end.

Definition table_reader : str := txt "table-reader".

(** The list of line 34. *)
Definition post_load_plugins : list str := [txt "macros"; txt "markdownextradata"].

(** Lines 34-37; [plugins] holds the names of the configured plugins in
    their order (line 32). *)
Fixpoint on_config_loop (plugins : list str) (todo : list str) : config_outcome :=
  match todo with
  | [] => Returned
  | post_load_plugin :: todo' =>
      if contains post_load_plugin plugins then
        match list_index table_reader plugins with
        | None => Raised ValueError
        | Some i =>
            match list_index post_load_plugin plugins with
            | None => Raised ValueError
            | Some j =>
                if j <? i then Raised (ConfigurationError post_load_plugin)
                else on_config_loop plugins todo'
            end
        end
      else on_config_loop plugins todo'
  end.

Definition on_config (plugins : list str) : config_outcome :=
  on_config_loop plugins post_load_plugins.

(* ================================================================= *)
(** ** The directories of lines 63-71 *)

(** [sep.join(comps)] *)
Fixpoint join_sep (comps : list str) : str :=
  match comps with
  | [] => []
  | [c] => c
  | c :: cs => c ++ slash :: join_sep cs
  end.

(** The loop of [posixpath.normpath] over the components; [new_comps] is
    kept last component first. *)
Fixpoint normpath_comps (initial_slashes : nat) (new_comps : list str)
    (comps : list str) : list str :=
  match comps with
  | [] => rev new_comps
  | comp :: comps' =>
      if str_eqb comp [] || str_eqb comp (txt ".") then
        normpath_comps initial_slashes new_comps comps'
      else if negb (str_eqb comp (txt ".."))
              || ((initial_slashes =? 0) && match new_comps with [] => true | _ => false end)
              || match new_comps with
                 | top :: _ => str_eqb top (txt "..")
                 | [] => false
                 end
      then normpath_comps initial_slashes (comp :: new_comps) comps'
      else normpath_comps initial_slashes (tl new_comps) comps'
  end.

(** [posixpath.normpath] *)
Definition normpath (path : str) : str :=
  match path with
  | [] => txt "."
  | _ =>
      let initial_slashes :=
        match path with
        | a :: b :: c :: _ =>
            if Ascii.eqb a slash then
              if Ascii.eqb b slash && negb (Ascii.eqb c slash) then 2 else 1
            else 0
        | [a; b] =>
            if Ascii.eqb a slash then if Ascii.eqb b slash then 2 else 1 else 0
        | [a] => if Ascii.eqb a slash then 1 else 0
        | [] => 0
        end in
      let comps := normpath_comps initial_slashes [] (split_sep path) in
      let path' := repeat slash initial_slashes ++ join_sep comps in
      match path' with
      | [] => txt "."
      | _ => path'
      end
  end.

(** [posixpath.abspath], in working directory [cwd]. *)
Definition abspath (cwd path : str) : str :=
  if startswith_sep path then normpath path
  else normpath (os_path_join cwd path).

Fixpoint dropwhile (f : ascii -> bool) (s : str) : str :=
  match s with
  | [] => []
  | c :: s' => if f c then dropwhile f s' else s
  end.

Definition is_sep (c : ascii) : bool := Ascii.eqb c slash.

(** [posixpath.dirname] *)
Definition dirname (p : str) : str :=
  let head := rev (dropwhile (fun c => negb (is_sep c)) (rev p)) in
  if negb (str_eqb head []) && negb (forallb is_sep head)
  then rev (dropwhile is_sep (rev head))
  else head.

(** [base_path] is a [config_options.Choice] of these two. *)
Inductive base_path := config_dir | docs_dir.

(** What lines 63-71 read: the options of the plugin, two entries of the
    site configuration and the source path of the page. *)
Record settings := mkSettings {
  opt_base_path : base_path;
  opt_data_path : str;
  opt_search_page_directory : bool;
  config_file_path : str;
  cfg_docs_dir : str;
  abs_src_path : str
}.

(** Lines 63-66, in working directory [d]. *)
Definition compute_mkdocs_dir (cfg : settings) (d : str) : str :=
  match opt_base_path cfg with
  | config_dir => dirname (abspath d (config_file_path cfg))
  | docs_dir => abspath d (cfg_docs_dir cfg)
  end.

(** Lines 63-71. *)
Definition plugin_env (cfg : settings) (d : str)
    (parse : str -> outcome (list value * kwargs))
    (exists_ : str -> str -> bool) : env :=
  mkEnv (compute_mkdocs_dir cfg d)
        (build_search_directories (opt_data_path cfg)
           (opt_search_page_directory cfg) (dirname (abs_src_path cfg)))
        parse exists_.

(** [on_page_markdown] from line 60 on. *)
Definition on_page_markdown_hook (cfg : settings)
    (parse : str -> outcome (list value * kwargs))
    (exists_ : str -> str -> bool)
    (READERS : registry) (markdown : str) : M str :=
  fun st => on_page_markdown (plugin_env cfg (cwd st) parse exists_) READERS markdown st.

(* ================================================================= *)
(** ** More vocabulary *)

(** The state in which the search loop starts: inside [mkdocs_dir]. *)
Definition entered (E : env) (st : state) : state :=
  mkState (mkdocs_dir E) (trace st ++ [EvChdir (mkdocs_dir E)])
          (input_file_path st) (output_file_path st).

Definition is_call (ev : event) : bool :=
  match ev with
  | EvCall _ _ _ _ => true
  | _ => false
  end.

Definition is_exists (ev : event) : bool :=
  match ev with
  | EvExists _ _ _ => true
  | _ => false
  end.

(** An existence check is made on an absolute path. *)
Definition absolute_check (ev : event) : Prop :=
  match ev with
  | EvExists _ p _ => startswith_sep p = true
  | _ => True
  end.

Definition is_VStr (v : value) : bool :=
  match v with
  | VStr _ => true
  | _ => false
  end.

(** [q] occurs in [plugins] with no [x] before it. *)
Definition occurs_before (q x : str) (plugins : list str) : Prop :=
  exists l1 l2, plugins = l1 ++ q :: l2 /\ ~ In x l1.

Definition paren_free (s : str) : Prop :=
  forall c, In c s -> c <> ")"%char.

(** A site with the default options. *)
Definition default_settings : settings :=
  mkSettings config_dir (txt ".") true (txt "mkdocs.yml") (txt "docs")
             (txt "/site/docs/guide/page.md").

(* ================================================================= *)
(** ** Vocabulary of the statements on lines and malformed tags *)

(** The first character of a class in a text. *)
Fixpoint first_in (cls : ascii -> bool) (s : str) : option ascii :=
  match s with
  | [] => None
  | c :: s' => if cls c then Some c else first_in cls s'
  end.

(** [c] is one of the characters [cs]. *)
Definition one_of (cs : str) (c : ascii) : bool := existsb (Ascii.eqb c) cs.

(** Plain text: no parenthesis, no brace, no line feed. *)
Definition is_plain (c : ascii) : bool :=
  negb (one_of (newline :: txt "(){}") c).

Definition not_brace (c : ascii) : bool := negb (one_of (txt "{}") c).

(** The text is empty or ends with a line feed: what follows it begins a
    line. *)
Definition ends_line (s : str) : bool := at_line_end (rev s).

(** A tag after its opening braces, and the rest of its line. *)
Definition after_braces (w1 n a w2 trail : str) : str :=
  w1 ++ n ++ "("%char :: a ++ ")"%char :: w2 ++ "}"%char :: "}"%char :: trail.

(** [m] is a complete tag of [reader]: what a match of the reader's pattern
    looks like. *)
Definition complete_tag (reader m : str) : Prop :=
  exists sp w1 n a w2,
    m = tag_text sp w1 n a w2 /\
    forallb is_blank sp = true /\
    w1 <> [] /\ forallb isspace w1 = true /\
    eq_ci n reader = true /\
    a <> [] /\ forallb is_dot a = true /\
    w2 <> [] /\ forallb isspace w2 = true.

(** [s'] is [s] with complete tags of registered readers replaced, one
    after the other, each by some text. *)
Inductive rewritten (READERS : registry) (s : str) : str -> Prop :=
| rewritten_refl : rewritten READERS s s
| rewritten_step b m a x reader function :
    In (reader, function) READERS ->
    complete_tag reader m ->
    rewritten READERS s (b ++ m ++ a) ->
    rewritten READERS s (b ++ x ++ a).

(** Every registered name is an identifier. *)
Definition identifiers (READERS : registry) : bool :=
  forallb (fun entry => is_identifier (fst entry)) READERS.

(** A parser that also knows one argument text with a quoted keyword
    value. *)
Definition parse_note : str -> outcome (list value * kwargs) :=
  parser_of_table
    [(txt "a.csv", ([VStr (txt "a.csv")], []));
     (txt "a.csv, note='{{ read_csv() }}'",
      ([VStr (txt "a.csv")], [(txt "note", VStr (txt "{{ read_csv() }}"))]))].

Definition E_note : env :=
  mkEnv site (build_search_directories (txt ".") false []) parse_note
        (fs_exists [txt "/site/a.csv"]).

(** [doc] still holds [line] as a line, between what [pre] and [post] have
    become by the replacement of complete tags. *)
Definition keeps_line (READERS : registry) (pre line post doc : str) : Prop :=
  exists pre' post',
    doc = pre' ++ line ++ post' /\
    ends_line pre' = true /\ at_line_end post' = true /\
    rewritten READERS pre pre' /\ rewritten READERS post post'.

(* ================================================================= *)
(** * Properties *)

Unset Implicit Arguments.

(** ** Characters and text *)

Lemma str_eqb_refl (a : str) : str_eqb a a = true.
Proof.
  induction a as [|c a IH]; simpl; [reflexivity|].
  now rewrite Ascii.eqb_refl.
Qed.

Lemma str_eqb_eq (a b : str) : str_eqb a b = true <-> a = b.
Proof.
  split.
  - revert b; induction a as [|x a IH]; intros [|y b] H; simpl in H;
      try discriminate; [reflexivity|].
    apply andb_true_iff in H as [Hx Hr].
    apply Ascii.eqb_eq in Hx. apply IH in Hr. now subst.
  - intros ->. apply str_eqb_refl.
Qed.

Lemma forallb_app_true {A} (f : A -> bool) (x y : list A) :
  forallb f x = true -> forallb f y = true -> forallb f (x ++ y) = true.
Proof.
  intros Hx Hy. rewrite forallb_app, Hx, Hy. reflexivity.
Qed.

(** ** The matcher: what a successful repetition looks like (soundness) *)

Lemma rep_greedy_sound cls k : forall s min run r,
  rep_greedy cls min k s = Some (run, r) ->
  exists rest,
    s = run ++ rest /\ k rest = Some r /\
    forallb cls run = true /\ min <= length run.
Proof.
  induction s as [|c s IH]; intros min run r H.
  - simpl in H. destruct min; [|discriminate].
    destruct (k []) eqn:Hk; [|discriminate].
    inversion H; subst. exists []. repeat split; auto.
  - simpl in H.
    assert (Hstop :
      match min with
      | O => match k (c :: s) with Some r0 => Some ([], r0) | None => None end
      | S _ => None
      end = Some (run, r) ->
      exists rest, c :: s = run ++ rest /\ k rest = Some r /\
                   forallb cls run = true /\ min <= length run).
    { destruct min; [|discriminate].
      destruct (k (c :: s)) eqn:Hk; [|discriminate].
      intros E; inversion E; subst. exists (c :: s). repeat split; auto. }
    destruct (cls c) eqn:Hc; [|now apply Hstop].
    destruct (rep_greedy cls (pred min) k s) as [[run' r']|] eqn:Hrec;
      [|now apply Hstop].
    inversion H; subst.
    apply IH in Hrec as (rest & -> & Hk & Hall & Hmin).
    exists rest. simpl. rewrite Hc, Hall. repeat split; auto. lia.
Qed.

(** ** The matcher: greedy means longest (completeness) *)

(** When the continuation fails after every non-empty run of the class, the
    repetition takes nothing. *)
Lemma rep_greedy_no_extension cls k : forall s min,
  (forall ext rest, s = ext ++ rest -> ext <> [] ->
                    forallb cls ext = true -> k rest = None) ->
  rep_greedy cls min k s =
  match min with
  | O => match k s with Some r => Some ([], r) | None => None end
  | S _ => None
  end.
Proof.
  induction s as [|c s IH]; intros min Hext; [reflexivity|].
  simpl. destruct (cls c) eqn:Hc; [|reflexivity].
  rewrite IH.
  - destruct (pred min) eqn:Hp.
    + rewrite (Hext [c] s); simpl; auto; try discriminate.
      now rewrite Hc.
    + reflexivity.
  - intros ext rest -> Hne Hall.
    apply (Hext (c :: ext) rest); simpl; auto; try discriminate.
    now rewrite Hc, Hall.
Qed.

(** The repetition takes [run] when the continuation accepts what follows
    it and rejects what follows every longer run. *)
Lemma rep_greedy_longest cls k : forall run min rest r,
  forallb cls run = true ->
  min <= length run ->
  k rest = Some r ->
  (forall ext rest', rest = ext ++ rest' -> ext <> [] ->
                     forallb cls ext = true -> k rest' = None) ->
  rep_greedy cls min k (run ++ rest) = Some (run, r).
Proof.
  intros run0; induction run0 as [|c run0 IH]; intros min rest r Hall Hmin Hk Hext.
  - simpl in *. rewrite rep_greedy_no_extension by exact Hext.
    assert (min = 0) by lia. subst. now rewrite Hk.
  - simpl in Hall. apply andb_true_iff in Hall as [Hc Hall].
    simpl. rewrite Hc.
    rewrite (IH (pred min) rest r); auto. simpl in Hmin. lia.
Qed.

(** A run that stops at a character outside the class cannot be extended. *)
Lemma no_extension_at_boundary (cls : ascii -> bool) (k : cont) c rest :
  cls c = false ->
  forall ext rest', c :: rest = ext ++ rest' -> ext <> [] ->
                    forallb cls ext = true -> k rest' = None.
Proof.
  intros Hc [|x ext] rest' E Hne Hall; [congruence|].
  simpl in E, Hall. inversion E; subst.
  rewrite Hc in Hall. discriminate.
Qed.

Lemma no_extension_at_end (cls : ascii -> bool) (k : cont) :
  forall ext rest', [] = ext ++ rest' -> ext <> [] ->
                    forallb cls ext = true -> k rest' = None.
Proof.
  intros [|x ext] rest' E Hne _; [congruence|discriminate].
Qed.

(** ** Matching consumes a prefix *)

Lemma re_match_consumes : forall p s g rest,
  re_match p s = Some (g, rest) -> exists m, s = m ++ rest.
Proof.
  induction p as [|it p IH]; intros s g rest H.
  - simpl in H. inversion H; subst. now exists [].
  - destruct it as [c|c|cap min cls]; simpl in H.
    + destruct s as [|x s]; [discriminate|].
      destruct (Ascii.eqb x c); [|discriminate].
      apply IH in H as [m ->]. now exists (x :: m).
    + destruct s as [|x s]; [discriminate|].
      destruct (Ascii.eqb (lower x) (lower c)); [|discriminate].
      apply IH in H as [m ->]. now exists (x :: m).
    + destruct (rep_greedy cls min (re_match p) s) as [[run [g' rest']]|] eqn:Hr;
        [|discriminate].
      inversion H; subst.
      apply rep_greedy_sound in Hr as (rest0 & -> & Hk & _ & _).
      apply IH in Hk as [m ->]. exists (run ++ m). now rewrite app_assoc.
Qed.

Lemma firstn_matched (m rest : str) :
  firstn (length (m ++ rest) - length rest) (m ++ rest) = m.
Proof.
  rewrite length_app.
  replace (length m + length rest - length rest) with (length m) by lia.
  rewrite firstn_app, Nat.sub_diag, firstn_all. simpl. apply app_nil_r.
Qed.

(** ** [search]: leftmost match *)

Lemma search_unfold p s :
  search p s =
  match re_match p s with
  | Some (g, rest) =>
      Some (mkFound [] g (firstn (length s - length rest) s) rest)
  | None =>
      match s with
      | [] => None
      | c :: s' =>
          match search p s' with
          | Some m => Some (mkFound (c :: before m) (groups m) (matched m) (after m))
          | None => None
          end
      end
  end.
Proof. destruct s; reflexivity. Qed.

Lemma matched_text p s g rest :
  re_match p s = Some (g, rest) ->
  s = firstn (length s - length rest) s ++ rest.
Proof.
  intros H. destruct (re_match_consumes _ _ _ _ H) as [m ->].
  now rewrite firstn_matched.
Qed.

Lemma search_sound p : forall s m,
  search p s = Some m ->
  s = before m ++ matched m ++ after m /\
  re_match p (matched m ++ after m) = Some (groups m, after m) /\
  (forall i, i < length (before m) -> re_match p (skipn i s) = None).
Proof.
  induction s as [|c s IH]; intros m H.
  - rewrite search_unfold in H.
    destruct (re_match p []) as [[g rest]|] eqn:Hm; [|discriminate].
    injection H as <-; cbn [before matched after groups app].
    pose proof (matched_text _ _ _ _ Hm) as E.
    rewrite firstn_nil in *. cbn [app] in E. subst rest.
    repeat split; auto. intros i Hi; inversion Hi.
  - remember (c :: s) as t eqn:Ht. rewrite search_unfold in H.
    destruct (re_match p t) as [[g rest]|] eqn:Hm.
    + injection H as <-; cbn [before matched after groups app].
      pose proof (matched_text _ _ _ _ Hm) as E. rewrite <- E.
      repeat split; auto. intros i Hi; inversion Hi.
    + subst t. destruct (search p s) as [m'|] eqn:Hs; [|discriminate].
      injection H as <-; cbn [before matched after groups].
      destruct (IH _ eq_refl) as (E & Hmm & Hnone).
      repeat split; auto.
      * simpl. now rewrite <- E.
      * intros [|i] Hi; simpl; [exact Hm|]. apply Hnone. simpl in Hi. lia.
Qed.

Lemma search_found p : forall pre s g rest,
  (forall i, i < length pre -> re_match p (skipn i (pre ++ s)) = None) ->
  re_match p s = Some (g, rest) ->
  search p (pre ++ s) =
  Some (mkFound pre g (firstn (length s - length rest) s) rest).
Proof.
  induction pre as [|c pre IH]; intros s g rest Hnone Hm.
  - cbn [app]. rewrite search_unfold. now rewrite Hm.
  - assert (H0 : re_match p ((c :: pre) ++ s) = None)
      by (apply (Hnone 0); simpl; lia).
    rewrite search_unfold, H0. cbn [app].
    rewrite (IH s g rest); auto.
    intros i Hi. apply (Hnone (S i)). simpl; lia.
Qed.

Lemma search_none p : forall s,
  search p s = None -> forall i, re_match p (skipn i s) = None.
Proof.
  induction s as [|c s IH]; intros H i; rewrite search_unfold in H.
  - destruct (re_match p []) as [[g r]|] eqn:Hm; [discriminate|].
    now destruct i.
  - destruct (re_match p (c :: s)) as [[g r]|] eqn:Hm; [discriminate|].
    destruct (search p s) eqn:Hs; [discriminate|].
    destruct i; simpl; auto.
Qed.

(** ** [findall] follows [search] *)

Lemma findall_from_skip p : forall x n rest,
  length x = n -> findall_from p n (x ++ rest) = findall_from p 0 rest.
Proof.
  induction x as [|c x IH]; intros n rest Hn; simpl in *; subst; auto.
Qed.

Lemma findall_from_cons p c s :
  findall_from p 0 (c :: s) =
  match re_match p (c :: s) with
  | Some (g, rest) => g :: findall_from p (length (c :: s) - length rest - 1) s
  | None => findall_from p 0 s
  end.
Proof. reflexivity. Qed.

Lemma findall_at_match p (m rest : str) g :
  m <> [] ->
  re_match p (m ++ rest) = Some (g, rest) ->
  findall p (m ++ rest) = g :: findall p rest.
Proof.
  intros Hne Hm. destruct m as [|c m]; [congruence|].
  unfold findall. cbn [app] in *. rewrite findall_from_cons, Hm.
  f_equal. apply findall_from_skip.
  cbn [length]. rewrite length_app. lia.
Qed.

Lemma findall_search p : forall s m,
  search p s = Some m -> matched m <> [] ->
  findall p s = groups m :: findall p (after m).
Proof.
  intros s m H Hne.
  destruct (search_sound _ _ _ H) as (E & Hm & Hnone).
  rewrite E in *. clear H E.
  generalize dependent (before m). intros pre. induction pre as [|c pre IH];
    intros Hnone.
  - cbn [app]. now apply findall_at_match.
  - assert (H0 : re_match p (c :: pre ++ matched m ++ after m) = None)
      by (apply (Hnone 0); simpl; lia).
    unfold findall. cbn [app]. rewrite findall_from_cons, H0.
    apply IH. intros i Hi. apply (Hnone (S i)). simpl. lia.
Qed.

Lemma findall_nil_search p s : search p s = None -> findall p s = [].
Proof.
  intros H. pose proof (search_none _ _ H) as Hn. clear H.
  unfold findall. induction s as [|c s IH].
  - simpl. specialize (Hn 0). simpl in Hn. now rewrite Hn.
  - assert (H0 : re_match p (c :: s) = None) by apply (Hn 0).
    rewrite findall_from_cons, H0.
    apply IH. intros i. apply (Hn (S i)).
Qed.

(** ** The tag pattern, item by item *)

(** Right-nested form of a text built with [++] and [::]. *)
Ltac flatten := repeat (progress (cbn [app]; rewrite <- ?app_assoc)).

Lemma tag_pattern_eq reader :
  tag_pattern reader =
  Rep true 0 is_blank :: Lit "{" :: Lit "{" :: Rep false 1 isspace ::
  (map LitI reader ++ Lit "(" :: Rep true 1 is_dot :: closing).
Proof. reflexivity. Qed.

Lemma re_match_Lit_inv c p s r :
  re_match (Lit c :: p) s = Some r ->
  exists s', s = c :: s' /\ re_match p s' = Some r.
Proof.
  simpl. destruct s as [|x s]; [discriminate|].
  destruct (Ascii.eqb x c) eqn:E; [|discriminate].
  apply Ascii.eqb_eq in E. subst. intros H. now exists s.
Qed.

Lemma re_match_Rep_inv cap min cls p s g rest :
  re_match (Rep cap min cls :: p) s = Some (g, rest) ->
  exists taken g' s',
    s = taken ++ s' /\ forallb cls taken = true /\ min <= length taken /\
    re_match p s' = Some (g', rest) /\
    g = if cap then taken :: g' else g'.
Proof.
  simpl.
  destruct (rep_greedy cls min (re_match p) s) as [[taken [g' rest']]|] eqn:Hr;
    [|discriminate].
  intros H. injection H as <- <-.
  apply rep_greedy_sound in Hr as (s' & -> & Hk & Hall & Hmin).
  exists taken, g', s'. repeat split; auto.
Qed.

Lemma re_match_name_inv p : forall reader s r,
  re_match (map LitI reader ++ p) s = Some r ->
  exists n s', s = n ++ s' /\ eq_ci n reader = true /\ re_match p s' = Some r.
Proof.
  induction reader as [|c reader IH]; intros s r H.
  - exists [], s. auto.
  - simpl in H. destruct s as [|x s]; [discriminate|].
    destruct (Ascii.eqb (lower x) (lower c)) eqn:E; [|discriminate].
    apply IH in H as (n & s' & -> & Hn & Hm).
    exists (x :: n), s'. simpl. rewrite E, Hn. auto.
Qed.

Lemma re_match_Lit c p s : re_match (Lit c :: p) (c :: s) = re_match p s.
Proof. simpl. now rewrite Ascii.eqb_refl. Qed.

Lemma re_match_Lit_other c x p s :
  x <> c -> re_match (Lit c :: p) (x :: s) = None.
Proof.
  intros H. simpl. destruct (Ascii.eqb x c) eqn:E; [|reflexivity].
  apply Ascii.eqb_eq in E. contradiction.
Qed.

Lemma re_match_name p : forall n reader s,
  eq_ci n reader = true ->
  re_match (map LitI reader ++ p) (n ++ s) = re_match p s.
Proof.
  induction n as [|x n IH]; intros [|c reader] s H; simpl in H;
    try discriminate; [reflexivity|].
  apply andb_true_iff in H as [Hx Hn].
  simpl. rewrite Hx. now apply IH.
Qed.

Lemma re_match_Rep cap min cls p taken rest g rest' :
  forallb cls taken = true ->
  min <= length taken ->
  re_match p rest = Some (g, rest') ->
  (forall ext r', rest = ext ++ r' -> ext <> [] ->
                  forallb cls ext = true -> re_match p r' = None) ->
  re_match (Rep cap min cls :: p) (taken ++ rest) =
  Some (if cap then taken :: g else g, rest').
Proof.
  intros Hall Hmin Hm Hext. simpl.
  now rewrite (rep_greedy_longest cls (re_match p) taken min rest (g, rest') Hall Hmin Hm Hext).
Qed.

(** ** Every match of the tag pattern is a tag *)

Lemma re_match_tag_shape reader s g rest :
  re_match (tag_pattern reader) s = Some (g, rest) ->
  exists sp w1 n a w2,
    g = [sp; a] /\
    s = tag_text sp w1 n a w2 ++ rest /\
    forallb is_blank sp = true /\
    w1 <> [] /\ forallb isspace w1 = true /\
    eq_ci n reader = true /\
    a <> [] /\ forallb is_dot a = true /\
    w2 <> [] /\ forallb isspace w2 = true.
Proof.
  rewrite tag_pattern_eq. intros H.
  apply re_match_Rep_inv in H as (sp & g1 & s1 & -> & Hsp & _ & H & ->).
  apply re_match_Lit_inv in H as (s2 & -> & H).
  apply re_match_Lit_inv in H as (s3 & -> & H).
  apply re_match_Rep_inv in H as (w1 & g2 & s4 & -> & Hw1 & Hl1 & H & ->).
  apply re_match_name_inv in H as (n & s5 & -> & Hn & H).
  apply re_match_Lit_inv in H as (s6 & -> & H).
  apply re_match_Rep_inv in H as (a & g3 & s7 & -> & Ha & Hla & H & ->).
  unfold closing in H.
  apply re_match_Lit_inv in H as (s8 & -> & H).
  apply re_match_Rep_inv in H as (w2 & g4 & s9 & -> & Hw2 & Hl2 & H & ->).
  apply re_match_Lit_inv in H as (s10 & -> & H).
  apply re_match_Lit_inv in H as (s11 & -> & H).
  simpl in H. injection H as <- <-.
  exists sp, w1, n, a, w2. unfold tag_text, txt. cbn [list_ascii_of_string].
  repeat split; auto.
  - flatten. reflexivity.
  - intros ->. simpl in Hl1. lia.
  - intros ->. simpl in Hla. lia.
  - intros ->. simpl in Hl2. lia.
Qed.

Lemma tag_text_nonempty sp w1 n a w2 : tag_text sp w1 n a w2 <> [].
Proof.
  unfold tag_text. destruct sp; simpl; discriminate.
Qed.

(** ** A tag is matched, and the argument group runs to the last closing
       of the line *)

Lemma isspace_lower x : isspace (lower x) = isspace x.
Proof. destruct x as [[] [] [] [] [] [] [] []]; reflexivity. Qed.

Lemma ident_char_not_space r : is_ident_char r = true -> isspace (lower r) = false.
Proof.
  destruct r as [[] [] [] [] [] [] [] []]; vm_compute; congruence.
Qed.

Lemma name_starts n reader :
  is_identifier reader = true -> eq_ci n reader = true ->
  exists c n', n = c :: n' /\ isspace c = false.
Proof.
  destruct reader as [|r reader]; [discriminate|].
  destruct n as [|c n]; [discriminate|].
  intros Hid Hn. simpl in Hid, Hn.
  apply andb_true_iff in Hid as [Hr _].
  apply andb_true_iff in Hn as [Hc _].
  apply Ascii.eqb_eq in Hc.
  exists c, n. split; [reflexivity|].
  rewrite <- isspace_lower, Hc. now apply ident_char_not_space.
Qed.

Lemma space_not_paren c : isspace c = true -> c <> ")"%char.
Proof. intros H ->. discriminate. Qed.

Lemma closing_fails c s : c <> ")"%char -> re_match closing (c :: s) = None.
Proof. intros H. unfold closing. now apply re_match_Lit_other. Qed.

Lemma closing_fails_at_line_end s :
  at_line_end s = true -> re_match closing s = None.
Proof.
  destruct s as [|c s]; [reflexivity|].
  intros H. apply closing_fails. intros ->. discriminate.
Qed.

Lemma length_nonempty {A} (l : list A) : l <> [] -> 1 <= length l.
Proof. destruct l; [congruence|simpl; lia]. Qed.

Lemma closing_matches w2 rest :
  w2 <> [] -> forallb isspace w2 = true ->
  re_match closing (")"%char :: w2 ++ "}"%char :: "}"%char :: rest)
  = Some ([], rest).
Proof.
  intros Hne Hw. unfold closing. rewrite re_match_Lit.
  apply (re_match_Rep false 1 isspace _ w2 _ [] rest Hw (length_nonempty _ Hne)).
  - now rewrite !re_match_Lit.
  - now apply no_extension_at_boundary.
Qed.

(** After text without a closing parenthesis that ends the line, no
    position reachable by [.] starts a closing. *)
Lemma no_later_closing : forall R rest,
  (forall c, In c R -> c <> ")"%char) ->
  at_line_end rest = true ->
  forall ext r', R ++ rest = ext ++ r' ->
                 forallb is_dot ext = true -> re_match closing r' = None.
Proof.
  induction R as [|x R IH]; intros rest HR Hend ext r' E Hdot.
  - destruct ext as [|e ext]; simpl in E; subst.
    + now apply closing_fails_at_line_end.
    + simpl in Hend, Hdot. unfold is_dot in Hdot. rewrite Hend in Hdot.
      discriminate.
  - destruct ext as [|e ext]; simpl in E.
    + subst r'. apply closing_fails. apply HR. now left.
    + injection E as <- E. simpl in Hdot.
      apply andb_true_iff in Hdot as [_ Hdot].
      apply (IH rest) with (ext := ext); auto.
      intros c Hc. apply HR. now right.
Qed.

Lemma re_match_tag reader sp w1 n body w2 rest :
  is_identifier reader = true ->
  forallb is_blank sp = true ->
  w1 <> [] -> forallb isspace w1 = true ->
  eq_ci n reader = true ->
  body <> [] -> forallb is_dot body = true ->
  w2 <> [] -> forallb isspace w2 = true ->
  at_line_end rest = true ->
  re_match (tag_pattern reader) (tag_text sp w1 n body w2 ++ rest)
  = Some ([sp; body], rest).
Proof.
  intros Hid Hsp Hw1n Hw1 Hn Hbn Hb Hw2n Hw2 Hend.
  destruct (name_starts _ _ Hid Hn) as (c & n' & En & Hc).
  assert (Hclose : re_match closing
             (")"%char :: w2 ++ "}"%char :: "}"%char :: rest) = Some ([], rest))
    by now apply closing_matches.
  assert (Hbody : re_match (Rep true 1 is_dot :: closing)
             (body ++ ")"%char :: w2 ++ "}"%char :: "}"%char :: rest)
           = Some ([body], rest)).
  { apply (re_match_Rep true 1 is_dot closing body _ [] rest Hb
             (length_nonempty _ Hbn) Hclose).
    intros [|e ext] r' E Hne Hdot; [congruence|].
    simpl in E. injection E as <- E. cbn [forallb] in Hdot.
    apply andb_true_iff in Hdot as [_ Hdot].
    apply (no_later_closing (w2 ++ ["}"%char; "}"%char]) rest)
      with (ext := ext); auto.
    - intros x Hx. apply in_app_or in Hx as [Hx|Hx].
      + apply space_not_paren.
        rewrite forallb_forall in Hw2. now apply Hw2.
      + simpl in Hx. destruct Hx as [<-|[<-|[]]]; discriminate.
    - rewrite <- E. flatten. reflexivity. }
  assert (Hname : re_match (map LitI reader ++ Lit "(" :: Rep true 1 is_dot :: closing)
             (n ++ "("%char :: body ++ ")"%char :: w2 ++ "}"%char :: "}"%char :: rest)
           = Some ([body], rest)).
  { rewrite re_match_name by exact Hn. now rewrite re_match_Lit. }
  rewrite tag_pattern_eq. unfold tag_text, txt. cbn [list_ascii_of_string].
  flatten.
  apply (re_match_Rep true 0 is_blank _ sp _ [body] rest Hsp (Nat.le_0_l _)).
  - rewrite !re_match_Lit.
    apply (re_match_Rep false 1 isspace _ w1 _ [body] rest Hw1
             (length_nonempty _ Hw1n) Hname).
    subst n. cbn [app]. now apply no_extension_at_boundary.
  - now apply no_extension_at_boundary.
Qed.

(** ** Occurrences reported by [findall] are matches *)

Lemma findall_from_in p : forall s n g,
  In g (findall_from p n s) ->
  exists pre suffix rest,
    s = pre ++ suffix /\ re_match p suffix = Some (g, rest).
Proof.
  induction s as [|c s IH]; intros n g H.
  - simpl in H. destruct (re_match p []) as [[g' r]|] eqn:Hm; [|contradiction].
    destruct H as [<-|[]]. now exists [], [], r.
  - destruct n as [|n].
    + rewrite findall_from_cons in H.
      destruct (re_match p (c :: s)) as [[g' r]|] eqn:Hm.
      * destruct H as [<-|H]; [now exists [], (c :: s), r|].
        apply IH in H as (pre & suf & r' & -> & Hs).
        now exists (c :: pre), suf, r'.
      * apply IH in H as (pre & suf & r' & -> & Hs).
        now exists (c :: pre), suf, r'.
    + simpl in H.
      apply IH in H as (pre & suf & r' & -> & Hs).
      now exists (c :: pre), suf, r'.
Qed.

Lemma findall_occurrence_shape reader s g :
  In g (findall (tag_pattern reader) s) ->
  exists pre sp w1 n a w2 rest,
    s = pre ++ tag_text sp w1 n a w2 ++ rest /\ g = [sp; a] /\
    eq_ci n reader = true /\ a <> [] /\
    w1 <> [] /\ forallb isspace w1 = true /\
    w2 <> [] /\ forallb isspace w2 = true.
Proof.
  intros H. apply findall_from_in in H as (pre & suf & rest & -> & Hm).
  apply re_match_tag_shape in Hm
    as (sp & w1 & n & a & w2 & -> & -> & _ & ? & ? & ? & ? & _ & ? & ?).
  exists pre, sp, w1, n, a, w2, rest. repeat split; auto.
Qed.

(** ** C5 *)

(** A greedy repetition takes at least every run after which the rest of
    the pattern matches. *)
Lemma rep_greedy_at_least cls k : forall taken min rest r,
  forallb cls taken = true ->
  min <= length taken ->
  k rest = Some r ->
  exists ext r',
    rep_greedy cls min k (taken ++ rest) = Some (taken ++ ext, r').
Proof.
  induction taken as [|c taken IH]; intros min rest r Hall Hmin Hk.
  - assert (min = 0) by (simpl in Hmin; lia). subst min. cbn [app].
    destruct rest as [|x rest]; simpl.
    + rewrite Hk. eauto.
    + destruct (cls x).
      * destruct (rep_greedy cls 0 k rest) as [[taken' r']|]; [eauto|].
        rewrite Hk. eauto.
      * rewrite Hk. eauto.
  - simpl in Hall. apply andb_true_iff in Hall as [Hc Hall].
    destruct (IH (pred min) rest r Hall) as (ext & r' & E); auto.
    { simpl in Hmin. lia. }
    exists ext, r'. cbn [app rep_greedy]. now rewrite Hc, E.
Qed.

Lemma closing_has_no_group s g rest :
  re_match closing s = Some (g, rest) -> g = [].
Proof.
  unfold closing. intros H.
  apply re_match_Lit_inv in H as (s1 & -> & H).
  apply re_match_Rep_inv in H as (w & g1 & s2 & -> & _ & _ & H & ->).
  apply re_match_Lit_inv in H as (s3 & -> & H).
  apply re_match_Lit_inv in H as (s4 & -> & H).
  simpl in H. now injection H as <- <-.
Qed.

(** A tag at the start of a text is matched, and group 2 holds its
    argument text and whatever follows it up to the last closing that the
    repetition can reach. *)
Lemma re_match_tag_at_least reader sp w1 n body w2 rest :
  is_identifier reader = true ->
  forallb is_blank sp = true ->
  w1 <> [] -> forallb isspace w1 = true ->
  eq_ci n reader = true ->
  body <> [] -> forallb is_dot body = true ->
  w2 <> [] -> forallb isspace w2 = true ->
  exists more rest',
    re_match (tag_pattern reader) (tag_text sp w1 n body w2 ++ rest)
    = Some ([sp; body ++ more], rest').
Proof.
  intros Hid Hsp Hw1n Hw1 Hn Hbn Hb Hw2n Hw2.
  destruct (name_starts _ _ Hid Hn) as (c & n' & En & Hc).
  assert (Hclose : re_match closing
             (")"%char :: w2 ++ "}"%char :: "}"%char :: rest) = Some ([], rest))
    by now apply closing_matches.
  destruct (rep_greedy_at_least is_dot (re_match closing) body 1 _ _ Hb
              (length_nonempty _ Hbn) Hclose) as (more & [g rest'] & Hrep).
  assert (Hg : g = []).
  { apply rep_greedy_sound in Hrep as (r0 & _ & Hk & _).
    now apply closing_has_no_group in Hk. }
  subst g.
  assert (Hbody : re_match (Rep true 1 is_dot :: closing)
             (body ++ ")"%char :: w2 ++ "}"%char :: "}"%char :: rest)
           = Some ([body ++ more], rest')).
  { cbn [re_match]. now rewrite Hrep. }
  assert (Hname : re_match (map LitI reader ++ Lit "(" :: Rep true 1 is_dot :: closing)
             (n ++ "("%char :: body ++ ")"%char :: w2 ++ "}"%char :: "}"%char :: rest)
           = Some ([body ++ more], rest')).
  { rewrite re_match_name by exact Hn. now rewrite re_match_Lit. }
  exists more, rest'.
  rewrite tag_pattern_eq. unfold tag_text, txt. cbn [list_ascii_of_string].
  flatten.
  apply (re_match_Rep true 0 is_blank _ sp _ [body ++ more] rest' Hsp (Nat.le_0_l _)).
  - rewrite !re_match_Lit.
    apply (re_match_Rep false 1 isspace _ w1 _ [body ++ more] rest' Hw1
             (length_nonempty _ Hw1n) Hname).
    subst n. cbn [app]. now apply no_extension_at_boundary.
  - now apply no_extension_at_boundary.
Qed.

(** Whenever a line holds two tags, whatever follows them, the first
    occurrence that the scanner reports does not stop at the first closing:
    its argument text begins with the first tag's arguments, the first
    closing, the text in between and the opening of the second tag, and
    goes on at least to the second tag's closing. *)
Lemma two_tags_on_a_line_are_merged
    reader sp w1 n1 a1 w2 mid w3 n2 a2 w4 post :
  is_identifier reader = true ->
  forallb is_blank sp = true ->
  w1 <> [] -> forallb isspace w1 = true ->
  eq_ci n1 reader = true ->
  w4 <> [] -> forallb isspace w4 = true ->
  forallb is_dot (a1 ++ txt ")" ++ w2 ++ txt "}}" ++ mid
                  ++ txt "{{" ++ w3 ++ n2 ++ txt "(" ++ a2) = true ->
  exists more rest,
    findall (tag_pattern reader)
            (tag_text sp w1 n1 a1 w2 ++ mid ++ tag_text [] w3 n2 a2 w4 ++ post)
    = [sp; (a1 ++ txt ")" ++ w2 ++ txt "}}" ++ mid
               ++ txt "{{" ++ w3 ++ n2 ++ txt "(" ++ a2) ++ more]
      :: findall (tag_pattern reader) rest.
Proof.
  intros Hid Hsp Hw1n Hw1 Hn Hw4n Hw4 Hline.
  set (body := a1 ++ txt ")" ++ w2 ++ txt "}}" ++ mid
               ++ txt "{{" ++ w3 ++ n2 ++ txt "(" ++ a2) in *.
  assert (E : tag_text sp w1 n1 a1 w2 ++ mid ++ tag_text [] w3 n2 a2 w4 ++ post
              = tag_text sp w1 n1 body w4 ++ post).
  { unfold body, tag_text, txt. cbn [list_ascii_of_string]. flatten.
    reflexivity. }
  rewrite E.
  destruct (re_match_tag_at_least reader sp w1 n1 body w4 post)
    as (more & rest & Hm); auto.
  { unfold body. destruct a1; discriminate. }
  exists more, rest.
  destruct (re_match_consumes _ _ _ _ Hm) as [m Em].
  rewrite Em in Hm |- *. apply findall_at_match; [|exact Hm].
  intros ->.
  apply re_match_tag_shape in Hm
    as (sp' & w1' & n' & a' & w2' & _ & Hs & _).
  apply (f_equal (@length ascii)) in Hs. rewrite !length_app in Hs.
  pose proof (tag_text_nonempty sp' w1' n' a' w2') as Hne.
  destruct (tag_text sp' w1' n' a' w2'); [congruence|]. simpl in Hs. lia.
Qed.

(** When the line ends after the second tag, the occurrence is exactly
    that. *)
Lemma two_tags_that_end_a_line_are_one_occurrence
    reader sp w1 n1 a1 w2 mid w3 n2 a2 w4 post :
  is_identifier reader = true ->
  forallb is_blank sp = true ->
  w1 <> [] -> forallb isspace w1 = true ->
  eq_ci n1 reader = true ->
  w4 <> [] -> forallb isspace w4 = true ->
  forallb is_dot (a1 ++ txt ")" ++ w2 ++ txt "}}" ++ mid
                  ++ txt "{{" ++ w3 ++ n2 ++ txt "(" ++ a2) = true ->
  at_line_end post = true ->
  findall (tag_pattern reader)
          (tag_text sp w1 n1 a1 w2 ++ mid ++ tag_text [] w3 n2 a2 w4 ++ post)
  = [sp; a1 ++ txt ")" ++ w2 ++ txt "}}" ++ mid
         ++ txt "{{" ++ w3 ++ n2 ++ txt "(" ++ a2]
    :: findall (tag_pattern reader) post.
Proof.
  intros Hid Hsp Hw1n Hw1 Hn Hw4n Hw4 Hline Hend.
  set (body := a1 ++ txt ")" ++ w2 ++ txt "}}" ++ mid
               ++ txt "{{" ++ w3 ++ n2 ++ txt "(" ++ a2) in *.
  assert (E : tag_text sp w1 n1 a1 w2 ++ mid ++ tag_text [] w3 n2 a2 w4 ++ post
              = tag_text sp w1 n1 body w4 ++ post).
  { unfold body, tag_text, txt. cbn [list_ascii_of_string]. flatten.
    reflexivity. }
  rewrite E. apply findall_at_match; [apply tag_text_nonempty|].
  apply re_match_tag; auto.
  unfold body. destruct a1; discriminate.
Qed.

(** C5 (code defect).  On the line of the claim, which holds two complete
    tags of the same name, the scanner reports ONE occurrence and not two:
    group 2 of line 79 is a greedy repetition, so the argument text that
    is captured (and then handed to the parser) runs from the first tag's
    arguments through the first closing, the text in between and the
    opening of the second tag, up to the last closing of the line.  It is
    the argument text of neither tag; here the parser rejects it and the
    page is not rendered. *)
Theorem C5_capture_runs_to_the_last_closing :
  findall (tag_pattern read_csv)
          (txt "{{ read_csv(a.csv) }} and {{ read_csv(b.csv) }}")
  = [[ [] ; txt "a.csv) }} and {{ read_csv(b.csv"]]
  /\ findall (tag_pattern read_csv)
             (txt "{{ read_csv(a.csv) }} and {{ read_csv(b.csv) }}")
     <> [[ [] ; txt "a.csv"]; [ [] ; txt "b.csv"]]
  /\ run E_flat csv_T
         (txt "{{ read_csv(a.csv) }} and {{ read_csv(b.csv) }}") (txt "/")
     = (Raise (Failure (txt "a.csv) }} and {{ read_csv(b.csv")),
        initial (txt "/")).
Proof.
  split; [vm_compute; reflexivity|].
  split; [vm_compute; discriminate|vm_compute; reflexivity].
Qed.

(** Each of the two tags, alone on a line, is one occurrence with its own
    argument text: it is their sharing a line that merges them. *)
Example two_tags_on_two_lines :
  findall (tag_pattern read_csv)
          (txt "{{ read_csv(a.csv) }} and
{{ read_csv(b.csv) }}")
  = [[ [] ; txt "a.csv"]; [ [] ; txt "b.csv"]].
Proof. vm_compute. reflexivity. Qed.

(** ** Documents without occurrence *)

Lemma process_reader_no_match E reader function md st :
  findall (tag_pattern reader) md = [] ->
  process_reader E reader function md st = (Ok md, st).
Proof. intros H. unfold process_reader. now rewrite H. Qed.

Lemma for_readers_unchanged_or_occurrence E : forall READERS md st,
  for_readers E READERS md st = (Ok md, st) \/
  exists reader function g,
    In (reader, function) READERS /\ In g (findall (tag_pattern reader) md).
Proof.
  induction READERS as [|[reader function] READERS IH]; intros md st.
  - now left.
  - destruct (findall (tag_pattern reader) md) as [|g gs] eqn:Hf.
    + destruct (IH md st) as [Hu|(r & f & g & Hin & Hg)].
      * left. cbn [for_readers]. unfold bind.
        now rewrite process_reader_no_match.
      * right. exists r, f, g. split; [now right|exact Hg].
    + right. exists reader, function, g. split; [now left|].
      rewrite Hf. now left.
Qed.


(** ** Lines *)

Lemma split_lf_nonempty s : split_lf s <> [].
Proof.
  destruct s as [|c s]; simpl; [discriminate|].
  destruct (chr_is 10 c); [discriminate|].
  destruct (split_lf s); discriminate.
Qed.

Lemma split_lf_lines s : Forall lf_free (split_lf s).
Proof.
  induction s as [|c s IH]; simpl.
  - now constructor.
  - destruct (chr_is 10 c) eqn:Hc.
    + now constructor.
    + destruct (split_lf s) as [|l ls]; constructor.
      * unfold lf_free. simpl. unfold is_dot. now rewrite Hc.
      * constructor.
      * inversion IH; subst. unfold lf_free in *. simpl. unfold is_dot at 1.
        now rewrite Hc.
      * now inversion IH.
Qed.

Lemma split_lf_single l : lf_free l -> split_lf l = [l].
Proof.
  unfold lf_free. induction l as [|c l IH]; intros H; [reflexivity|].
  simpl in H. apply andb_true_iff in H as [Hc Hl].
  simpl. unfold is_dot in Hc. apply negb_true_iff in Hc. rewrite Hc.
  now rewrite IH.
Qed.

Lemma split_lf_app l rest :
  lf_free l -> split_lf (l ++ newline :: rest) = l :: split_lf rest.
Proof.
  unfold lf_free. induction l as [|c l IH]; intros H; [reflexivity|].
  simpl in H. apply andb_true_iff in H as [Hc Hl].
  cbn [app split_lf]. unfold is_dot in Hc. apply negb_true_iff in Hc.
  rewrite Hc. now rewrite IH.
Qed.

Lemma split_join_lf : forall ls,
  ls <> [] -> Forall lf_free ls -> split_lf (join_lf ls) = ls.
Proof.
  induction ls as [|l ls IH]; intros Hne Hall; [congruence|].
  inversion Hall as [|? ? Hl Hls]; subst.
  destruct ls as [|l' ls].
  - simpl. now apply split_lf_single.
  - change (join_lf (l :: l' :: ls)) with (l ++ newline :: join_lf (l' :: ls)).
    rewrite split_lf_app by assumption. f_equal.
    apply IH; [discriminate|assumption].
Qed.

(** [splitlines(True)] cuts the text into pieces and loses nothing. *)
Lemma splitlines_keepends_concat_bounded : forall n s,
  length s <= n -> concat (splitlines_keepends s) = s.
Proof.
  induction n as [|n IH]; intros [|c s] Hn; try reflexivity;
    [simpl in Hn; lia|].
  simpl in Hn. cbn [splitlines_keepends].
  destruct (chr_is 13 c).
  - destruct s as [|d s]; [reflexivity|].
    destruct (chr_is 10 d); cbn [concat app].
    + rewrite IH; [reflexivity|simpl in Hn; lia].
    + rewrite IH; [reflexivity|lia].
  - destruct (is_linebreak c).
    + cbn [concat app]. rewrite IH; [reflexivity|lia].
    + assert (E : concat (splitlines_keepends s) = s) by (apply IH; lia).
      destruct (splitlines_keepends s) as [|l ls].
      * simpl in *. now subst.
      * cbn [concat app] in *. now rewrite E.
Qed.

Lemma splitlines_keepends_concat s : concat (splitlines_keepends s) = s.
Proof. now apply (splitlines_keepends_concat_bounded (length s)). Qed.

Lemma splitlines_keepends_single : forall line,
  line <> [] ->
  forallb (fun c => negb (is_linebreak c)) line = true ->
  splitlines_keepends line = [line].
Proof.
  induction line as [|c line IH]; intros Hne H; [congruence|].
  simpl in H. apply andb_true_iff in H as [Hc Hl].
  apply negb_true_iff in Hc.
  assert (H13 : chr_is 13 c = false).
  { destruct (chr_is 13 c) eqn:E; [|reflexivity].
    unfold chr_is in E. apply Nat.eqb_eq in E.
    unfold is_linebreak in Hc. rewrite E in Hc. discriminate. }
  cbn [splitlines_keepends]. rewrite H13, Hc.
  destruct line as [|d line]; [reflexivity|].
  rewrite IH; [reflexivity|discriminate|assumption].
Qed.

(** On a line without another line boundary, [textwrap.indent] prefixes the
    line if it holds something else than whitespace, and leaves it as it is
    otherwise. *)
Lemma textwrap_indent_line line prefix :
  forallb (fun c => negb (is_linebreak c)) line = true ->
  textwrap_indent line prefix
  = if not_blank_line line then prefix ++ line else line.
Proof.
  intros H. unfold textwrap_indent. destruct line as [|c line]; [reflexivity|].
  rewrite splitlines_keepends_single by (auto; discriminate).
  cbn [map concat]. now rewrite app_nil_r.
Qed.

Lemma forallb_concat_map {A} (P : ascii -> bool) (f : A -> str) (l : list A) :
  (forall x, In x l -> forallb P (f x) = true) ->
  forallb P (concat (map f l)) = true.
Proof.
  induction l as [|x l IH]; intros H; [reflexivity|].
  cbn [map concat]. rewrite forallb_app, (H x) by now left.
  apply IH. intros y Hy. apply H. now right.
Qed.

Lemma forallb_concat (P : ascii -> bool) (l : list str) :
  forallb P (concat l) = true -> forall x, In x l -> forallb P x = true.
Proof.
  induction l as [|y l IH]; intros H x Hx; [contradiction|].
  cbn [concat] in H. rewrite forallb_app in H.
  apply andb_true_iff in H as [Hy Hl].
  destruct Hx as [<-|Hx]; auto.
Qed.

(** Indenting brings in no character that is in neither the text nor the
    prefix. *)
Lemma textwrap_indent_chars (P : ascii -> bool) text prefix :
  forallb P text = true -> forallb P prefix = true ->
  forallb P (textwrap_indent text prefix) = true.
Proof.
  intros Ht Hp. unfold textwrap_indent. apply forallb_concat_map.
  intros line Hin.
  assert (Hl : forallb P line = true).
  { apply forallb_concat with (l := splitlines_keepends text); auto.
    now rewrite splitlines_keepends_concat. }
  destruct (not_blank_line line); auto.
  now rewrite forallb_app, Hp, Hl.
Qed.

Lemma blanks_spec k : concat (repeat (txt "    ") k) = blanks (4 * k).
Proof.
  induction k as [|k IH]; [reflexivity|].
  replace (4 * S k) with (4 + 4 * k) by lia.
  cbn [repeat concat]. rewrite IH. reflexivity.
Qed.

Lemma normalize_spaces_spec ls : normalize_spaces ls = blanks (4 * (length ls / 4)).
Proof. apply blanks_spec. Qed.

Lemma forallb_blanks (P : ascii -> bool) n :
  P " "%char = true -> forallb P (blanks n) = true.
Proof.
  intros H. unfold blanks. induction n as [|n IH]; [reflexivity|].
  cbn [repeat forallb]. now rewrite H, IH.
Qed.

Lemma indent_table_lines ls fragment :
  split_lf (indent_table ls fragment)
  = map (fun line => textwrap_indent line (normalize_spaces ls))
        (split_lf fragment).
Proof.
  unfold indent_table. apply split_join_lf.
  - pose proof (split_lf_nonempty fragment) as Hne.
    destruct (split_lf fragment); [congruence|discriminate].
  - rewrite Forall_map. eapply Forall_impl; [|apply split_lf_lines].
    intros line Hl. apply textwrap_indent_chars; auto.
    rewrite normalize_spaces_spec. now apply forallb_blanks.
Qed.

(** ** C4 *)

(** C4 (as amended).  The indentation is [floor(n/4)*4] blanks for [n]
    captured characters.  The indented text has as many lines as the
    fragment; a line of the fragment that holds a character other than
    whitespace is prefixed with that indentation, the first line included,
    and an empty or whitespace-only line is left as it is.  (A line that
    holds another line boundary of [str.splitlines], such as a carriage
    return, is outside this statement.) *)
Theorem C4_indentation_skips_blank_lines ls fragment i line :
  nth_error (split_lf fragment) i = Some line ->
  forallb (fun c => negb (is_linebreak c)) line = true ->
  normalize_spaces ls = blanks (4 * (length ls / 4)) /\
  length (split_lf (indent_table ls fragment)) = length (split_lf fragment) /\
  nth_error (split_lf (indent_table ls fragment)) i
  = Some (if not_blank_line line
          then blanks (4 * (length ls / 4)) ++ line
          else line).
Proof.
  intros Hi Hline. split; [apply normalize_spaces_spec|].
  rewrite indent_table_lines. split; [apply length_map|].
  rewrite nth_error_map, Hi. cbn [option_map].
  now rewrite textwrap_indent_line, normalize_spaces_spec.
Qed.

Lemma C4_witness :
  normalize_spaces (txt "      ") = blanks (4 * (length (txt "      ") / 4)) /\
  length (split_lf (indent_table (txt "      ") (txt "| a |
  
| b |")))
  = length (split_lf (txt "| a |
  
| b |")) /\
  nth_error (split_lf (indent_table (txt "      ") (txt "| a |
  
| b |"))) 1
  = Some (if not_blank_line (txt "  ")
          then blanks (4 * (length (txt "      ") / 4)) ++ txt "  "
          else txt "  ").
Proof.
  apply C4_indentation_skips_blank_lines; vm_compute; reflexivity.
Defined.

(** C4, as stated, fails: with six captured blanks, the empty line of the
    fragment is not prefixed. *)
Lemma C4_counterexample :
  indent_table (txt "      ") (txt "a

b")
  = txt "    a

    b"
  /\ indent_table (txt "      ") (txt "a

b")
     <> txt "    a
    
    b".
Proof. split; [vm_compute; reflexivity|vm_compute; discriminate]. Qed.

(** ** Substitution *)

Lemma re_sub_literal p repl s :
  no_backslash repl = true ->
  re_sub p repl s =
  match search p s with
  | Some m => Ok (before m ++ repl ++ after m)
  | None => Ok s
  end.
Proof. unfold no_backslash, re_sub. now intros ->. Qed.

Lemma no_backslash_forallb s :
  no_backslash s = forallb not_backslash s.
Proof.
  unfold no_backslash. induction s as [|c s IH]; [reflexivity|].
  simpl. rewrite negb_orb. unfold not_backslash at 1. now rewrite <- IH.
Qed.

Lemma forallb_split_lf (P : ascii -> bool) : forall s,
  forallb P s = true -> Forall (fun l => forallb P l = true) (split_lf s).
Proof.
  induction s as [|c s IH]; intros H.
  - now repeat constructor.
  - simpl in H. apply andb_true_iff in H as [Hc Hs]. specialize (IH Hs).
    simpl. destruct (chr_is 10 c).
    + now constructor.
    + destruct (split_lf s) as [|l ls].
      * repeat constructor. simpl. now rewrite Hc.
      * inversion IH; subst. constructor; auto. simpl. now rewrite Hc.
Qed.

Lemma forallb_join_lf (P : ascii -> bool) : forall ls,
  P newline = true ->
  Forall (fun l => forallb P l = true) ls -> forallb P (join_lf ls) = true.
Proof.
  intros ls Hn. induction ls as [|l ls IH]; intros H; [reflexivity|].
  inversion H as [|? ? Hl Hls]; subst.
  destruct ls as [|l' ls]; [exact Hl|].
  change (join_lf (l :: l' :: ls)) with (l ++ newline :: join_lf (l' :: ls)).
  rewrite forallb_app, Hl. simpl. rewrite Hn. now apply IH.
Qed.

Lemma indent_table_chars (P : ascii -> bool) ls fragment :
  P " "%char = true -> P newline = true ->
  forallb P fragment = true -> forallb P (indent_table ls fragment) = true.
Proof.
  intros Hb Hn Hf. unfold indent_table. apply forallb_join_lf; [exact Hn|].
  rewrite Forall_map. eapply Forall_impl; [|apply forallb_split_lf, Hf].
  intros line Hl. apply textwrap_indent_chars; [exact Hl|].
  rewrite normalize_spaces_spec. now apply forallb_blanks.
Qed.

Lemma indent_table_no_backslash ls fragment :
  no_backslash fragment = true -> no_backslash (indent_table ls fragment) = true.
Proof.
  rewrite !no_backslash_forallb. now apply indent_table_chars.
Qed.

Lemma search_matched_nonempty reader s m :
  search (tag_pattern reader) s = Some m -> matched m <> [].
Proof.
  intros H. destruct (search_sound _ _ _ H) as (_ & Hm & _).
  apply re_match_tag_shape in Hm as (sp & w1 & n & a & w2 & _ & E & _).
  apply app_inv_tail in E. rewrite E. apply tag_text_nonempty.
Qed.

(** ** C3 *)

(** C3 (as amended).  Take two successive occurrences of a tag (two
    byte-identical ones in particular) and two fragments without backslash.
    The scanner reports the two occurrences in this order.  Substituting the
    first indented fragment replaces the first occurrence and nothing else;
    when, in the text so obtained, no match of the tag pattern begins in the
    text before the first occurrence or in the fragment that replaced it,
    substituting the second indented fragment replaces the second occurrence
    and nothing else. *)
Theorem C3_substitution_in_discovery_order reader s m1 m2 f1 f2 :
  search (tag_pattern reader) s = Some m1 ->
  search (tag_pattern reader) (after m1) = Some m2 ->
  no_backslash f1 = true ->
  no_backslash f2 = true ->
  (forall i,
      i < length (before m1 ++ indent_table (group m1 1) f1) ->
      re_match (tag_pattern reader)
              (skipn i (before m1 ++ indent_table (group m1 1) f1 ++ after m1))
      = None) ->
  findall (tag_pattern reader) s
  = groups m1 :: groups m2 :: findall (tag_pattern reader) (after m2)
  /\ s = before m1 ++ matched m1 ++ before m2 ++ matched m2 ++ after m2
  /\ re_sub (tag_pattern reader) (indent_table (group m1 1) f1) s
     = Ok (before m1 ++ indent_table (group m1 1) f1
           ++ before m2 ++ matched m2 ++ after m2)
  /\ re_sub (tag_pattern reader) (indent_table (group m2 1) f2)
            (before m1 ++ indent_table (group m1 1) f1
             ++ before m2 ++ matched m2 ++ after m2)
     = Ok (before m1 ++ indent_table (group m1 1) f1
           ++ before m2 ++ indent_table (group m2 1) f2 ++ after m2).
Proof.
  intros H1 H2 Hf1 Hf2 Hnew.
  set (F1 := indent_table (group m1 1) f1) in *.
  set (F2 := indent_table (group m2 1) f2) in *.
  destruct (search_sound _ _ _ H1) as (E1 & Hm1 & Hnone1).
  destruct (search_sound _ _ _ H2) as (E2 & Hm2 & Hnone2).
  repeat split.
  - rewrite (findall_search _ _ _ H1) by (eapply search_matched_nonempty; eauto).
    rewrite (findall_search _ _ _ H2) by (eapply search_matched_nonempty; eauto).
    reflexivity.
  - now rewrite <- E2.
  - rewrite re_sub_literal by now apply indent_table_no_backslash.
    rewrite H1. now rewrite <- E2.
  - rewrite re_sub_literal by now apply indent_table_no_backslash.
    replace (before m1 ++ F1 ++ before m2 ++ matched m2 ++ after m2)
      with ((before m1 ++ F1 ++ before m2) ++ (matched m2 ++ after m2))
      by (flatten; reflexivity).
    assert (Hnone : forall i,
               i < length (before m1 ++ F1 ++ before m2) ->
               re_match (tag_pattern reader)
                 (skipn i ((before m1 ++ F1 ++ before m2)
                           ++ matched m2 ++ after m2)) = None).
    { intros i Hi.
      replace ((before m1 ++ F1 ++ before m2) ++ matched m2 ++ after m2)
        with ((before m1 ++ F1) ++ after m1)
        by (rewrite E2 at 1; flatten; reflexivity).
      destruct (Nat.lt_ge_cases i (length (before m1 ++ F1))) as [Hlt|Hge].
      - rewrite <- app_assoc. now apply Hnew.
      - rewrite skipn_app, skipn_all2 by exact Hge. cbn [app].
        apply Hnone2.
        rewrite app_assoc, (length_app _ (before m2)) in Hi. lia. }
    rewrite (search_found (tag_pattern reader) (before m1 ++ F1 ++ before m2)
               (matched m2 ++ after m2) (groups m2) (after m2) Hnone Hm2).
    cbn [before after]. flatten. reflexivity.
Qed.

Lemma C3_witness :
  findall (tag_pattern read_csv) doc_two_tags
  = groups first_match :: groups second_match
    :: findall (tag_pattern read_csv) (after second_match)
  /\ doc_two_tags
     = before first_match ++ matched first_match ++ before second_match
       ++ matched second_match ++ after second_match
  /\ re_sub (tag_pattern read_csv)
            (indent_table (group first_match 1) (txt "T1")) doc_two_tags
     = Ok (before first_match ++ indent_table (group first_match 1) (txt "T1")
           ++ before second_match ++ matched second_match ++ after second_match)
  /\ re_sub (tag_pattern read_csv)
            (indent_table (group second_match 1) (txt "T2"))
            (before first_match ++ indent_table (group first_match 1) (txt "T1")
             ++ before second_match ++ matched second_match
             ++ after second_match)
     = Ok (before first_match ++ indent_table (group first_match 1) (txt "T1")
           ++ before second_match
           ++ indent_table (group second_match 1) (txt "T2")
           ++ after second_match).
Proof.
  apply C3_substitution_in_discovery_order;
    try (vm_compute; reflexivity).
  intros i Hi. change (i < 4) in Hi.
  destruct i as [|[|[|[|i]]]]; try (vm_compute; reflexivity).
  exfalso. lia.
Defined.

(** The same document through [on_page_markdown], with a reader that
    renders the same tag differently the second time. *)
Example two_identical_tags_end_to_end :
  fst (run E_flat [(read_csv, counting_reader)] doc_two_tags (txt "/"))
  = Ok (txt "x
T1
y
T2
z").
Proof. vm_compute. reflexivity. Qed.

(** C3, as stated, fails.  The text holds exactly two occurrences, both the
    same text; neither fragment matches the tag pattern; yet the second
    substitution replaces the first fragment together with the line after
    it (they now form a tag), and the second occurrence stays. *)
Lemma C3_counterexample :
  let p := tag_pattern read_csv in
  let s := txt "{{ read_csv(a) }}
}}
{{ read_csv(a) }}" in
  let f1 := txt "{{ read_csv(zz)" in
  let f2 := txt "T2" in
  findall p s = [[ [] ; txt "a"]; [ [] ; txt "a"]]
  /\ search p f1 = None /\ search p f2 = None /\ f1 <> f2
  /\ re_sub p (indent_table [] f1) s
     = Ok (txt "{{ read_csv(zz)
}}
{{ read_csv(a) }}")
  /\ re_sub p (indent_table [] f2) (txt "{{ read_csv(zz)
}}
{{ read_csv(a) }}")
     = Ok (txt "T2
{{ read_csv(a) }}")
  /\ txt "T2
{{ read_csv(a) }}" <> txt "{{ read_csv(zz)
}}
T2".
Proof.
  cbv zeta. repeat split; try (vm_compute; reflexivity);
    vm_compute; discriminate.
Qed.

(** ** C6 *)

(** ** The working directory and the trace *)

Lemma bind_eq {A B} (c : M A) (k : A -> M B) st :
  bind c k st =
  match c st with
  | (Ok a, st') => k a st'
  | (Raise e, st') => (Raise e, st')
  end.
Proof. reflexivity. Qed.

Lemma rewrite_positional_world d a st r st' :
  rewrite_positional d a st = (r, st') ->
  cwd st' = cwd st /\ trace st' = trace st.
Proof.
  destruct a as [|v rest]; [intros [= <- <-]; now split|].
  destruct v; intros [= <- <-]; now split.
Qed.

Lemma rewrite_keyword_world d k st r st' :
  rewrite_keyword d k st = (r, st') ->
  cwd st' = cwd st /\ trace st' = trace st.
Proof.
  unfold rewrite_keyword.
  destruct (kw_get filepath_or_buffer k) as [v|];
    [|intros [= <- <-]; now split].
  destruct (truthy v); [|intros [= <- <-]; now split].
  destruct v; intros [= <- <-]; now split.
Qed.

Lemma check_exists_world E st r st' :
  check_exists E st = (r, st') ->
  cwd st' = cwd st /\
  exists t, trace st' = trace st ++ t /\ Forall (is_check (cwd st)) t.
Proof.
  unfold check_exists. rewrite bind_eq. unfold read_output_file_path.
  destruct (output_file_path st) as [o|]; cbn; intros [= <- <-]; cbn.
  - split; [reflexivity|].
    eexists. split; [reflexivity|]. now repeat constructor.
  - split; [reflexivity|]. exists []. now rewrite app_nil_r.
Qed.

Lemma Forall_is_check_inside d t : Forall (is_check d) t -> Forall (inside d) t.
Proof.
  apply Forall_impl. intros ev; destruct ev; simpl; tauto.
Qed.

Ltac no_events :=
  exists []; rewrite app_nil_r; split; [congruence|constructor].

Lemma search_loop_world E : forall dirs a k st r st',
  search_loop E dirs a k st = (r, st') ->
  cwd st' = cwd st /\
  exists t, trace st' = trace st ++ t /\ Forall (is_check (cwd st)) t.
Proof.
  induction dirs as [|d dirs IH]; intros a k st r st' H.
  - cbn [search_loop] in H. rewrite bind_eq in H.
    unfold read_input_file_path in H.
    destruct (input_file_path st); cbn in H; injection H as <- <-;
      (split; [reflexivity|no_events]).
  - cbn [search_loop] in H. rewrite bind_eq in H.
    destruct (rewrite_positional d a st) as [[a'|e] st1] eqn:E1;
      apply rewrite_positional_world in E1 as (Hc1 & Ht1).
    2:{ injection H as <- <-. split; [congruence|no_events]. }
    rewrite bind_eq in H.
    destruct (rewrite_keyword d k st1) as [[k'|e] st2] eqn:E2;
      apply rewrite_keyword_world in E2 as (Hc2 & Ht2).
    2:{ injection H as <- <-. split; [congruence|no_events]. }
    rewrite bind_eq in H.
    destruct (check_exists E st2) as [[found|e] st3] eqn:E3;
      apply check_exists_world in E3 as (Hc3 & t3 & Ht3 & Hall3).
    2:{ injection H as <- <-. split; [congruence|].
        exists t3. split; [congruence|].
        replace (cwd st) with (cwd st2) by congruence. exact Hall3. }
    destruct found.
    + injection H as <- <-. split; [congruence|].
      exists t3. split; [congruence|].
      replace (cwd st) with (cwd st2) by congruence. exact Hall3.
    + apply IH in H as (Hc4 & t4 & Ht4 & Hall4).
      split; [congruence|].
      exists (t3 ++ t4). split.
      * rewrite Ht4, Ht3, Ht2, Ht1. now rewrite app_assoc.
      * apply Forall_app. split.
        -- replace (cwd st) with (cwd st2) by congruence. exact Hall3.
        -- replace (cwd st) with (cwd st3) by congruence. exact Hall4.
Qed.

(** What one pass through the [with cd(mkdocs_dir)] block does to the
    process: the directory is back where it was, and the trace grew by a
    change to [mkdocs_dir], existence checks made there, at most one reader
    call made there, and the change back; a reader call that raised is the
    last thing that happened there, and its exception is the outcome. *)
Lemma load_table_world E function a k st r st' :
  load_table E function a k st = (r, st') ->
  cwd st' = cwd st /\
  exists t,
    trace st' = trace st ++ EvChdir (mkdocs_dir E) :: t ++ [EvChdir (cwd st)] /\
    Forall (inside (mkdocs_dir E)) t /\
    fatal (EvChdir (mkdocs_dir E) :: t ++ [EvChdir (cwd st)]) r.
Proof.
  unfold load_table, cd.
  set (st0 := snd (chdir (mkdocs_dir E) st)).
  change (chdir (mkdocs_dir E) st) with (Ok tt, st0).
  assert (Hc0 : cwd st0 = mkdocs_dir E) by reflexivity.
  assert (Ht0 : trace st0 = trace st ++ [EvChdir (mkdocs_dir E)]) by reflexivity.
  clearbody st0. cbv iota beta. rewrite bind_eq.
  destruct (search_loop E (search_directories E) a k st0) as [[ak|e] st1] eqn:E1;
    apply search_loop_world in E1 as (Hc1 & t1 & Ht1 & Hall1);
    rewrite Hc0 in Hall1.
  - unfold call.
    destruct (function (trace st1) (fst ak) (snd ak) (cwd st1)) as [r0 d] eqn:Hf.
    cbn. intros [= <- <-]. cbn. split; [reflexivity|].
    exists (t1 ++ [EvCall (cwd st1) (fst ak) (snd ak) r0]).
    rewrite Ht1, Ht0. split; [flatten; reflexivity|]. split.
    + apply Forall_app. split; [now apply Forall_is_check_inside|].
      repeat constructor. simpl. congruence.
    + intros c a0 k0 e Hin. destruct Hin as [Hin|Hin]; [discriminate|].
      rewrite <- app_assoc in Hin.
      apply in_app_or in Hin as [Hin|Hin].
      * rewrite Forall_forall in Hall1. apply Hall1 in Hin. contradiction.
      * destruct Hin as [Hin|[Hin|[]]]; [|discriminate].
        injection Hin as -> -> -> ->. split; [reflexivity|].
        exists (EvChdir (mkdocs_dir E) :: t1), (cwd st). flatten. reflexivity.
  - cbn. intros [= <- <-]. cbn. split; [reflexivity|].
    exists t1. rewrite Ht1, Ht0. split; [flatten; reflexivity|]. split.
    + now apply Forall_is_check_inside.
    + intros c a0 k0 e0 Hin. destruct Hin as [Hin|Hin]; [discriminate|].
      apply in_app_or in Hin as [Hin|Hin].
      * rewrite Forall_forall in Hall1. apply Hall1 in Hin. contradiction.
      * destruct Hin as [Hin|[]]. discriminate.
Qed.

(** ** One occurrence, then all of them *)

Lemma process_match_world E reader function (result : list str) md st r st' :
  process_match E reader function result md st = (r, st') ->
  cwd st' = cwd st /\
  ((trace st' = trace st /\ exists e, r = Raise e) \/
   exists t,
     trace st' = trace st ++ EvChdir (mkdocs_dir E) :: t ++ [EvChdir (cwd st)] /\
     Forall (inside (mkdocs_dir E)) t /\
     fatal (EvChdir (mkdocs_dir E) :: t ++ [EvChdir (cwd st)]) r).
Proof.
  unfold process_match. rewrite bind_eq. unfold lift at 1.
  destruct (parse_argkwarg E (nth 1 result [])) as [ak|e].
  2:{ intros [= <- <-]. split; [reflexivity|]. left. eauto. }
  rewrite bind_eq.
  destruct (load_table E function (fst ak) (snd ak) st) as [[table|e] st1] eqn:E1;
    apply load_table_world in E1 as (Hc1 & t & Ht & Hin & Hfatal).
  - unfold lift. intros [= <- <-]. split; [exact Hc1|]. right.
    exists t. split; [exact Ht|]. split; [exact Hin|].
    unfold fatal. intros c0 a0 k0 e0 Hev.
    destruct (Hfatal c0 a0 k0 e0 Hev) as [Habs _]. discriminate.
  - intros [= <- <-]. split; [exact Hc1|]. right.
    exists t. split; [exact Ht|]. split; [exact Hin|exact Hfatal].
Qed.

Lemma fatal_nil r : fatal [] r.
Proof. unfold fatal. intros ? ? ? ? []. Qed.

Lemma fatal_app t1 t2 x r :
  fatal t1 (Ok x) -> fatal t2 r -> fatal (t1 ++ t2) r.
Proof.
  unfold fatal. intros H1 H2 c a k e Hin. apply in_app_or in Hin as [Hin|Hin].
  - destruct (H1 c a k e Hin) as [Habs _]. discriminate.
  - destruct (H2 c a k e Hin) as (-> & t0 & d & ->).
    split; [reflexivity|]. exists (t1 ++ t0), d. now rewrite app_assoc.
Qed.

Lemma process_match_fatal E reader function (result : list str) md st r st' :
  process_match E reader function result md st = (r, st') ->
  cwd st' = cwd st /\
  exists t, trace st' = trace st ++ t /\ fatal t r.
Proof.
  intros H. apply process_match_world in H as (Hc & [(Ht & _)|(t & Ht & _ & Hf)]).
  - split; [exact Hc|]. exists []. rewrite app_nil_r. split; [exact Ht|].
    apply fatal_nil.
  - split; [exact Hc|]. eauto.
Qed.

Lemma for_matches_fatal E reader function : forall matches md st r st',
  for_matches E reader function matches md st = (r, st') ->
  cwd st' = cwd st /\
  exists t, trace st' = trace st ++ t /\ fatal t r.
Proof.
  induction matches as [|g gs IH]; intros md st r st' H.
  - injection H as <- <-. split; [reflexivity|].
    exists []. rewrite app_nil_r. split; [reflexivity|apply fatal_nil].
  - cbn [for_matches] in H. rewrite bind_eq in H.
    destruct (process_match E reader function g md st) as [[md1|e] st1] eqn:E1;
      apply process_match_fatal in E1 as (Hc1 & t1 & Ht1 & Hf1).
    + apply IH in H as (Hc2 & t2 & Ht2 & Hf2).
      split; [congruence|]. exists (t1 ++ t2). split.
      * rewrite Ht2, Ht1. now rewrite app_assoc.
      * eapply fatal_app; eauto.
    + injection H as <- <-. split; [exact Hc1|]. eauto.
Qed.

Lemma for_readers_fatal E : forall READERS md st r st',
  for_readers E READERS md st = (r, st') ->
  cwd st' = cwd st /\
  exists t, trace st' = trace st ++ t /\ fatal t r.
Proof.
  induction READERS as [|[reader function] rest IH]; intros md st r st' H.
  - injection H as <- <-. split; [reflexivity|].
    exists []. rewrite app_nil_r. split; [reflexivity|apply fatal_nil].
  - cbn [for_readers] in H. rewrite bind_eq in H. unfold process_reader in H.
    destruct (for_matches E reader function
                (findall (tag_pattern reader) md) md st) as [[md1|e] st1] eqn:E1;
      apply for_matches_fatal in E1 as (Hc1 & t1 & Ht1 & Hf1).
    + apply IH in H as (Hc2 & t2 & Ht2 & Hf2).
      split; [congruence|]. exists (t1 ++ t2). split.
      * rewrite Ht2, Ht1. now rewrite app_assoc.
      * eapply fatal_app; eauto.
    + injection H as <- <-. split; [exact Hc1|]. eauto.
Qed.

(** ** C7 *)

(** C7.  If, while a document is processed, a call of a reader raises [e],
    then [on_page_markdown] raises [e] itself: no text is returned, and the
    failed call is the last thing that happened, but for the restoration of
    the working directory (no second attempt, no further occurrence). *)
Theorem C7_reader_failure_is_fatal E READERS md d c a k e :
  In (EvCall c a k (Raise e)) (trace (snd (run E READERS md d))) ->
  fst (run E READERS md d) = Raise e /\
  exists t0 d',
    trace (snd (run E READERS md d))
    = t0 ++ [EvCall c a k (Raise e); EvChdir d'].
Proof.
  unfold run, on_page_markdown.
  destruct (for_readers E READERS md (initial d)) as [r st'] eqn:H.
  apply for_readers_fatal in H as (_ & t & Ht & Hf).
  cbn [fst snd]. rewrite Ht. cbn [initial trace app].
  intros Hin. exact (Hf c a k e Hin).
Qed.

Lemma C7_witness :
  fst (run E_flat [(read_csv, picky_reader (txt "./b.csv") (Failure (txt "boom")))]
           (txt "{{ read_csv(a.csv) }}
{{ read_csv(b.csv) }}
{{ read_csv(f.csv) }}") (txt "/"))
  = Raise (Failure (txt "boom")) /\
  exists t0 d',
    trace (snd (run E_flat
                    [(read_csv, picky_reader (txt "./b.csv") (Failure (txt "boom")))]
                    (txt "{{ read_csv(a.csv) }}
{{ read_csv(b.csv) }}
{{ read_csv(f.csv) }}") (txt "/")))
    = t0 ++ [EvCall site [VStr (txt "./b.csv")] [] (Raise (Failure (txt "boom")));
             EvChdir d'].
Proof.
  apply C7_reader_failure_is_fatal.
  vm_compute. do 6 right. left. reflexivity.
Defined.

(** ** C8 *)

(** C8.  Processing one occurrence leaves the process in the directory it
    was in, on every exit path.  When the parser raises, nothing else
    happens: the directory is never changed.  When the parser returns, the
    directory is changed to [mkdocs_dir], and whatever the outcome is (the
    occurrence substituted, the file not found, an unbound path local, the
    reader or the substitution raising) the trace has grown by exactly: the
    change to [mkdocs_dir], existence checks and reader calls that were all
    made in [mkdocs_dir], and the change back to the previous directory. *)
Theorem C8_working_directory_is_scoped
    E reader function (result : list str) md st :
  cwd (snd (process_match E reader function result md st)) = cwd st /\
  match parse_argkwarg E (nth 1 result []) with
  | Raise e => process_match E reader function result md st = (Raise e, st)
  | Ok _ =>
      exists t,
        trace (snd (process_match E reader function result md st))
        = trace st ++ EvChdir (mkdocs_dir E) :: t ++ [EvChdir (cwd st)] /\
        Forall (inside (mkdocs_dir E)) t
  end.
Proof.
  destruct (process_match E reader function result md st) as [r st'] eqn:H.
  cbn [snd]. revert H.
  unfold process_match. rewrite bind_eq. unfold lift at 1.
  destruct (parse_argkwarg E (nth 1 result [])) as [ak|e].
  2:{ intros [= <- <-]. split; reflexivity. }
  rewrite bind_eq.
  destruct (load_table E function (fst ak) (snd ak) st) as [[table|e] st1] eqn:E1;
    apply load_table_world in E1 as (Hc1 & t & Ht & Hin & _);
    intros [= <- <-];
    (split; [exact Hc1|exists t; split; [exact Ht|exact Hin]]).
Qed.

(** The two failures that the claim names, at concrete inputs: the file is
    in no search directory; the reader raises. *)
Example scoped_when_the_file_is_not_found :
  process_match E_empty read_csv (const_reader (txt "T"))
                [ [] ; txt "missing.csv"] (txt "{{ read_csv(missing.csv) }}")
                (initial (txt "/work"))
  = (Raise (FileNotFoundError (VStr (txt "./data/missing.csv")) two_dirs),
     mkState (txt "/work")
             [EvChdir site;
              EvExists site (txt "/site/./data/missing.csv") false;
              EvExists site (txt "/site/./page_dir/./data/missing.csv") false;
              EvChdir (txt "/work")]
             (Some (VStr (txt "./data/missing.csv")))
             (Some (txt "./page_dir/./data/missing.csv"))).
Proof. vm_compute. reflexivity. Qed.

Example scoped_when_the_reader_raises :
  process_match E_flat read_csv (picky_reader (txt "./b.csv") (Failure (txt "boom")))
                [ [] ; txt "b.csv"] (txt "{{ read_csv(b.csv) }}")
                (initial (txt "/work"))
  = (Raise (Failure (txt "boom")),
     mkState (txt "/work")
             [EvChdir site;
              EvExists site (txt "/site/./b.csv") true;
              EvCall site [VStr (txt "./b.csv")] [] (Raise (Failure (txt "boom")));
              EvChdir (txt "/work")]
             (Some (VStr (txt "b.csv")))
             (Some (txt "./b.csv"))).
Proof. vm_compute. reflexivity. Qed.

(** ** C10 *)

(** C10 (as amended).  Take an occurrence whose parsed arguments hold no
    positional value and no truthy [filepath_or_buffer], processed while
    neither path variable of [on_page_markdown] is bound yet (as for the
    first occurrence of a document).  Its processing raises
    [UnboundLocalError]: the directory is changed to [mkdocs_dir] and back,
    and in between no existence check completes and no reader is called. *)
Theorem C10_no_path_and_nothing_bound
    E reader function (result : list str) md st k :
  parse_argkwarg E (nth 1 result []) = Ok ([], k) ->
  match kw_get filepath_or_buffer k with
  | Some v => truthy v = false
  | None => True
  end ->
  input_file_path st = None ->
  output_file_path st = None ->
  is_unbound (fst (process_match E reader function result md st)) /\
  trace (snd (process_match E reader function result md st))
  = trace st ++ [EvChdir (mkdocs_dir E); EvChdir (cwd st)] /\
  cwd (snd (process_match E reader function result md st)) = cwd st.
Proof.
  intros Hparse Hkw Hin Hout.
  destruct (process_match E reader function result md st) as [r st'] eqn:H.
  cbn [fst snd]. unfold process_match in H. rewrite bind_eq in H.
  cbv [lift] in H. rewrite Hparse in H. rewrite bind_eq in H. cbn [fst snd] in H.
  assert (Hload : exists name,
             load_table E function [] k st
             = (Raise (UnboundLocalError name),
                mkState (cwd st)
                        (trace st ++ [EvChdir (mkdocs_dir E); EvChdir (cwd st)])
                        None None)).
  { unfold load_table, cd. cbn [chdir]. rewrite bind_eq.
    destruct (search_directories E) as [|d dirs].
    - exists "input_file_path"%string.
      cbn [search_loop]. rewrite bind_eq. unfold read_input_file_path.
      cbn. rewrite Hin, Hout. cbn. rewrite <- app_assoc. reflexivity.
    - exists "output_file_path"%string.
      cbn [search_loop]. rewrite bind_eq. cbn [rewrite_positional ret].
      rewrite bind_eq.
      assert (Hk : forall s, rewrite_keyword d k s = (Ok k, s)).
      { intros s. unfold rewrite_keyword.
        destruct (kw_get filepath_or_buffer k) as [v|]; [|reflexivity].
        now rewrite Hkw. }
      rewrite Hk. rewrite bind_eq. unfold check_exists. rewrite bind_eq.
      unfold read_output_file_path. cbn. rewrite Hin, Hout.
      cbn. rewrite <- app_assoc. reflexivity. }
  destruct Hload as (name & Hload). rewrite Hload in H.
  injection H as <- <-. cbn. auto.
Qed.

Lemma C10_witness :
  is_unbound (fst (process_match E_flat read_csv (const_reader (txt "T"))
                     [ [] ; txt "sep=1"] (txt "{{ read_csv(sep=1) }}")
                     (initial (txt "/")))) /\
  trace (snd (process_match E_flat read_csv (const_reader (txt "T"))
                [ [] ; txt "sep=1"] (txt "{{ read_csv(sep=1) }}")
                (initial (txt "/"))))
  = trace (initial (txt "/"))
    ++ [EvChdir (mkdocs_dir E_flat); EvChdir (cwd (initial (txt "/")))] /\
  cwd (snd (process_match E_flat read_csv (const_reader (txt "T"))
              [ [] ; txt "sep=1"] (txt "{{ read_csv(sep=1) }}")
              (initial (txt "/"))))
  = cwd (initial (txt "/")).
Proof.
  apply (C10_no_path_and_nothing_bound E_flat read_csv (const_reader (txt "T"))
           [ [] ; txt "sep=1"] (txt "{{ read_csv(sep=1) }}") (initial (txt "/"))
           [(txt "sep", VInt 1)]).
  - vm_compute. reflexivity.
  - vm_compute. exact I.
  - reflexivity.
  - reflexivity.
Defined.

(** C10, as stated, fails.  The second tag has no positional argument and
    no [filepath_or_buffer]; the path variable still holds the path found
    for the first tag, so the existence check succeeds, the reader is called
    (with no path) and an updated document is returned. *)
Lemma C10_counterexample :
  run E_flat csv_T (txt "{{ read_csv(a.csv) }}
{{ read_csv(sep=1) }}") (txt "/")
  = (Ok (txt "T
T"),
     mkState (txt "/")
       [EvChdir site;
        EvExists site (txt "/site/./a.csv") true;
        EvCall site [VStr (txt "./a.csv")] [] (Ok (txt "T"));
        EvChdir (txt "/");
        EvChdir site;
        EvExists site (txt "/site/./a.csv") true;
        EvCall site [] [(txt "sep", VInt 1)] (Ok (txt "T"));
        EvChdir (txt "/")]
       (Some (VStr (txt "a.csv"))) (Some (txt "./a.csv"))).
Proof. vm_compute. reflexivity. Qed.

(** ** C1 and C2: the search loop rewrites the argument it joins *)

Lemma rewrite_keyword_absent d k st :
  kw_get filepath_or_buffer k = None -> rewrite_keyword d k st = (Ok k, st).
Proof. intros H. unfold rewrite_keyword. now rewrite H. Qed.

Lemma check_exists_bound E st o :
  output_file_path st = Some o ->
  check_exists E st
  = (Ok (os_path_exists E (cwd st) (os_path_join (mkdocs_dir E) o)),
     mkState (cwd st)
       (trace st ++ [EvExists (cwd st) (os_path_join (mkdocs_dir E) o)
                       (os_path_exists E (cwd st) (os_path_join (mkdocs_dir E) o))])
       (input_file_path st) (output_file_path st)).
Proof.
  destruct st as [d t i o']. cbn. intros ->. reflexivity.
Qed.

(** What does hold: a file under the first directory is found there. *)
Lemma first_directory_hit E d dirs c rest k st :
  os_path_exists E (cwd st)
    (os_path_join (mkdocs_dir E) (os_path_join d c)) = true ->
  kw_get filepath_or_buffer k = None ->
  fst (search_loop E (d :: dirs) (VStr c :: rest) k st)
  = Ok (VStr (os_path_join d c) :: rest, k).
Proof.
  intros H1 Hk.
  cbn [search_loop]. rewrite bind_eq.
  change (rewrite_positional d (VStr c :: rest) st)
    with (Ok (VStr (os_path_join d c) :: rest),
          mkState (cwd st) (trace st) (Some (VStr c)) (Some (os_path_join d c))).
  cbv iota beta. rewrite bind_eq, rewrite_keyword_absent by exact Hk.
  rewrite bind_eq, (check_exists_bound E _ (os_path_join d c)) by reflexivity.
  cbn [cwd trace input_file_path output_file_path]. rewrite H1.
  reflexivity.
Qed.

(** What does hold: with one search directory, the error names the path as
    it was written in the tag. *)
Lemma single_directory_not_found E d c rest k st :
  search_directories E = [d] ->
  os_path_exists E (cwd st)
    (os_path_join (mkdocs_dir E) (os_path_join d c)) = false ->
  kw_get filepath_or_buffer k = None ->
  fst (search_loop E (search_directories E) (VStr c :: rest) k st)
  = Raise (FileNotFoundError (VStr c) [d]).
Proof.
  intros Hd H1 Hk. rewrite Hd.
  cbn [search_loop]. rewrite bind_eq.
  change (rewrite_positional d (VStr c :: rest) st)
    with (Ok (VStr (os_path_join d c) :: rest),
          mkState (cwd st) (trace st) (Some (VStr c)) (Some (os_path_join d c))).
  cbv iota beta. rewrite bind_eq, rewrite_keyword_absent by exact Hk.
  rewrite bind_eq, (check_exists_bound E _ (os_path_join d c)) by reflexivity.
  cbn [cwd trace input_file_path output_file_path]. rewrite H1.
  rewrite bind_eq. cbn. now rewrite Hd.
Qed.

(** On its second iteration the loop joins the second directory with the
    path already joined to the first one. *)
Lemma second_iteration_joins_the_joined_path E d1 d2 c rest k st :
  os_path_exists E (cwd st)
    (os_path_join (mkdocs_dir E) (os_path_join d1 c)) = false ->
  os_path_exists E (cwd st)
    (os_path_join (mkdocs_dir E) (os_path_join d2 (os_path_join d1 c))) = true ->
  kw_get filepath_or_buffer k = None ->
  fst (search_loop E [d1; d2] (VStr c :: rest) k st)
  = Ok (VStr (os_path_join d2 (os_path_join d1 c)) :: rest, k).
Proof.
  intros H1 H2 Hk.
  cbn [search_loop]. rewrite bind_eq.
  change (rewrite_positional d1 (VStr c :: rest) st)
    with (Ok (VStr (os_path_join d1 c) :: rest),
          mkState (cwd st) (trace st) (Some (VStr c)) (Some (os_path_join d1 c))).
  cbv iota beta. rewrite bind_eq, rewrite_keyword_absent by exact Hk.
  rewrite bind_eq, (check_exists_bound E _ (os_path_join d1 c)) by reflexivity.
  cbn [cwd trace input_file_path output_file_path]. rewrite H1.
  rewrite bind_eq.
  match goal with
  | |- context [rewrite_positional d2 ?a ?s] =>
      change (rewrite_positional d2 a s)
        with (Ok (VStr (os_path_join d2 (os_path_join d1 c)) :: rest),
              mkState (cwd s) (trace s) (Some (VStr (os_path_join d1 c)))
                      (Some (os_path_join d2 (os_path_join d1 c))))
  end.
  cbv iota beta. rewrite bind_eq, rewrite_keyword_absent by exact Hk.
  rewrite bind_eq,
    (check_exists_bound E _ (os_path_join d2 (os_path_join d1 c))) by reflexivity.
  cbn [cwd trace input_file_path output_file_path]. rewrite H2.
  reflexivity.
Qed.

(** C1, at the input of the claim.  The file is in [./page_dir] and not in
    [./data].  The first iteration looks for [./data/data.csv]; the second
    one for [./page_dir/./data/data.csv] and not for [./page_dir/data.csv];
    the search raises [FileNotFoundError] and the reader is never called. *)
Theorem C1_file_in_second_directory_is_not_found :
  os_path_exists E_page_only site
    (os_path_join site (os_path_join (txt "./data") (txt "data.csv"))) = false
  /\ os_path_exists E_page_only site
       (os_path_join site (os_path_join (txt "./page_dir") (txt "data.csv"))) = true
  /\ run E_page_only csv_T (txt "{{ read_csv(data.csv) }}") (txt "/")
     = (Raise (FileNotFoundError (VStr (txt "./data/data.csv")) two_dirs),
        mkState (txt "/")
          [EvChdir site;
           EvExists site (txt "/site/./data/data.csv") false;
           EvExists site (txt "/site/./page_dir/./data/data.csv") false;
           EvChdir (txt "/")]
          (Some (VStr (txt "./data/data.csv")))
          (Some (txt "./page_dir/./data/data.csv"))).
Proof. repeat split; vm_compute; reflexivity. Qed.

(** C2, at the input of the claim and at a second one.  With no file
    anywhere, the error names [./data/missing.csv], the path joined to the
    first directory, and not [missing.csv].  And with a file that is in
    neither search directory, [x.csv], the search still returns a path when
    [./page_dir/data/x.csv] exists, and the reader is called with it. *)
Theorem C2_error_names_the_joined_path :
  run E_empty csv_T (txt "    {{ read_csv(missing.csv) }}") (txt "/")
  = (Raise (FileNotFoundError (VStr (txt "./data/missing.csv")) two_dirs),
     mkState (txt "/")
       [EvChdir site;
        EvExists site (txt "/site/./data/missing.csv") false;
        EvExists site (txt "/site/./page_dir/./data/missing.csv") false;
        EvChdir (txt "/")]
       (Some (VStr (txt "./data/missing.csv")))
       (Some (txt "./page_dir/./data/missing.csv")))
  /\ os_path_exists E_nested site
       (os_path_join site (os_path_join (txt "./data") (txt "x.csv"))) = false
  /\ os_path_exists E_nested site
       (os_path_join site (os_path_join (txt "./page_dir") (txt "x.csv"))) = false
  /\ run E_nested csv_T (txt "{{ read_csv(x.csv) }}") (txt "/")
     = (Ok (txt "T"),
        mkState (txt "/")
          [EvChdir site;
           EvExists site (txt "/site/./data/x.csv") false;
           EvExists site (txt "/site/./page_dir/./data/x.csv") true;
           EvCall site [VStr (txt "./page_dir/./data/x.csv")] [] (Ok (txt "T"));
           EvChdir (txt "/")]
          (Some (VStr (txt "./data/x.csv")))
          (Some (txt "./page_dir/./data/x.csv"))).
Proof. repeat split; vm_compute; reflexivity. Qed.

(** ** C6 *)

(** C6, at three fragments that hold a backslash.  The fragment is compiled
    as a replacement template: [\t] becomes a tab, [\1] becomes the blanks
    captured before the tag, and [\d] is refused. *)
Theorem C6_fragment_is_read_as_a_template :
  fst (run E_flat [(read_csv, const_reader (txt "| C:\temp |"))]
           (txt "{{ read_csv(a.csv) }}") (txt "/"))
  = Ok (txt "| C:" ++ tab :: txt "emp |")
  /\ fst (run E_flat [(read_csv, const_reader (txt "x\1y"))]
              (txt "  {{ read_csv(a.csv) }}") (txt "/"))
     = Ok (txt "x  y")
  /\ fst (run E_flat [(read_csv, const_reader (txt "| C:\data |"))]
              (txt "{{ read_csv(a.csv) }}") (txt "/"))
     = Raise (ReError "bad escape").
Proof. repeat split; vm_compute; reflexivity. Qed.

(** ** Texts cut in two ways *)

Lemma first_in_app stop A B :
  (forall c, In c A -> stop c = false) ->
  first_in stop (A ++ B) = first_in stop B.
Proof.
  induction A as [|a A IH]; intros H; cbn [app first_in]; [reflexivity|].
  rewrite (H a) by now left.
  apply IH. intros c Hc. apply H. now right.
Qed.

Lemma first_in_class stop cls A B :
  (forall c, cls c = true -> stop c = false) ->
  forallb cls A = true ->
  first_in stop (A ++ B) = first_in stop B.
Proof.
  intros Hcls HA. apply first_in_app. intros c Hc. apply Hcls.
  rewrite forallb_forall in HA. now apply HA.
Qed.

(** After characters that, when they are in the class, are [x], the first
    character of the class is [x]. *)
Lemma first_in_after stop cls x A B :
  (forall c, cls c = true -> stop c = true -> c = x) ->
  stop x = true ->
  forallb cls A = true ->
  first_in stop (A ++ x :: B) = Some x.
Proof.
  intros Hcls Hx. induction A as [|a A IH]; intros HA; cbn [app first_in].
  - now rewrite Hx.
  - cbn [forallb] in HA. apply andb_true_iff in HA as [Ha HA].
    destruct (stop a) eqn:Hs; [|now apply IH].
    now rewrite (Hcls a Ha Hs).
Qed.

Lemma forallb_app_l {A} (f : A -> bool) x y :
  forallb f (x ++ y) = true -> forallb f x = true.
Proof. rewrite forallb_app. intros H. now apply andb_true_iff in H as [H _]. Qed.

Lemma forallb_app_r {A} (f : A -> bool) x y :
  forallb f (x ++ y) = true -> forallb f y = true.
Proof. rewrite forallb_app. intros H. now apply andb_true_iff in H as [_ H]. Qed.

(** A character [c] of a text that is cut after a run [W] lies in [W] or
    after it. *)
Lemma split_run (c : ascii) W Y x Z :
  W ++ Y = x ++ c :: Z ->
  (exists wb, W = x ++ c :: wb /\ Z = wb ++ Y) \/
  (exists x2, x = W ++ x2 /\ Y = x2 ++ c :: Z).
Proof.
  intros H. apply app_eq_app in H as [l [[-> H]|[-> H]]].
  - destruct l as [|d l]; cbn [app] in H.
    + right. exists []. rewrite !app_nil_r. split; [reflexivity|now symmetry].
    + injection H as <- ->. left. now exists l.
  - right. now exists l.
Qed.

Lemma split_at_first (c : ascii) : forall A X A' X',
  ~ In c A -> ~ In c A' ->
  A ++ c :: X = A' ++ c :: X' -> A = A' /\ X = X'.
Proof.
  induction A as [|a A IH]; intros X [|a' A'] X' HA HA' H; cbn [app] in H.
  - injection H as ->. now split.
  - injection H as <- _. exfalso. apply HA'. now left.
  - injection H as -> _. exfalso. apply HA. now left.
  - injection H as <- H.
    destruct (IH X A' X') as [-> ->]; auto.
    + intros Hc. apply HA. now right.
    + intros Hc. apply HA'. now right.
Qed.

Lemma run_unique (cls : ascii -> bool) : forall W c X W' c' X',
  forallb cls W = true -> forallb cls W' = true ->
  cls c = false -> cls c' = false ->
  W ++ c :: X = W' ++ c' :: X' -> W = W' /\ c :: X = c' :: X'.
Proof.
  induction W as [|a W IH]; intros c X [|a' W'] c' X' HW HW' Hc Hc' H;
    cbn [app] in H.
  - now split.
  - injection H as -> _. cbn [forallb] in HW'.
    apply andb_true_iff in HW' as [Ha _]. congruence.
  - injection H as <- _. cbn [forallb] in HW.
    apply andb_true_iff in HW as [Ha _]. congruence.
  - injection H as <- H. cbn [forallb] in HW, HW'.
    apply andb_true_iff in HW as [_ HW].
    apply andb_true_iff in HW' as [_ HW'].
    destruct (IH c X W' c' X') as [-> E]; auto.
Qed.

Lemma not_in_class (cls : ascii -> bool) (c : ascii) A :
  forallb cls A = true -> cls c = false -> ~ In c A.
Proof.
  intros HA Hc Hin. rewrite forallb_forall in HA.
  apply HA in Hin. congruence.
Qed.

(** ** Characters *)

Ltac char_cases c :=
  destruct c as [[] [] [] [] [] [] [] []]; vm_compute; congruence.

Lemma chr_is_eq n c : chr_is n c = true -> c = ascii_of_nat n.
Proof.
  unfold chr_is, code. intros H. apply Nat.eqb_eq in H.
  rewrite <- H. symmetry. apply ascii_nat_embedding.
Qed.

Lemma is_ident_char_lower c : is_ident_char (lower c) = is_ident_char c.
Proof. destruct c as [[] [] [] [] [] [] [] []]; reflexivity. Qed.

Lemma ident_not_space c : is_ident_char c = true -> isspace c = false.
Proof. char_cases c. Qed.

Lemma ident_is_dot c : is_ident_char c = true -> is_dot c = true.
Proof. char_cases c. Qed.

Lemma ident_not_special c :
  is_ident_char c = true -> one_of (txt "(){}") c = false.
Proof. char_cases c. Qed.

Lemma space_not_special c :
  isspace c = true -> one_of (txt "(){}") c = false.
Proof. char_cases c. Qed.

Lemma blank_not_special c :
  is_blank c = true -> one_of (newline :: txt "(){}") c = false.
Proof. char_cases c. Qed.

Lemma plain_not_special c :
  is_plain c = true -> one_of (newline :: txt "(){}") c = false.
Proof. char_cases c. Qed.

(** The characters that [IGNORECASE] lets stand for an identifier are
    those of an identifier. *)
Lemma eq_ci_ident : forall n reader,
  forallb is_ident_char reader = true -> eq_ci n reader = true ->
  forallb is_ident_char n = true.
Proof.
  induction n as [|x n IH]; intros [|r reader] Hid Hn; simpl in Hn;
    try discriminate; [reflexivity|].
  cbn [forallb] in Hid |- *.
  apply andb_true_iff in Hid as [Hr Hid].
  apply andb_true_iff in Hn as [Hx Hn].
  apply Ascii.eqb_eq in Hx.
  rewrite (IH reader Hid Hn), andb_true_r.
  now rewrite <- is_ident_char_lower, Hx, is_ident_char_lower.
Qed.

Lemma identifier_chars s :
  is_identifier s = true -> s <> [] /\ forallb is_ident_char s = true.
Proof. destruct s; [discriminate|]. intros H. split; [discriminate|exact H]. Qed.

Lemma name_chars n reader :
  is_identifier reader = true -> eq_ci n reader = true ->
  forallb is_ident_char n = true.
Proof.
  intros Hid. apply eq_ci_ident. now apply identifier_chars.
Qed.

(** ** Lines *)

Lemma ends_line_app u l : l <> [] -> ends_line (u ++ l) = ends_line l.
Proof.
  intros Hl. unfold ends_line. rewrite rev_app_distr.
  destruct (rev l) as [|c r] eqn:E; [|reflexivity].
  apply (f_equal (@rev ascii)) in E. rewrite rev_involutive in E.
  now subst l.
Qed.

Lemma ends_line_last l :
  ends_line l = true -> l <> [] -> exists s, l = s ++ [newline].
Proof.
  unfold ends_line. intros H Hl.
  destruct (rev l) as [|c r] eqn:E.
  - apply (f_equal (@rev ascii)) in E. rewrite rev_involutive in E.
    now subst l.
  - cbn [at_line_end] in H. apply chr_is_eq in H. subst c.
    apply (f_equal (@rev ascii)) in E. rewrite rev_involutive in E.
    exists (rev r). now subst l.
Qed.

Lemma at_line_end_app b x : b <> [] -> at_line_end (b ++ x) = at_line_end b.
Proof. destruct b; [congruence|reflexivity]. Qed.

Lemma at_line_end_inv s :
  at_line_end s = true -> s = [] \/ exists s', s = newline :: s'.
Proof.
  destruct s as [|c s]; [now left|]. cbn [at_line_end]. intros H.
  apply chr_is_eq in H. subst c. right. now exists s.
Qed.

(** ** No match begins at a line feed or at the end of the text *)

Lemma re_match_at_line_end reader s :
  at_line_end s = true -> re_match (tag_pattern reader) s = None.
Proof.
  intros Hend.
  destruct (re_match (tag_pattern reader) s) as [[g rest]|] eqn:Hm;
    [exfalso|reflexivity].
  apply re_match_tag_shape in Hm
    as (sp & w1 & n & a & w2 & _ & Hs & Hsp & _).
  unfold tag_text, txt in Hs. cbn [list_ascii_of_string] in Hs.
  destruct sp as [|c sp]; cbn [app] in Hs; subst s.
  - discriminate Hend.
  - cbn [at_line_end forallb] in Hend, Hsp.
    apply andb_true_iff in Hsp as [Hc _].
    apply chr_is_eq in Hend. subst c. discriminate Hc.
Qed.

Lemma first_in_not stop cls (x : ascii) A B :
  cls x = false -> forallb cls A = true ->
  first_in stop B <> Some x ->
  first_in stop (A ++ B) <> Some x.
Proof.
  intros Hx. induction A as [|a A IH]; intros HA HB; cbn [app first_in];
    [exact HB|].
  cbn [forallb] in HA. apply andb_true_iff in HA as [Ha HA].
  destruct (stop a); [|now apply IH].
  intros [= ->]. congruence.
Qed.

Lemma first_in_line_end stop (x : ascii) s :
  at_line_end s = true -> stop newline = true -> x <> newline ->
  first_in stop s <> Some x.
Proof.
  intros Hend Hs Hx. apply at_line_end_inv in Hend as [->|[s' ->]];
    cbn [first_in]; [discriminate|].
  rewrite Hs. congruence.
Qed.

Ltac flatten_in H :=
  repeat (progress (cbn [app] in H; rewrite <- ?app_assoc in H)).

(** [H] equates a text that begins with a known character and a text cut
    at [x]: the cut is not before that character. *)
Ltac peel H x :=
  destruct x as [|? x]; cbn [app] in H;
  [exfalso; injection H as H _; vm_compute in H; discriminate H
  |injection H as <- H].

(** ** No match enters a line from the line before *)

(** A match that begins before a line feed which is followed by plain
    text and an opening brace ends before that line feed. *)
Lemma match_stops_before_line reader s lead X g rest :
  is_identifier reader = true ->
  forallb is_plain lead = true ->
  re_match (tag_pattern reader) (s ++ newline :: lead ++ "{"%char :: X)
  = Some (g, rest) ->
  exists aft, rest = aft ++ newline :: lead ++ "{"%char :: X.
Proof.
  intros Hid Hlead Hm.
  apply re_match_tag_shape in Hm
    as (sp & w1 & n & a & w2 & _ & Hs & Hsp & _ & Hw1 & Hn & _ & Ha & _ & Hw2).
  pose proof (name_chars _ _ Hid Hn) as Hnc.
  assert (HZ : first_in (one_of (txt "(){}")) (lead ++ "{"%char :: X)
               = Some "{"%char).
  { apply (first_in_after _ is_plain); auto.
    intros c Hp Hc. exfalso. revert Hp Hc. char_cases c. }
  set (Z := lead ++ "{"%char :: X) in *. clearbody Z.
  unfold tag_text, txt in Hs. cbn [list_ascii_of_string] in Hs.
  flatten_in Hs. symmetry in Hs.
  apply split_run in Hs as [(wb & E & _)|(x & -> & Hs)].
  { exfalso. rewrite E in Hsp. apply forallb_app_r in Hsp. discriminate Hsp. }
  peel Hs x. peel Hs x.
  apply split_run in Hs as [(wb & E & HZ')|(y & -> & Hs)].
  { exfalso. rewrite E in Hw1. apply forallb_app_r in Hw1.
    cbn [forallb] in Hw1. apply andb_true_iff in Hw1 as [_ Hw1].
    rewrite HZ' in HZ.
    rewrite (first_in_class _ isspace) in HZ by (auto using space_not_special).
    rewrite (first_in_after _ is_ident_char) in HZ; auto; [discriminate HZ|].
    intros c Hc Hstop. apply ident_not_special in Hc. congruence. }
  apply split_run in Hs as [(wb & E & _)|(z & -> & Hs)].
  { exfalso. rewrite E in Hnc. apply forallb_app_r in Hnc. discriminate Hnc. }
  peel Hs z.
  apply split_run in Hs as [(wb & E & _)|(u & -> & Hs)].
  { exfalso. rewrite E in Ha. apply forallb_app_r in Ha. discriminate Ha. }
  peel Hs u.
  apply split_run in Hs as [(wb & E & HZ')|(v & -> & Hs)].
  { exfalso. rewrite E in Hw2. apply forallb_app_r in Hw2.
    cbn [forallb] in Hw2. apply andb_true_iff in Hw2 as [_ Hw2].
    rewrite HZ' in HZ.
    rewrite (first_in_class _ isspace) in HZ by (auto using space_not_special).
    discriminate HZ. }
  peel Hs v. peel Hs v.
  now exists v.
Qed.

(** ** No match begins on the line of a malformed tag *)

Lemma forallb_impl (P Q : ascii -> bool) (l : str) :
  (forall c, P c = true -> Q c = true) ->
  forallb P l = true -> forallb Q l = true.
Proof.
  intros H Hl. apply forallb_forall. intros c Hc. apply H.
  rewrite forallb_forall in Hl. now apply Hl.
Qed.

Lemma not_special_not_open c :
  one_of (txt "(){}") c = false -> negb (Ascii.eqb c "{") = true.
Proof. char_cases c. Qed.

Lemma not_special_not_paren c :
  one_of (txt "(){}") c = false -> negb (Ascii.eqb c "(") = true.
Proof. char_cases c. Qed.

Lemma plain_not_open c : is_plain c = true -> negb (Ascii.eqb c "{") = true.
Proof. char_cases c. Qed.

Lemma plain_not_close c : is_plain c = true -> negb (Ascii.eqb c ")") = true.
Proof. char_cases c. Qed.

Lemma space_not_close c : isspace c = true -> negb (Ascii.eqb c ")") = true.
Proof. char_cases c. Qed.

Lemma not_brace_not_open c :
  not_brace c = true -> negb (Ascii.eqb c "{") = true.
Proof. char_cases c. Qed.

Lemma blank_is_space c : is_blank c = true -> isspace c = true.
Proof. char_cases c. Qed.

Section MalformedTag.

Variables (reader lead w1 n a w2 trail post : str).
Hypothesis Hid : is_identifier reader = true.
Hypothesis Hlead : forallb is_plain lead = true.
Hypothesis Htrail : forallb is_plain trail = true.
Hypothesis Hn : is_identifier n = true.
Hypothesis Hw1 : forallb isspace w1 = true.
Hypothesis Hw2 : forallb isspace w2 = true.
Hypothesis Ha : forallb not_brace a = true.
Hypothesis Hbad : a = [] \/ w1 = [] \/ w2 = [].
Hypothesis Hpost : at_line_end post = true.


Lemma line_of_tag :
  tag_text lead w1 n a w2 ++ trail = lead ++ "{"%char :: "{"%char :: after_braces w1 n a w2 trail.
Proof.
  unfold after_braces, tag_text, txt. cbn [list_ascii_of_string]. flatten.
  reflexivity.
Qed.

Lemma inner_has_no_opening_brace :
  forallb (fun c => negb (Ascii.eqb c "{")) (after_braces w1 n a w2 trail) = true.
Proof.
  destruct (identifier_chars _ Hn) as [_ Hnc].
  unfold after_braces.
  repeat first [apply forallb_app_true
               |cbn [forallb]; apply andb_true_intro; split; [reflexivity|]].
  - apply (forallb_impl isspace); [|exact Hw1].
    intros c Hc. apply not_special_not_open. now apply space_not_special.
  - apply (forallb_impl is_ident_char); [|exact Hnc].
    intros c Hc. apply not_special_not_open. now apply ident_not_special.
  - apply (forallb_impl not_brace); [|exact Ha]. apply not_brace_not_open.
  - apply (forallb_impl isspace); [|exact Hw2].
    intros c Hc. apply not_special_not_open. now apply space_not_special.
  - apply (forallb_impl is_plain); [|exact Htrail]. apply plain_not_open.
Qed.

(** At the opening braces (and at the plain text before them): the match
    would have to be the tag itself, which is malformed. *)
Lemma no_match_at_the_tag l :
  forallb is_plain l = true ->
  re_match (tag_pattern reader) (l ++ "{"%char :: "{"%char :: after_braces w1 n a w2 trail ++ post)
  = None.
Proof.
  intros Hl.
  destruct (re_match (tag_pattern reader) _) as [[g rest]|] eqn:Hm;
    [exfalso|reflexivity].
  apply re_match_tag_shape in Hm
    as (sp' & w1' & n' & a' & w2' & _ & Hs & Hsp' & Hw1n' & Hw1' & Hn'
        & Han' & Ha' & Hw2n' & Hw2').
  pose proof (name_chars _ _ Hid Hn') as Hnc'.
  destruct (identifier_chars _ Hn) as [Hnn Hnc].
  unfold after_braces, tag_text, txt in Hs. cbn [list_ascii_of_string] in Hs.
  flatten_in Hs.
  (* the opening braces *)
  apply split_at_first in Hs as [-> Hs].
  2:{ apply (not_in_class is_plain); [exact Hl|reflexivity]. }
  2:{ apply (not_in_class is_blank); [exact Hsp'|reflexivity]. }
  injection Hs as Hs.
  (* the whitespace after them *)
  destruct n as [|c n0]; [congruence|].
  destruct n' as [|c' n0']; [destruct reader; discriminate|].
  cbn [forallb] in Hnc, Hnc'.
  apply andb_true_iff in Hnc as [Hc Hnc0].
  apply andb_true_iff in Hnc' as [Hc' Hnc0'].
  cbn [app] in Hs.
  apply (run_unique isspace) in Hs as [<- Hs];
    auto using ident_not_space.
  (* the name and the opening parenthesis *)
  change (c :: n0 ++ "("%char :: a ++ ")"%char :: w2 ++ "}"%char :: "}"%char
            :: trail ++ post)
    with ((c :: n0) ++ "("%char :: a ++ ")"%char :: w2 ++ "}"%char
            :: "}"%char :: trail ++ post) in Hs.
  change (c' :: n0' ++ "("%char :: a' ++ ")"%char :: w2' ++ "}"%char
            :: "}"%char :: rest)
    with ((c' :: n0') ++ "("%char :: a' ++ ")"%char :: w2' ++ "}"%char
            :: "}"%char :: rest) in Hs.
  apply split_at_first in Hs as [_ Hs].
  2:{ apply (not_in_class (fun x => negb (Ascii.eqb x "("))); [|reflexivity].
      cbn [forallb]. rewrite (forallb_impl is_ident_char _ n0); auto.
      - rewrite andb_true_r. apply not_special_not_paren.
        now apply ident_not_special.
      - intros x Hx. apply not_special_not_paren. now apply ident_not_special. }
  2:{ apply (not_in_class (fun x => negb (Ascii.eqb x "("))); [|reflexivity].
      cbn [forallb]. rewrite (forallb_impl is_ident_char _ n0'); auto.
      - rewrite andb_true_r. apply not_special_not_paren.
        now apply ident_not_special.
      - intros x Hx. apply not_special_not_paren. now apply ident_not_special. }
  (* the closing *)
  assert (Hsame : a = a' ->
            w2 ++ "}"%char :: "}"%char :: trail ++ post
            = w2' ++ "}"%char :: "}"%char :: rest -> False).
  { intros Ea Ew. apply (run_unique isspace) in Ew as [Ew _]; auto.
    destruct Hbad as [E | [E | E]]; congruence. }
  apply app_eq_app in Hs as [z [[Ea Hs]|[Ea Hs]]].
  - destruct z as [|d z]; cbn [app] in Hs.
    + injection Hs as Hs. rewrite app_nil_r in Ea. now apply Hsame.
    + (* the closing parenthesis lies in the argument text of the tag *)
      injection Hs as <- Hs.
      rewrite Ea in Ha. apply forallb_app_r in Ha.
      cbn [forallb] in Ha. apply andb_true_iff in Ha as [_ Hz].
      apply (f_equal (first_in (one_of (txt ")}")))) in Hs.
      rewrite (first_in_class _ isspace w2') in Hs; auto.
      2:{ intros x Hx. revert Hx. char_cases x. }
      rewrite (first_in_after _ not_brace ")"%char z) in Hs; auto;
        [discriminate Hs|].
      intros x Hx Hstop. revert Hx Hstop. char_cases x.
  - destruct z as [|d z]; cbn [app] in Hs.
    + injection Hs as Hs. rewrite app_nil_r in Ea. now apply Hsame.
    + (* the closing parenthesis comes after the tag's own *)
      injection Hs as <- Hs.
      rewrite Ea in Ha'. apply forallb_app_r in Ha'.
      cbn [forallb] in Ha'. apply andb_true_iff in Ha' as [_ Hz].
      apply (f_equal (first_in (one_of (newline :: txt ")")))) in Hs.
      rewrite (first_in_after _ is_dot ")"%char z) in Hs; auto.
      2:{ intros x Hx Hstop. revert Hx Hstop. char_cases x. }
      revert Hs.
      apply (first_in_not _ (fun x => negb (Ascii.eqb x ")")));
        [reflexivity|now apply (forallb_impl isspace); auto using space_not_close|].
      cbn [first_in].
      replace (one_of (newline :: txt ")") "}") with false by reflexivity.
      apply (first_in_not _ (fun x => negb (Ascii.eqb x ")")));
        [reflexivity|now apply (forallb_impl is_plain); auto using plain_not_close|].
      apply first_in_line_end; [exact Hpost|reflexivity|discriminate].
Qed.

(** Inside the tag and after it on its line there are no opening braces. *)
Lemma no_match_after_the_braces l' l2 :
  after_braces w1 n a w2 trail = l' ++ l2 ->
  re_match (tag_pattern reader) (l2 ++ post) = None.
Proof.
  intros E.
  destruct (re_match (tag_pattern reader) _) as [[g rest]|] eqn:Hm;
    [exfalso|reflexivity].
  apply re_match_tag_shape in Hm
    as (sp' & w1' & n' & a' & w2' & _ & Hs & Hsp' & _).
  pose proof inner_has_no_opening_brace as Hin.
  rewrite E in Hin. apply forallb_app_r in Hin.
  unfold tag_text, txt in Hs. cbn [list_ascii_of_string] in Hs.
  flatten_in Hs.
  apply (f_equal (first_in (fun x => negb (is_blank x)))) in Hs.
  rewrite (first_in_class _ is_blank sp') in Hs; auto.
  2:{ intros x Hx. now rewrite Hx. }
  cbn [first_in] in Hs. revert Hs.
  apply (first_in_not _ (fun x => negb (Ascii.eqb x "{")));
    [reflexivity|exact Hin|].
  apply first_in_line_end; [exact Hpost|reflexivity|discriminate].
Qed.

Lemma no_match_at_the_second_brace :
  re_match (tag_pattern reader) ("{"%char :: after_braces w1 n a w2 trail ++ post) = None.
Proof.
  destruct (re_match (tag_pattern reader) _) as [[g rest]|] eqn:Hm;
    [exfalso|reflexivity].
  apply re_match_tag_shape in Hm
    as (sp' & w1' & n' & a' & w2' & _ & Hs & Hsp' & _).
  destruct (identifier_chars _ Hn) as [_ Hnc].
  unfold after_braces, tag_text, txt in Hs. cbn [list_ascii_of_string] in Hs.
  flatten_in Hs.
  destruct sp' as [|b sp']; cbn [app] in Hs.
  - injection Hs as Hs.
    apply (f_equal (first_in (one_of (txt "(){}")))) in Hs.
    rewrite (first_in_class _ isspace) in Hs; auto using space_not_special.
    rewrite (first_in_after _ is_ident_char) in Hs; auto; [discriminate Hs|].
    intros x Hx Hstop. apply ident_not_special in Hx. congruence.
  - injection Hs as <- _. discriminate Hsp'.
Qed.

(** No match of the reader's pattern begins on the line. *)
Lemma no_match_on_the_line l1 l2 :
  tag_text lead w1 n a w2 ++ trail = l1 ++ l2 -> l2 <> [] ->
  re_match (tag_pattern reader) (l2 ++ post) = None.
Proof.
  rewrite line_of_tag. intros E Hl2.
  apply app_eq_app in E as [l [[E1 E2]|[E1 E2]]].
  - (* in the plain text before the braces *)
    rewrite E2. flatten. apply no_match_at_the_tag.
    rewrite E1 in Hlead. now apply forallb_app_r in Hlead.
  - destruct l as [|c l]; cbn [app] in E2.
    + rewrite <- E2. flatten. now apply (no_match_at_the_tag []).
    + injection E2 as <- E2. destruct l as [|c l]; cbn [app] in E2.
      * rewrite <- E2. flatten. apply no_match_at_the_second_brace.
      * injection E2 as <- E2. now apply (no_match_after_the_braces l).
Qed.

End MalformedTag.

(** ** Every match lies before the line of a malformed tag or after it *)

Lemma match_avoids_the_line
    reader pre lead w1 n a w2 trail post u v g rest :
  is_identifier reader = true ->
  ends_line pre = true -> at_line_end post = true ->
  forallb is_plain lead = true -> forallb is_plain trail = true ->
  is_identifier n = true ->
  forallb isspace w1 = true -> forallb isspace w2 = true ->
  forallb not_brace a = true ->
  a = [] \/ w1 = [] \/ w2 = [] ->
  pre ++ (tag_text lead w1 n a w2 ++ trail) ++ post = u ++ v ->
  re_match (tag_pattern reader) v = Some (g, rest) ->
  (exists m aft, v = m ++ rest /\ pre = u ++ m ++ aft /\ aft <> []) \/
  (exists b, u = pre ++ (tag_text lead w1 n a w2 ++ trail) ++ b /\ b <> []).
Proof.
  intros Hid Hpre Hpost Hlead Htrail Hn Hw1 Hw2 Ha Hbad E Hm.
  pose proof (no_match_on_the_line reader lead w1 n a w2 trail post
                Hid Hlead Htrail Hn Hw1 Hw2 Ha Hbad Hpost) as Hline.
  assert (Hne : tag_text lead w1 n a w2 ++ trail <> []).
  { pose proof (tag_text_nonempty lead w1 n a w2) as H.
    destruct (tag_text lead w1 n a w2); [congruence|discriminate]. }
  set (L := tag_text lead w1 n a w2 ++ trail) in *.
  apply app_eq_app in E as [l [[E1 E2]|[E1 E2]]].
  - (* the match begins in [pre] *)
    destruct l as [|c l0] eqn:El.
    { exfalso. cbn [app] in E2. subst v.
      rewrite (Hline [] L) in Hm; [discriminate|reflexivity|exact Hne]. }
    rewrite <- El in *. assert (Hl : l <> []) by (subst l; discriminate).
    clear El. left.
    rewrite E1, ends_line_app in Hpre by exact Hl.
    destruct (ends_line_last _ Hpre Hl) as [s Es].
    destruct (re_match_consumes _ _ _ _ Hm) as [m Ev].
    assert (Hrest : exists aft, rest = (aft ++ [newline]) ++ L ++ post).
    { subst v l. unfold L in Hm. rewrite line_of_tag in Hm.
      rewrite <- !app_assoc in Hm. cbn [app] in Hm.
      apply match_stops_before_line in Hm as [aft Hm]; auto.
      exists aft. unfold L. rewrite line_of_tag, Hm.
      now rewrite <- !app_assoc. }
    destruct Hrest as [aft Hrest].
    exists m, (aft ++ [newline]). split; [exact Ev|]. split.
    + rewrite E1. f_equal.
      apply (app_inv_tail (L ++ post)).
      rewrite <- E2, Ev, Hrest. now rewrite <- !app_assoc.
    + destruct aft; discriminate.
  - (* the match begins on the line or after it *)
    apply app_eq_app in E2 as [k [[E2 E3]|[E2 E3]]].
    + exfalso. destruct k as [|c k0] eqn:Ek.
      * cbn [app] in E3. subst v.
        now rewrite re_match_at_line_end in Hm.
      * rewrite <- Ek in *. subst v.
        rewrite (Hline l k) in Hm; [discriminate|exact E2|subst k; discriminate].
    + destruct k as [|c k0] eqn:Ek.
      * exfalso. cbn [app] in E3. subst v.
        now rewrite re_match_at_line_end in Hm.
      * rewrite <- Ek in *. right. exists k. split.
        -- rewrite E1, E2. reflexivity.
        -- subst k. discriminate.
Qed.

(** ** Substitution keeps the line *)

Lemma re_sub_cases p repl s s' :
  re_sub p repl s = Ok s' ->
  (search p s = None /\ s' = s) \/
  (exists m x, search p s = Some m /\ s' = before m ++ x ++ after m).
Proof.
  unfold re_sub.
  destruct (negb (existsb (Ascii.eqb backslash) repl)).
  - destruct (search p s) as [m|] eqn:Hs; intros [= <-]; eauto.
  - destruct (parse_template (count_groups p) None repl) as [ps|e];
      [|discriminate].
    destruct (search p s) as [m|] eqn:Hs; intros [= <-]; eauto.
Qed.

Lemma matched_is_a_complete_tag reader m rest g :
  re_match (tag_pattern reader) (m ++ rest) = Some (g, rest) ->
  complete_tag reader m.
Proof.
  intros H. apply re_match_tag_shape in H
    as (sp & w1 & n & a & w2 & _ & Hs & H).
  apply app_inv_tail in Hs. subst m.
  exists sp, w1, n, a, w2. split; [reflexivity|exact H].
Qed.

Section KeepsLine.

Variables (E : env) (READERS : registry).
Variables (pre lead w1 n a w2 trail post : str).
Hypothesis Hids : identifiers READERS = true.
Hypothesis Hlead : forallb is_plain lead = true.
Hypothesis Htrail : forallb is_plain trail = true.
Hypothesis Hn : is_identifier n = true.
Hypothesis Hw1 : forallb isspace w1 = true.
Hypothesis Hw2 : forallb isspace w2 = true.
Hypothesis Ha : forallb not_brace a = true.
Hypothesis Hbad : a = [] \/ w1 = [] \/ w2 = [].

Lemma registered_identifier reader function :
  In (reader, function) READERS -> is_identifier reader = true.
Proof.
  intros Hin. unfold identifiers in Hids. rewrite forallb_forall in Hids.
  exact (Hids _ Hin).
Qed.

Lemma re_sub_keeps_line reader function repl doc doc' :
  In (reader, function) READERS ->
  keeps_line READERS pre (tag_text lead w1 n a w2 ++ trail) post doc ->
  re_sub (tag_pattern reader) repl doc = Ok doc' ->
  keeps_line READERS pre (tag_text lead w1 n a w2 ++ trail) post doc'.
Proof.
  intros Hin (pre' & post' & -> & Hpre' & Hpost' & Rpre & Rpost) Hsub.
  apply re_sub_cases in Hsub as [[_ ->]|(m & x & Hs & ->)].
  { exists pre', post'. auto. }
  destruct (search_sound _ _ _ Hs) as (Edoc & Hm & _).
  pose proof (matched_is_a_complete_tag _ _ _ _ Hm) as Htag.
  destruct (match_avoids_the_line reader pre' lead w1 n a w2 trail post'
              (before m) (matched m ++ after m) (groups m) (after m))
    as [(m' & aft & Ev & Ep & Haft)|(b & Eb & Hb)];
    eauto using registered_identifier.
  - (* a tag before the line was replaced *)
    apply app_inv_tail in Ev. subst m'.
    assert (Eafter : after m = aft ++ (tag_text lead w1 n a w2 ++ trail) ++ post').
    { apply (app_inv_head (before m ++ matched m)).
      rewrite <- !app_assoc. rewrite <- Edoc, Ep.
      now rewrite <- !app_assoc. }
    exists (before m ++ x ++ aft), post'. split; [|split; [|split; [|split]]].
    + rewrite Eafter. now rewrite <- !app_assoc.
    + rewrite Ep in Hpre'.
      rewrite !app_assoc in Hpre' |- *.
      rewrite ends_line_app in Hpre' |- * by exact Haft. exact Hpre'.
    + exact Hpost'.
    + apply (@rewritten_step READERS pre (before m) (matched m) aft x
               reader function Hin Htag).
      now rewrite <- Ep.
    + exact Rpost.
  - (* a tag after the line was replaced *)
    assert (Epost : post' = b ++ matched m ++ after m).
    { apply (app_inv_head (pre' ++ (tag_text lead w1 n a w2 ++ trail))).
      rewrite <- !app_assoc. rewrite <- !app_assoc in Edoc, Eb.
      rewrite Edoc at 1. rewrite Eb. now rewrite <- !app_assoc. }
    exists pre', (b ++ x ++ after m). split; [|split; [|split; [|split]]].
    + rewrite Eb. now rewrite <- !app_assoc.
    + exact Hpre'.
    + rewrite Epost in Hpost'.
      rewrite at_line_end_app in Hpost' |- * by exact Hb. exact Hpost'.
    + exact Rpre.
    + apply (@rewritten_step READERS post b (matched m) (after m) x
               reader function Hin Htag).
      now rewrite <- Epost.
Qed.

Lemma process_match_re_sub reader function (result : list str) md st md1 st' :
  process_match E reader function result md st = (Ok md1, st') ->
  exists repl, re_sub (tag_pattern reader) repl md = Ok md1.
Proof.
  unfold process_match. rewrite bind_eq. unfold lift at 1.
  destruct (parse_argkwarg E (nth 1 result [])) as [ak|e]; [|discriminate].
  rewrite bind_eq.
  destruct (load_table E function (fst ak) (snd ak) st) as [[table|e] st1];
    [|discriminate].
  unfold lift. intros [= H _]. eauto.
Qed.

Lemma for_matches_keeps_line reader function :
  In (reader, function) READERS ->
  forall matches doc st doc' st',
    keeps_line READERS pre (tag_text lead w1 n a w2 ++ trail) post doc ->
    for_matches E reader function matches doc st = (Ok doc', st') ->
    keeps_line READERS pre (tag_text lead w1 n a w2 ++ trail) post doc'.
Proof.
  intros Hin. induction matches as [|g gs IH]; intros doc st doc' st' Hk H.
  - injection H as <- _. exact Hk.
  - cbn [for_matches] in H. rewrite bind_eq in H.
    destruct (process_match E reader function g doc st) as [[doc1|e] st1] eqn:E1;
      [|discriminate].
    apply process_match_re_sub in E1 as [repl E1].
    apply (IH doc1 st1 doc' st'); [|exact H].
    now apply (re_sub_keeps_line reader function repl doc doc1).
Qed.

Lemma for_readers_keeps_line : forall RS doc st doc' st',
  (forall reader function, In (reader, function) RS ->
                           In (reader, function) READERS) ->
  keeps_line READERS pre (tag_text lead w1 n a w2 ++ trail) post doc ->
  for_readers E RS doc st = (Ok doc', st') ->
  keeps_line READERS pre (tag_text lead w1 n a w2 ++ trail) post doc'.
Proof.
  induction RS as [|[reader function] RS IH]; intros doc st doc' st' Hsub Hk H.
  - injection H as <- _. exact Hk.
  - cbn [for_readers] in H. rewrite bind_eq in H. unfold process_reader in H.
    destruct (for_matches E reader function
                (findall (tag_pattern reader) doc) doc st)
      as [[doc1|e] st1] eqn:E1; [|discriminate].
    apply (IH doc1 st1 doc' st'); [| |exact H].
    + intros r f Hin. apply Hsub. now right.
    + apply (for_matches_keeps_line reader function) in E1; auto.
      apply Hsub. now left.
Qed.

End KeepsLine.

(** ** C9 *)

(** C9 (as amended).  Every occurrence that the scanner reports is a tag
    with at least one character of argument text and at least one
    whitespace character after the opening and before the closing braces.
    Take a tag that lacks one of them (its argument text is empty, or there
    is no whitespace after the opening or before the closing braces), whose
    name is an identifier and whose argument text holds no brace, on a line
    that otherwise holds plain text only.  Then every match of the pattern
    of a reader lies in the text before that line or in the text after it,
    and when [on_page_markdown] returns a document, the line is in it as it
    was, between the text that was before it and the text that was after
    it, in each of which complete tags have been replaced. *)
Theorem C9_malformed_tag_on_its_line_is_left_unchanged
    E READERS pre lead w1 n a w2 trail post d md' :
  identifiers READERS = true ->
  ends_line pre = true -> at_line_end post = true ->
  forallb is_plain lead = true -> forallb is_plain trail = true ->
  is_identifier n = true ->
  forallb isspace w1 = true -> forallb isspace w2 = true ->
  forallb not_brace a = true ->
  a = [] \/ w1 = [] \/ w2 = [] ->
  fst (run E READERS (pre ++ (tag_text lead w1 n a w2 ++ trail) ++ post) d)
  = Ok md' ->
  (forall reader g,
      In g (findall (tag_pattern reader)
                    (pre ++ (tag_text lead w1 n a w2 ++ trail) ++ post)) ->
      exists before_it sp w1' n' a' w2' rest,
        pre ++ (tag_text lead w1 n a w2 ++ trail) ++ post
        = before_it ++ tag_text sp w1' n' a' w2' ++ rest /\
        g = [sp; a'] /\ eq_ci n' reader = true /\ a' <> [] /\
        w1' <> [] /\ forallb isspace w1' = true /\
        w2' <> [] /\ forallb isspace w2' = true) /\
  (forall reader u v g rest,
      is_identifier reader = true ->
      pre ++ (tag_text lead w1 n a w2 ++ trail) ++ post = u ++ v ->
      re_match (tag_pattern reader) v = Some (g, rest) ->
      (exists m aft, v = m ++ rest /\ pre = u ++ m ++ aft /\ aft <> []) \/
      (exists b, u = pre ++ (tag_text lead w1 n a w2 ++ trail) ++ b /\ b <> []))
  /\
  exists pre' post',
    md' = pre' ++ (tag_text lead w1 n a w2 ++ trail) ++ post' /\
    ends_line pre' = true /\ at_line_end post' = true /\
    rewritten READERS pre pre' /\ rewritten READERS post post'.
Proof.
  intros Hids Hpre Hpost Hlead Htrail Hn Hw1 Hw2 Ha Hbad Hrun.
  split; [|split].
  - intros reader g. apply findall_occurrence_shape.
  - intros reader u v g rest Hid. now apply match_avoids_the_line.
  - unfold run, on_page_markdown in Hrun.
    destruct (for_readers E READERS _ (initial d)) as [r st'] eqn:H.
    cbn [fst] in Hrun. subst r.
    apply (for_readers_keeps_line E READERS pre lead w1 n a w2 trail post
             Hids Hlead Htrail Hn Hw1 Hw2 Ha Hbad) in H.
    + exact H.
    + auto.
    + exists pre, post. repeat split; auto; constructor.
Qed.

Lemma C9_witness :
  exists pre' post',
    txt "{{ read_csv() }}
T" = pre' ++ (tag_text [] (txt " ") read_csv [] (txt " ") ++ []) ++ post' /\
    ends_line pre' = true /\ at_line_end post' = true /\
    rewritten csv_T [] pre' /\
    rewritten csv_T (txt "
{{ read_csv(a.csv) }}") post'.
Proof.
  refine (proj2 (proj2 (C9_malformed_tag_on_its_line_is_left_unchanged
            E_flat csv_T [] [] (txt " ") read_csv [] (txt " ") []
            (txt "
{{ read_csv(a.csv) }}") (txt "/") (txt "{{ read_csv() }}
T") _ _ _ _ _ _ _ _ _ _ _)));
    try (vm_compute; reflexivity).
  left. reflexivity.
Defined.

(** The two texts of the claim, alone in a document and on a line of
    their own above a complete tag. *)
Example empty_arguments_alone :
  run E_flat csv_T (txt "{{ read_csv() }}") (txt "/")
  = (Ok (txt "{{ read_csv() }}"), initial (txt "/")).
Proof. vm_compute. reflexivity. Qed.

Example no_whitespace_alone :
  run E_flat csv_T (txt "{{read_csv(f.csv)}}") (txt "/")
  = (Ok (txt "{{read_csv(f.csv)}}"), initial (txt "/")).
Proof. vm_compute. reflexivity. Qed.

Example malformed_tags_above_a_tag :
  fst (run E_flat csv_T (txt "{{ read_csv() }}
see {{read_csv(f.csv)}} here
  {{ read_csv(a.csv) }}") (txt "/"))
  = Ok (txt "{{ read_csv() }}
see {{read_csv(f.csv)}} here
T").
Proof. vm_compute. reflexivity. Qed.

(** C9, as stated, fails.  Followed on its line by a complete tag, the
    text [{{ read_csv() }}] begins an occurrence: the repetition of group
    2 needs one character and takes the closing parenthesis.  And inside
    the argument text of a complete tag it is replaced with that tag: the
    returned document does not hold it. *)
Lemma C9_counterexample :
  findall (tag_pattern read_csv) (txt "{{ read_csv() }} {{ read_csv(b.csv) }}")
  = [[ [] ; txt ") }} {{ read_csv(b.csv"]]
  /\ findall (tag_pattern read_csv)
             (txt "{{ read_csv(a.csv, note='{{ read_csv() }}') }}")
     = [[ [] ; txt "a.csv, note='{{ read_csv() }}'"]]
  /\ fst (run E_note csv_T
              (txt "{{ read_csv(a.csv, note='{{ read_csv() }}') }}") (txt "/"))
     = Ok (txt "T").
Proof. repeat split; vm_compute; reflexivity. Qed.

(* ================================================================= *)
(** * Further properties *)

(** ** [on_config]: the order of the plugins *)

Lemma contains_In x l : contains x l = true <-> In x l.
Proof.
  unfold contains. rewrite existsb_exists. split.
  - intros (y & Hin & Hy). apply str_eqb_eq in Hy. now subst.
  - intros Hin. exists x. split; [exact Hin|apply str_eqb_refl].
Qed.

Lemma str_eqb_neq a b : str_eqb a b = false <-> a <> b.
Proof.
  split.
  - intros H ->. now rewrite str_eqb_refl in H.
  - intros H. destruct (str_eqb a b) eqn:E; [|reflexivity].
    apply str_eqb_eq in E. contradiction.
Qed.

(** [l.index(x)] is the length of the part of [l] before the first [x]. *)
Lemma list_index_Some x : forall l i,
  list_index x l = Some i <->
  exists l1 l2, l = l1 ++ x :: l2 /\ ~ In x l1 /\ length l1 = i.
Proof.
  induction l as [|y l IH]; intros i.
  - split; [discriminate|]. intros ([|? ?] & l2 & E & _); discriminate.
  - simpl. destruct (str_eqb y x) eqn:Hy.
    + apply str_eqb_eq in Hy. subst y. split.
      * intros [= <-]. exists [], l. auto.
      * intros (l1 & l2 & E & Hn & Hl). destruct l1 as [|z l1].
        -- now subst.
        -- injection E as -> E. exfalso. apply Hn. now left.
    + apply str_eqb_neq in Hy. split.
      * destruct (list_index x l) as [j|] eqn:Hj; [|discriminate].
        intros [= <-]. destruct (proj1 (IH j) eq_refl) as (l1 & l2 & -> & Hn & Hl).
        exists (y :: l1), l2. simpl. repeat split; auto.
        intros [Hc|Hc]; auto.
      * intros (l1 & l2 & E & Hn & Hl). destruct l1 as [|z l1].
        -- injection E as E _. contradiction.
        -- injection E as -> E. simpl in Hl. destruct i as [|i]; [discriminate|].
           injection Hl as Hl.
           rewrite (proj2 (IH i)); [reflexivity|].
           exists l1, l2. repeat split; auto. intros Hc. apply Hn. now right.
Qed.

Lemma list_index_In x l i : list_index x l = Some i -> In x l.
Proof.
  intros H. apply list_index_Some in H as (l1 & l2 & -> & _).
  apply in_or_app. right. now left.
Qed.

Lemma list_index_None x l : list_index x l = None <-> ~ In x l.
Proof.
  split.
  - intros H Hin. apply in_split in Hin as (l1 & l2 & ->).
    revert H. induction l1 as [|y l1 IH]; simpl.
    + now rewrite str_eqb_refl.
    + destruct (str_eqb y x); [discriminate|].
      destruct (list_index x (l1 ++ x :: l2)); [discriminate|]. auto.
  - intros H. destruct (list_index x l) as [i|] eqn:E; [|reflexivity].
    apply list_index_In in E. contradiction.
Qed.

Lemma table_reader_is_not_post_load p :
  In p post_load_plugins -> p <> table_reader.
Proof. intros [<-|[<-|[]]]; discriminate. Qed.

(** One round of the loop of line 34. *)
Lemma on_config_round plugins p todo :
  p <> table_reader ->
  on_config_loop plugins (p :: todo) =
  if contains p plugins then
    match list_index table_reader plugins with
    | None => Raised ValueError
    | Some i =>
        match list_index p plugins with
        | None => Raised ValueError
        | Some j => if j <? i then Raised (ConfigurationError p)
                    else on_config_loop plugins todo
        end
    end
  else on_config_loop plugins todo.
Proof. reflexivity. Qed.

(** With [table_reader] first at position [i] and [p] first at position [j],
    [p] comes first exactly when some [p] has no [table_reader] before
    it. *)
Lemma index_order plugins table_reader p i j :
  p <> table_reader ->
  list_index table_reader plugins = Some i ->
  list_index p plugins = Some j ->
  (j <? i) = true <-> occurs_before p table_reader plugins.
Proof.
  intros Hne Hi Hj.
  apply list_index_Some in Hi as (l1 & l2 & E1 & Hn1 & <-).
  apply list_index_Some in Hj as (m1 & m2 & E2 & Hn2 & <-).
  rewrite Nat.ltb_lt. split.
  - intros Hlt. exists m1, m2. split; [exact E2|].
    intros Hin. apply Hn1.
    rewrite E1 in E2. apply app_eq_app in E2 as (l & [[-> _]|[-> _]]).
    + apply in_or_app. now left.
    + rewrite length_app in Hlt. lia.
  - intros (q1 & q2 & E3 & Hn3).
    destruct (Nat.lt_ge_cases (length m1) (length l1)) as [Hlt|Hge]; [exact Hlt|].
    exfalso.
    assert (Hp : In p l1).
    { rewrite E1 in E3. apply app_eq_app in E3 as (l & [[-> E]|[-> E]]).
      - destruct l as [|z l]; simpl in E.
        + injection E as E _. congruence.
        + injection E as <- _. apply in_or_app. right. now left.
      - destruct l as [|z l]; simpl in E.
        + injection E as E _. congruence.
        + injection E as <- _. exfalso. apply Hn3.
          apply in_or_app. right. now left. }
    apply Hn2.
    rewrite E1 in E2. apply app_eq_app in E2 as (l & [[-> E]|[-> E]]).
    + rewrite length_app in Hge. destruct l; [|simpl in Hge; lia].
      now rewrite app_nil_r in Hp.
    + apply in_or_app. now left.
Qed.

Lemma list_index_inj plugins x y i :
  list_index x plugins = Some i -> list_index y plugins = Some i -> x = y.
Proof.
  intros Hx Hy.
  apply list_index_Some in Hx as (l1 & l2 & E1 & _ & L1).
  apply list_index_Some in Hy as (m1 & m2 & E2 & _ & L2).
  assert (Hx : nth_error plugins i = Some x)
    by (rewrite E1, nth_error_app2, L1, Nat.sub_diag by lia; reflexivity).
  assert (Hy : nth_error plugins i = Some y)
    by (rewrite E2, nth_error_app2, L2, Nat.sub_diag by lia; reflexivity).
  congruence.
Qed.

(** What one round of the loop of line 34 does. *)
Lemma on_config_round_cases plugins p todo :
  p <> table_reader ->
  (~ In p plugins /\
   on_config_loop plugins (p :: todo) = on_config_loop plugins todo) \/
  (In p plugins /\ ~ In table_reader plugins /\
   on_config_loop plugins (p :: todo) = Raised ValueError) \/
  (In p plugins /\ In table_reader plugins /\
   occurs_before p table_reader plugins /\
   on_config_loop plugins (p :: todo) = Raised (ConfigurationError p)) \/
  (In p plugins /\ ~ occurs_before p table_reader plugins /\
   occurs_before table_reader p plugins /\
   on_config_loop plugins (p :: todo) = on_config_loop plugins todo).
Proof.
  intros Hne. rewrite on_config_round by exact Hne.
  destruct (contains p plugins) eqn:Hc.
  2:{ left. split; [|reflexivity]. intros Hin. apply contains_In in Hin.
      congruence. }
  apply contains_In in Hc. right.
  destruct (list_index table_reader plugins) as [i|] eqn:Hi.
  2:{ left. apply list_index_None in Hi. auto. }
  right.
  destruct (list_index p plugins) as [j|] eqn:Hj.
  2:{ apply list_index_None in Hj. contradiction. }
  pose proof (index_order plugins table_reader p i j Hne Hi Hj) as Hord.
  destruct (j <? i) eqn:Hji.
  - left. repeat split; auto.
    + eapply list_index_In; eauto.
    + now apply Hord.
  - right. repeat split; auto.
    + intros Hob. apply Hord in Hob. discriminate.
    + apply (index_order plugins p table_reader j i); auto.
      apply Nat.ltb_lt. apply Nat.ltb_ge in Hji.
      destruct (Nat.eq_dec i j) as [->|Hneq]; [|lia].
      exfalso. apply Hne. eapply list_index_inj; eauto.
Qed.

Lemma occurs_before_In q x plugins : occurs_before q x plugins -> In q plugins.
Proof. intros (l1 & l2 & -> & _). apply in_or_app. right. now left. Qed.

Lemma occurs_before_exclusive x y l :
  x <> y -> occurs_before x y l -> occurs_before y x l -> False.
Proof.
  intros Hne (l1 & l2 & E & Hn) (m1 & m2 & E' & Hn').
  rewrite E in E'. apply app_eq_app in E' as (l0 & [[-> E2]|[-> E2]]).
  - destruct l0 as [|z l0]; simpl in E2; [congruence|].
    injection E2 as <- _. apply Hn. apply in_or_app. right. now left.
  - destruct l0 as [|z l0]; simpl in E2; [congruence|].
    injection E2 as <- _. apply Hn'. apply in_or_app. right. now left.
Qed.

Ltac on_config_rounds plugins :=
  unfold on_config, post_load_plugins;
  destruct (on_config_round_cases plugins (txt "macros") [txt "markdownextradata"])
    as [(Hm & ->)|[(Hm & Ht & ->)|[(Hm & Ht & Hb & ->)|(Hm & Hnb & Hb & ->)]]];
    try discriminate;
  try (destruct (on_config_round_cases plugins (txt "markdownextradata") [])
    as [(Hd & ->)|[(Hd & Ht' & ->)|[(Hd & Ht' & Hb' & ->)|(Hd & Hnb' & Hb' & ->)]]];
    try discriminate).

(** From "every configured post-load plugin comes after [table-reader]",
    what it says of each of the two. *)
Ltac use_order H :=
  repeat match goal with
  | Hin : In (txt ?n) ?pl |- _ =>
      let Hob := fresh "Hob" in
      assert (Hob : occurs_before table_reader (txt n) pl)
        by (apply H; [simpl; auto|exact Hin]);
      clear Hin
  end.

Ltac order_contradiction :=
  exfalso;
  match goal with
  | Hob : occurs_before table_reader _ ?pl, Hn : ~ In table_reader ?pl |- _ =>
      apply Hn; exact (occurs_before_In _ _ _ Hob)
  | Hob : occurs_before table_reader ?p ?pl, Hb : occurs_before ?p table_reader ?pl |- _ =>
      apply (occurs_before_exclusive table_reader p pl); [discriminate|exact Hob|exact Hb]
  end.

(** X1.  [on_config] returns (without raising) exactly when each of
    [macros] and [markdownextradata] that is configured comes after
    [table-reader]: the list has a [table-reader] with no such plugin
    before it.  When neither is configured, nothing is asked of the list. *)
Theorem X1_on_config_accepts_table_reader_first plugins :
  on_config plugins = Returned <->
  forall p, In p post_load_plugins -> In p plugins ->
            occurs_before table_reader p plugins.
Proof.
  on_config_rounds plugins; cbn [on_config_loop]; split;
    try discriminate; try reflexivity.
  all: try (intros _ p [<-|[<-|[]]] Hin; solve [contradiction | assumption]).
  all: intros H; use_order H; order_contradiction.
Qed.

(** X2.  [on_config] fails with the [ValueError] of [list.index], and not
    with a [ConfigurationError], exactly when [macros] or
    [markdownextradata] is configured and no plugin is named
    [table-reader]. *)
Theorem X2_on_config_value_error plugins :
  on_config plugins = Raised ValueError <->
  ~ In table_reader plugins /\
  exists p, In p post_load_plugins /\ In p plugins.
Proof.
  on_config_rounds plugins; cbn [on_config_loop]; split;
    try discriminate; try reflexivity.
  all: try (intros _; split; [assumption|]; eexists; split; [|eassumption];
            simpl; auto).
  all: intros (Hnt & p & [<-|[<-|[]]] & Hin); try contradiction.
  all: try (apply occurs_before_In in Hb; contradiction).
  all: try (apply occurs_before_In in Hb'; contradiction).
Qed.

(** X3.  [on_config] raises the [ConfigurationError] that names [p] exactly
    when [table-reader] is configured and [p] is the first of [macros],
    [markdownextradata] (in this order) that has an occurrence with no
    [table-reader] before it. *)
Theorem X3_on_config_names_the_first_offender plugins p :
  on_config plugins = Raised (ConfigurationError p) <->
  In table_reader plugins /\
  ((p = txt "macros" /\ occurs_before (txt "macros") table_reader plugins) \/
   (p = txt "markdownextradata" /\
    occurs_before (txt "markdownextradata") table_reader plugins /\
    ~ occurs_before (txt "macros") table_reader plugins)).
Proof.
  on_config_rounds plugins; cbn [on_config_loop]; split;
    try discriminate.
  all: try (intros [= <-]; split; [assumption|]).
  all: try (left; split; [reflexivity|assumption]).
  all: try (right; split; [reflexivity|]; split; [assumption|]).
  all: try (intros Hob; apply occurs_before_In in Hob; contradiction).
  all: try assumption.
  all: intros (Hin & [(-> & Hob)|(-> & Hob & Hnob)]).
  all: try reflexivity.
  all: try (apply occurs_before_In in Hob; contradiction).
  all: try contradiction.
  all: try (exfalso; eapply (occurs_before_exclusive table_reader); eauto;
            discriminate).
Qed.

Lemma X1_witness :
  on_config [txt "search"; table_reader; txt "macros"] = Returned.
Proof.
  apply (proj2 (X1_on_config_accepts_table_reader_first
                  [txt "search"; table_reader; txt "macros"])).
  intros p [<-|[<-|[]]] Hin.
  - exists [txt "search"], [txt "macros"]. split; [reflexivity|].
    intros [H|[]]. discriminate H.
  - exfalso. destruct Hin as [H|[H|[H|[]]]]; discriminate H.
Defined.

Lemma X2_witness : on_config [txt "search"; txt "macros"] = Raised ValueError.
Proof.
  apply (proj2 (X2_on_config_value_error [txt "search"; txt "macros"])).
  split.
  - intros [H|[H|[]]]; discriminate H.
  - exists (txt "macros"). split; [now left|]. right. now left.
Defined.

Lemma X3_witness :
  on_config [txt "markdownextradata"; txt "macros"; table_reader]
  = Raised (ConfigurationError (txt "macros")).
Proof.
  apply (proj2 (X3_on_config_names_the_first_offender
                  [txt "markdownextradata"; txt "macros"; table_reader]
                  (txt "macros"))).
  split; [right; right; now left|].
  left. split; [reflexivity|].
  exists [txt "markdownextradata"], [table_reader]. split; [reflexivity|].
  intros [H|[]]. discriminate H.
Defined.

(** ** The [with cd(mkdocs_dir)] block, step by step *)

Lemma load_table_eq E function a k st :
  load_table E function a k st =
  match search_loop E (search_directories E) a k (entered E st) with
  | (Ok ak, st1) =>
      (fst (function (trace st1) (fst ak) (snd ak) (cwd st1)),
       mkState (cwd st)
         (trace st1
          ++ [EvCall (cwd st1) (fst ak) (snd ak)
                (fst (function (trace st1) (fst ak) (snd ak) (cwd st1)));
              EvChdir (cwd st)])
         (input_file_path st1) (output_file_path st1))
  | (Raise e, st1) =>
      (Raise e,
       mkState (cwd st) (trace st1 ++ [EvChdir (cwd st)])
               (input_file_path st1) (output_file_path st1))
  end.
Proof.
  unfold load_table, cd, entered. cbn [chdir snd]. rewrite bind_eq.
  destruct (search_loop _ _ _ _ _) as [[ak|e] st1]; [|reflexivity].
  unfold call. destruct (function (trace st1) (fst ak) (snd ak) (cwd st1)).
  cbn. now rewrite <- app_assoc.
Qed.

(** One iteration of the loop when the first positional argument is a
    string and there is no [filepath_or_buffer]. *)
Lemma search_loop_step E d dirs c rest k st :
  kw_get filepath_or_buffer k = None ->
  search_loop E (d :: dirs) (VStr c :: rest) k st =
  let p := os_path_join d c in
  let found := os_path_exists E (cwd st) (os_path_join (mkdocs_dir E) p) in
  let st1 := mkState (cwd st)
               (trace st ++ [EvExists (cwd st) (os_path_join (mkdocs_dir E) p) found])
               (Some (VStr c)) (Some p) in
  if found then (Ok (VStr p :: rest, k), st1)
  else search_loop E dirs (VStr p :: rest) k st1.
Proof.
  intros Hk. cbn [search_loop]. rewrite bind_eq.
  change (rewrite_positional d (VStr c :: rest) st)
    with (Ok (VStr (os_path_join d c) :: rest),
          mkState (cwd st) (trace st) (Some (VStr c)) (Some (os_path_join d c))).
  cbv iota beta. rewrite bind_eq, rewrite_keyword_absent by exact Hk.
  rewrite bind_eq, (check_exists_bound E _ (os_path_join d c)) by reflexivity.
  cbn [cwd trace input_file_path output_file_path].
  cbv zeta.
  destruct (os_path_exists E (cwd st)
              (os_path_join (mkdocs_dir E) (os_path_join d c))); reflexivity.
Qed.

(** ** Resolution: what does hold *)

Lemma load_table_first_hit E function data_path dirs c rest k st :
  search_directories E = data_path :: dirs ->
  kw_get filepath_or_buffer k = None ->
  os_path_exists E (mkdocs_dir E)
    (os_path_join (mkdocs_dir E) (os_path_join data_path c)) = true ->
  let p := os_path_join data_path c in
  let seen := trace st ++ [EvChdir (mkdocs_dir E);
                           EvExists (mkdocs_dir E)
                                    (os_path_join (mkdocs_dir E) p) true] in
  let r := fst (function seen (VStr p :: rest) k (mkdocs_dir E)) in
  load_table E function (VStr c :: rest) k st
  = (r, mkState (cwd st)
          (seen ++ [EvCall (mkdocs_dir E) (VStr p :: rest) k r; EvChdir (cwd st)])
          (Some (VStr c)) (Some p)).
Proof.
  intros Hd Hk Hex. cbv zeta.
  rewrite load_table_eq, Hd. unfold entered.
  rewrite search_loop_step by exact Hk.
  cbn [cwd trace]. cbv zeta. rewrite Hex.
  cbn [fst snd cwd trace input_file_path output_file_path].
  now rewrite <- !app_assoc.
Qed.

(** X4.  The first search directory has priority: when the file exists
    under it, only this one path is checked, the reader is called once, in
    [mkdocs_dir], with the path joined to the first directory in place of
    the first positional argument, whatever the later directories hold; the
    outcome of the reader is the outcome of the block. *)
Theorem X4_first_directory_has_priority
    E function data_path dirs c rest k st :
  search_directories E = data_path :: dirs ->
  kw_get filepath_or_buffer k = None ->
  os_path_exists E (mkdocs_dir E)
    (os_path_join (mkdocs_dir E) (os_path_join data_path c)) = true ->
  let p := os_path_join data_path c in
  let seen := trace st ++ [EvChdir (mkdocs_dir E);
                           EvExists (mkdocs_dir E)
                                    (os_path_join (mkdocs_dir E) p) true] in
  let r := fst (function seen (VStr p :: rest) k (mkdocs_dir E)) in
  load_table E function (VStr c :: rest) k st
  = (r, mkState (cwd st)
          (seen ++ [EvCall (mkdocs_dir E) (VStr p :: rest) k r; EvChdir (cwd st)])
          (Some (VStr c)) (Some p)).
Proof. exact (load_table_first_hit E function data_path dirs c rest k st). Qed.

Lemma X4_witness :
  load_table E_flat (const_reader (txt "T")) [VStr (txt "a.csv")] []
             (initial (txt "/"))
  = (Ok (txt "T"),
     mkState (txt "/")
       ((trace (initial (txt "/"))
         ++ [EvChdir (mkdocs_dir E_flat);
             EvExists (mkdocs_dir E_flat)
               (os_path_join (mkdocs_dir E_flat) (os_path_join (txt ".") (txt "a.csv")))
               true])
        ++ [EvCall (mkdocs_dir E_flat)
              [VStr (os_path_join (txt ".") (txt "a.csv"))] [] (Ok (txt "T"));
            EvChdir (txt "/")])
       (Some (VStr (txt "a.csv")))
       (Some (os_path_join (txt ".") (txt "a.csv")))).
Proof.
  apply (X4_first_directory_has_priority E_flat (const_reader (txt "T"))
           (txt ".") [] (txt "a.csv") [] [] (initial (txt "/")));
    vm_compute; reflexivity.
Defined.

(** X5.  With one search directory ([search_page_directory] switched off),
    a file that does not exist there makes the block raise
    [FileNotFoundError] with the path as it was written in the tag and that
    directory; one path was checked and no reader was called. *)
Theorem X5_one_directory_names_the_written_path
    E function data_path c rest k st :
  search_directories E = [data_path] ->
  kw_get filepath_or_buffer k = None ->
  os_path_exists E (mkdocs_dir E)
    (os_path_join (mkdocs_dir E) (os_path_join data_path c)) = false ->
  load_table E function (VStr c :: rest) k st
  = (Raise (FileNotFoundError (VStr c) [data_path]),
     mkState (cwd st)
       (trace st ++ [EvChdir (mkdocs_dir E);
                     EvExists (mkdocs_dir E)
                       (os_path_join (mkdocs_dir E) (os_path_join data_path c))
                       false;
                     EvChdir (cwd st)])
       (Some (VStr c)) (Some (os_path_join data_path c))).
Proof.
  intros Hd Hk Hex.
  rewrite load_table_eq, Hd. unfold entered.
  rewrite search_loop_step by exact Hk.
  cbn [cwd trace]. cbv zeta. rewrite Hex.
  cbn [search_loop]. rewrite bind_eq. cbn. rewrite Hd.
  now rewrite <- !app_assoc.
Qed.

Lemma X5_witness :
  load_table E_flat (const_reader (txt "T")) [VStr (txt "nope.csv")] []
             (initial (txt "/"))
  = (Raise (FileNotFoundError (VStr (txt "nope.csv")) [txt "."]),
     mkState (cwd (initial (txt "/")))
       (trace (initial (txt "/"))
        ++ [EvChdir (mkdocs_dir E_flat);
            EvExists (mkdocs_dir E_flat)
              (os_path_join (mkdocs_dir E_flat)
                 (os_path_join (txt ".") (txt "nope.csv")))
              false;
            EvChdir (cwd (initial (txt "/")))])
       (Some (VStr (txt "nope.csv")))
       (Some (os_path_join (txt ".") (txt "nope.csv")))).
Proof.
  apply (X5_one_directory_names_the_written_path E_flat (const_reader (txt "T"))
           (txt ".") (txt "nope.csv") [] [] (initial (txt "/")));
    vm_compute; reflexivity.
Defined.

(** ** Resolution: absolute paths, other arguments, wrong types *)

Lemma os_path_join_absolute d c :
  startswith_sep c = true -> os_path_join d c = c.
Proof. intros H. unfold os_path_join. now rewrite H. Qed.

Lemma search_loop_absolute E : forall dirs c rest k st,
  startswith_sep c = true ->
  kw_get filepath_or_buffer k = None ->
  dirs <> [] ->
  exists st',
    search_loop E dirs (VStr c :: rest) k st =
    (if os_path_exists E (cwd st) c
     then Ok (VStr c :: rest, k)
     else Raise (FileNotFoundError (VStr c) (search_directories E)),
     st') /\
    trace st' = trace st
                ++ (if os_path_exists E (cwd st) c
                    then [EvExists (cwd st) c true]
                    else repeat (EvExists (cwd st) c false) (length dirs)).
Proof.
  induction dirs as [|d dirs IH]; intros c rest k st Hc Hk Hne; [congruence|].
  rewrite search_loop_step by exact Hk. cbv zeta.
  rewrite (os_path_join_absolute d c Hc).
  rewrite (os_path_join_absolute (mkdocs_dir E) c Hc).
  destruct (os_path_exists E (cwd st) c) eqn:Hex.
  - eexists. split; reflexivity.
  - destruct dirs as [|d' dirs].
    + cbn [search_loop]. rewrite bind_eq. cbn. eexists. split; reflexivity.
    + destruct (IH c rest k
                  (mkState (cwd st) (trace st ++ [EvExists (cwd st) c false])
                           (Some (VStr c)) (Some c)) Hc Hk)
        as (st' & Heq & Htr); [discriminate|].
      cbn [cwd trace] in Heq, Htr. rewrite Hex in Heq, Htr.
      exists st'. split; [exact Heq|].
      rewrite Htr, <- app_assoc. reflexivity.
Qed.

(** X6.  An absolute path in a tag is looked up as it is: no search
    directory is put in front of it.  If it exists, it is found on the first
    check and the reader gets it unchanged; if not, it is checked once per
    search directory and [FileNotFoundError] names it as written. *)
Theorem X6_absolute_path_is_taken_as_it_is E function c rest k st :
  startswith_sep c = true ->
  kw_get filepath_or_buffer k = None ->
  search_directories E <> [] ->
  let checks :=
    if os_path_exists E (mkdocs_dir E) c
    then [EvExists (mkdocs_dir E) c true]
    else repeat (EvExists (mkdocs_dir E) c false)
                (length (search_directories E)) in
  let seen := trace st ++ EvChdir (mkdocs_dir E) :: checks in
  let r :=
    if os_path_exists E (mkdocs_dir E) c
    then fst (function seen (VStr c :: rest) k (mkdocs_dir E))
    else Raise (FileNotFoundError (VStr c) (search_directories E)) in
  fst (load_table E function (VStr c :: rest) k st) = r /\
  trace (snd (load_table E function (VStr c :: rest) k st))
  = seen
    ++ (if os_path_exists E (mkdocs_dir E) c
        then [EvCall (mkdocs_dir E) (VStr c :: rest) k r]
        else [])
    ++ [EvChdir (cwd st)].
Proof.
  intros Hc Hk Hne. cbv zeta. rewrite load_table_eq.
  destruct (search_loop_absolute E (search_directories E) c rest k
              (entered E st) Hc Hk Hne) as (st' & Heq & Htr).
  cbn [entered cwd trace] in Heq, Htr. rewrite Heq.
  assert (Hcwd : cwd st' = mkdocs_dir E).
  { pose proof (search_loop_world _ _ _ _ _ _ _ Heq) as [Hcw _]. exact Hcw. }
  destruct (os_path_exists E (mkdocs_dir E) c);
    cbn [fst snd trace]; rewrite Htr, ?Hcwd; rewrite <- !app_assoc;
    split; reflexivity.
Qed.

Lemma X6_witness :
  fst (load_table E_page_only (const_reader (txt "T"))
         [VStr (txt "/site/page_dir/data.csv")] [] (initial (txt "/")))
  = Ok (txt "T")
  /\ fst (load_table E_page_only (const_reader (txt "T"))
            [VStr (txt "/site/gone.csv")] [] (initial (txt "/")))
     = Raise (FileNotFoundError (VStr (txt "/site/gone.csv")) two_dirs).
Proof.
  split.
  - exact (proj1 (X6_absolute_path_is_taken_as_it_is E_page_only
                    (const_reader (txt "T")) (txt "/site/page_dir/data.csv")
                    [] [] (initial (txt "/")) eq_refl eq_refl
                    ltac:(discriminate))).
  - exact (proj1 (X6_absolute_path_is_taken_as_it_is E_page_only
                    (const_reader (txt "T")) (txt "/site/gone.csv")
                    [] [] (initial (txt "/")) eq_refl eq_refl
                    ltac:(discriminate))).
Defined.

(** Where an event of a trace built with [++] and [::] can be. *)
Ltac in_cases H :=
  repeat match type of H with
  | In _ (_ ++ _) => apply in_app_or in H as [H|H]
  | In _ (_ :: _) => destruct H as [H|H]
  | In _ [] => destruct H
  end.

(** The dictionary: assignment to one key leaves the others alone. *)
Lemma kw_get_set_other key k v d :
  str_eqb key k = false -> kw_get key (kw_set k v d) = kw_get key d.
Proof.
  intros Hne. induction d as [|[k' v'] d IH]; simpl.
  - now rewrite Hne.
  - destruct (str_eqb k k') eqn:Hk; simpl.
    + apply str_eqb_eq in Hk. subst k'. now rewrite Hne.
    + destruct (str_eqb key k'); [reflexivity|exact IH].
Qed.

Lemma kw_set_keys k v d :
  kw_get k d <> None -> map fst (kw_set k v d) = map fst d.
Proof.
  induction d as [|[k' v'] d IH]; simpl; [congruence|].
  destruct (str_eqb k k') eqn:Hk; simpl; [reflexivity|].
  intros H. now rewrite IH.
Qed.

Lemma rewrite_positional_keeps d a st a' st' :
  rewrite_positional d a st = (Ok a', st') ->
  tl a' = tl a /\ length a' = length a.
Proof.
  destruct a as [|v rest]; [intros [= <- _]; auto|].
  destruct v; cbn; intros [= <- _]; auto.
Qed.

Lemma rewrite_keyword_keeps d k st k' st' :
  rewrite_keyword d k st = (Ok k', st') ->
  map fst k' = map fst k /\
  forall key, str_eqb key filepath_or_buffer = false ->
              kw_get key k' = kw_get key k.
Proof.
  unfold rewrite_keyword.
  destruct (kw_get filepath_or_buffer k) as [v|] eqn:Hg;
    [|intros [= <- _]; auto].
  destruct (truthy v); [|intros [= <- _]; auto].
  destruct v; cbn -[filepath_or_buffer kw_set kw_get]; try discriminate.
  intros [= <- _]. split.
  - apply kw_set_keys. congruence.
  - intros key Hkey. now apply kw_get_set_other.
Qed.

Lemma search_loop_keeps E : forall dirs a k st a' k' st',
  search_loop E dirs a k st = (Ok (a', k'), st') ->
  tl a' = tl a /\ length a' = length a /\
  map fst k' = map fst k /\
  forall key, str_eqb key filepath_or_buffer = false ->
              kw_get key k' = kw_get key k.
Proof.
  induction dirs as [|d dirs IH]; intros a k st a' k' st' H.
  - cbn [search_loop] in H. rewrite bind_eq in H.
    unfold read_input_file_path in H.
    destruct (input_file_path st); discriminate.
  - cbn [search_loop] in H. rewrite bind_eq in H.
    destruct (rewrite_positional d a st) as [[a1|e] st1] eqn:E1; [|discriminate].
    apply rewrite_positional_keeps in E1 as (Ht1 & Hl1).
    rewrite bind_eq in H.
    destruct (rewrite_keyword d k st1) as [[k1|e] st2] eqn:E2; [|discriminate].
    apply rewrite_keyword_keeps in E2 as (Hm1 & Hg1).
    rewrite bind_eq in H.
    destruct (check_exists E st2) as [[found|e] st3]; [|discriminate].
    destruct found.
    + injection H as <- <- _. auto.
    + apply IH in H as (Ht2 & Hl2 & Hm2 & Hg2).
      repeat split; try congruence.
      intros key Hkey. rewrite Hg2, Hg1; auto.
Qed.

(** X7.  The search rewrites nothing but the path: whenever a reader is
    called, it gets the positional arguments of the tag from the second one
    on, and all keyword arguments other than [filepath_or_buffer], as the
    parser returned them; no argument is added, dropped or reordered. *)
Theorem X7_only_the_path_is_rewritten E function a k st c a' k' r :
  In (EvCall c a' k' r) (trace (snd (load_table E function a k st))) ->
  ~ In (EvCall c a' k' r) (trace st) ->
  tl a' = tl a /\ length a' = length a /\
  map fst k' = map fst k /\
  forall key, str_eqb key filepath_or_buffer = false ->
              kw_get key k' = kw_get key k.
Proof.
  rewrite load_table_eq.
  destruct (search_loop E (search_directories E) a k (entered E st))
    as [[[a1 k1]|e] st1] eqn:Hs;
    pose proof (search_loop_world _ _ _ _ _ _ _ Hs) as (_ & t & Ht & Hall);
    cbn [snd trace fst]; rewrite Ht; cbn [entered trace];
    intros Hin Hnot; rewrite Forall_forall in Hall;
    in_cases Hin;
    try contradiction; try discriminate;
    try (apply Hall in Hin; contradiction).
  injection Hin as _ <- <- _.
  exact (search_loop_keeps _ _ _ _ _ _ _ _ Hs).
Qed.

Lemma X7_witness :
  tl [VStr (txt "./a.csv"); VInt 3] = tl [VStr (txt "a.csv"); VInt 3] /\
  length [VStr (txt "./a.csv"); VInt 3] = length [VStr (txt "a.csv"); VInt 3] /\
  map fst [(txt "sep", VInt 1)] = map fst [(txt "sep", VInt 1)] /\
  forall key, str_eqb key filepath_or_buffer = false ->
              kw_get key [(txt "sep", VInt 1)] = kw_get key [(txt "sep", VInt 1)].
Proof.
  apply (X7_only_the_path_is_rewritten E_flat (const_reader (txt "T"))
           [VStr (txt "a.csv"); VInt 3] [(txt "sep", VInt 1)]
           (initial (txt "/")) site
           [VStr (txt "./a.csv"); VInt 3] [(txt "sep", VInt 1)] (Ok (txt "T"))).
  - vm_compute. do 2 right. left. reflexivity.
  - vm_compute. intros [].
Defined.

(** ** Resolution: edge cases *)

(** X8.  A first positional argument that is not a string makes the block
    raise [TypeError] (from [os.path.join]) on the first iteration: nothing
    is checked, no reader is called, and the working directory is restored. *)
Theorem X8_non_string_path_is_a_type_error E function v rest k st d dirs :
  search_directories E = d :: dirs ->
  is_VStr v = false ->
  load_table E function (v :: rest) k st
  = (Raise TypeError,
     mkState (cwd st)
       (trace st ++ [EvChdir (mkdocs_dir E); EvChdir (cwd st)])
       (Some v) (output_file_path st)).
Proof.
  intros Hd Hv. rewrite load_table_eq, Hd. unfold entered.
  cbn [search_loop]. rewrite bind_eq.
  destruct v; try discriminate; cbn; now rewrite <- app_assoc.
Qed.

Lemma X8_witness :
  load_table E_flat (const_reader (txt "T")) [VInt 5] [] (initial (txt "/"))
  = (Raise TypeError,
     mkState (cwd (initial (txt "/")))
       (trace (initial (txt "/"))
        ++ [EvChdir (mkdocs_dir E_flat); EvChdir (cwd (initial (txt "/")))])
       (Some (VInt 5)) (output_file_path (initial (txt "/")))).
Proof.
  apply (X8_non_string_path_is_a_type_error E_flat (const_reader (txt "T"))
           (VInt 5) [] [] (initial (txt "/")) (txt ".") []); reflexivity.
Defined.

(** X9.  When a tag gives both a positional path and a non-empty
    [filepath_or_buffer], both are joined to the search directory, but only
    the keyword path is checked: if it exists under the first directory the
    reader is called with both rewritten, whether or not the positional
    path exists. *)
Theorem X9_keyword_path_is_the_one_checked
    E function data_path dirs c rest k c2 st :
  search_directories E = data_path :: dirs ->
  kw_get filepath_or_buffer k = Some (VStr c2) ->
  c2 <> [] ->
  os_path_exists E (mkdocs_dir E)
    (os_path_join (mkdocs_dir E) (os_path_join data_path c2)) = true ->
  let a' := VStr (os_path_join data_path c) :: rest in
  let k' := kw_set filepath_or_buffer (VStr (os_path_join data_path c2)) k in
  let seen := trace st ++ [EvChdir (mkdocs_dir E);
                           EvExists (mkdocs_dir E)
                             (os_path_join (mkdocs_dir E)
                                (os_path_join data_path c2)) true] in
  let r := fst (function seen a' k' (mkdocs_dir E)) in
  fst (load_table E function (VStr c :: rest) k st) = r /\
  trace (snd (load_table E function (VStr c :: rest) k st))
  = seen ++ [EvCall (mkdocs_dir E) a' k' r; EvChdir (cwd st)].
Proof.
  intros Hd Hk Hc2 Hex. cbv zeta.
  rewrite load_table_eq, Hd. unfold entered.
  cbn [search_loop]. rewrite bind_eq.
  change (rewrite_positional data_path (VStr c :: rest) ?st0)
    with (Ok (VStr (os_path_join data_path c) :: rest),
          mkState (cwd st0) (trace st0) (Some (VStr c))
                  (Some (os_path_join data_path c))).
  cbv iota beta. rewrite bind_eq.
  unfold rewrite_keyword. rewrite Hk.
  assert (Ht : truthy (VStr c2) = true).
  { destruct c2; [congruence|reflexivity]. }
  rewrite Ht. cbn -[kw_set filepath_or_buffer os_path_join].
  rewrite Hex. cbn -[kw_set filepath_or_buffer os_path_join].
  rewrite <- !app_assoc. split; reflexivity.
Qed.

Lemma X9_witness :
  fst (load_table E_flat (const_reader (txt "T")) [VStr (txt "nope.csv")]
         [(filepath_or_buffer, VStr (txt "a.csv"))] (initial (txt "/")))
  = Ok (txt "T").
Proof.
  exact (proj1 (X9_keyword_path_is_the_one_checked E_flat (const_reader (txt "T"))
                  (txt ".") [] (txt "nope.csv") []
                  [(filepath_or_buffer, VStr (txt "a.csv"))] (txt "a.csv")
                  (initial (txt "/")) eq_refl eq_refl ltac:(discriminate) eq_refl)).
Defined.

(** X10.  An occurrence without positional argument and without
    [filepath_or_buffer], processed after an earlier occurrence has bound
    the path variable to [o], checks [o] again on the first iteration; when
    [o] still exists the reader is called with the arguments as parsed, no
    path among them. *)
Theorem X10_path_of_an_earlier_occurrence_is_reused
    E function data_path dirs k o st :
  search_directories E = data_path :: dirs ->
  kw_get filepath_or_buffer k = None ->
  output_file_path st = Some o ->
  os_path_exists E (mkdocs_dir E) (os_path_join (mkdocs_dir E) o) = true ->
  let seen := trace st ++ [EvChdir (mkdocs_dir E);
                           EvExists (mkdocs_dir E)
                             (os_path_join (mkdocs_dir E) o) true] in
  let r := fst (function seen [] k (mkdocs_dir E)) in
  fst (load_table E function [] k st) = r /\
  trace (snd (load_table E function [] k st))
  = seen ++ [EvCall (mkdocs_dir E) [] k r; EvChdir (cwd st)].
Proof.
  intros Hd Hk Ho Hex. cbv zeta.
  rewrite load_table_eq, Hd. unfold entered.
  cbn [search_loop]. rewrite bind_eq. cbn [rewrite_positional ret].
  rewrite bind_eq, rewrite_keyword_absent by exact Hk.
  rewrite bind_eq, (check_exists_bound E _ o) by exact Ho.
  cbn [cwd trace input_file_path output_file_path]. rewrite Hex.
  cbn [fst snd ret trace cwd]. rewrite <- !app_assoc. split; reflexivity.
Qed.

Lemma X10_witness :
  fst (load_table E_flat (const_reader (txt "T")) [] [(txt "sep", VInt 1)]
         (mkState (txt "/") [] (Some (VStr (txt "a.csv"))) (Some (txt "./a.csv"))))
  = Ok (txt "T").
Proof.
  exact (proj1 (X10_path_of_an_earlier_occurrence_is_reused E_flat
                  (const_reader (txt "T")) (txt ".") [] [(txt "sep", VInt 1)]
                  (txt "./a.csv")
                  (mkState (txt "/") [] (Some (VStr (txt "a.csv")))
                           (Some (txt "./a.csv")))
                  eq_refl eq_refl eq_refl eq_refl)).
Defined.

(** ** How much one occurrence costs *)

Lemma check_exists_events E st r st' :
  check_exists E st = (r, st') ->
  exists t, trace st' = trace st ++ t /\ length t <= 1 /\
            Forall (fun ev => is_exists ev = true) t.
Proof.
  unfold check_exists. rewrite bind_eq. unfold read_output_file_path.
  destruct (output_file_path st) as [o|]; cbn; intros [= <- <-]; cbn.
  - eexists. split; [reflexivity|]. split; [simpl; lia|]. now repeat constructor.
  - exists []. rewrite app_nil_r. split; [reflexivity|]. split; [simpl; lia|].
    constructor.
Qed.

Lemma search_loop_count E : forall dirs a k st r st',
  search_loop E dirs a k st = (r, st') ->
  exists t, trace st' = trace st ++ t /\ length t <= length dirs /\
            Forall (fun ev => is_exists ev = true) t.
Proof.
  induction dirs as [|d dirs IH]; intros a k st r st' H.
  - cbn [search_loop] in H. rewrite bind_eq in H.
    unfold read_input_file_path in H.
    destruct (input_file_path st); cbn in H; injection H as <- <-;
      exists []; rewrite app_nil_r; repeat split; auto.
  - cbn [search_loop] in H. rewrite bind_eq in H.
    destruct (rewrite_positional d a st) as [[a'|e] st1] eqn:E1;
      apply rewrite_positional_world in E1 as (_ & Ht1).
    2:{ injection H as <- <-. exists []. rewrite app_nil_r.
        repeat split; auto. simpl; lia. }
    rewrite bind_eq in H.
    destruct (rewrite_keyword d k st1) as [[k'|e] st2] eqn:E2;
      apply rewrite_keyword_world in E2 as (_ & Ht2).
    2:{ injection H as <- <-. exists []. rewrite app_nil_r.
        repeat split; auto; [congruence|simpl; lia]. }
    rewrite bind_eq in H.
    destruct (check_exists E st2) as [[found|e] st3] eqn:E3;
      apply check_exists_events in E3 as (t3 & Ht3 & Hl3 & Hall3).
    2:{ injection H as <- <-. exists t3. repeat split; auto;
          [congruence|simpl; lia]. }
    destruct found.
    + injection H as <- <-. exists t3. repeat split; auto;
        [congruence|simpl; lia].
    + apply IH in H as (t4 & Ht4 & Hl4 & Hall4).
      exists (t3 ++ t4). split; [|split].
      * rewrite Ht4, Ht3, Ht2, Ht1. now rewrite app_assoc.
      * rewrite length_app. simpl. lia.
      * apply Forall_app. now split.
Qed.

Lemma filter_none {A} (f : A -> bool) (l : list A) :
  Forall (fun x => f x = false) l -> filter f l = [].
Proof.
  induction 1 as [|x l Hx _ IH]; [reflexivity|]. simpl. now rewrite Hx.
Qed.

Lemma filter_all {A} (f : A -> bool) (l : list A) :
  Forall (fun x => f x = true) l -> filter f l = l.
Proof.
  induction 1 as [|x l Hx _ IH]; [reflexivity|]. simpl. now rewrite Hx, IH.
Qed.

Lemma load_table_count E function a k st :
  exists t,
    trace (snd (load_table E function a k st)) = trace st ++ t /\
    length (filter is_exists t) <= length (search_directories E) /\
    length (filter is_call t) <= 1.
Proof.
  rewrite load_table_eq.
  destruct (search_loop E (search_directories E) a k (entered E st))
    as [[ak|e] st1] eqn:Hs;
    apply search_loop_count in Hs as (t & Ht & Hl & Hall);
    cbn [snd trace]; rewrite Ht; cbn [entered trace].
  - eexists. split; [rewrite <- !app_assoc; reflexivity|].
    assert (Hcalls : filter is_call t = []).
    { apply filter_none. eapply Forall_impl; [|exact Hall].
      intros [ | | ]; simpl; congruence. }
    rewrite !filter_app, Hcalls, (filter_all _ _ Hall). simpl.
    rewrite length_app. simpl. lia.
  - eexists. split; [rewrite <- !app_assoc; reflexivity|].
    assert (Hcalls : filter is_call t = []).
    { apply filter_none. eapply Forall_impl; [|exact Hall].
      intros [ | | ]; simpl; congruence. }
    rewrite !filter_app, Hcalls, (filter_all _ _ Hall). simpl.
    rewrite length_app. simpl. lia.
Qed.

(** X11.  Processing one occurrence makes at most one existence check per
    search directory and calls a reader at most once. *)
Theorem X11_one_occurrence_costs_at_most E reader function
    (result : list str) md st :
  exists t,
    trace (snd (process_match E reader function result md st)) = trace st ++ t /\
    length (filter is_exists t) <= length (search_directories E) /\
    length (filter is_call t) <= 1.
Proof.
  unfold process_match. rewrite bind_eq. unfold lift at 1.
  destruct (parse_argkwarg E (nth 1 result [])) as [ak|e].
  2:{ exists []. rewrite app_nil_r. simpl. repeat split; lia. }
  rewrite bind_eq.
  destruct (load_table_count E function (fst ak) (snd ak) st)
    as (t & Ht & Hc & Hk).
  destruct (load_table E function (fst ak) (snd ak) st) as [[table|e] st1];
    cbn [snd] in *; exists t; auto.
Qed.

(** ** The whole call *)

(** X12.  [on_page_markdown] ends with the process in the working directory
    it started in, whether it returns the document or raises, whatever the
    readers did to the working directory. *)
Theorem X12_the_call_restores_the_working_directory E READERS md st :
  cwd (snd (on_page_markdown E READERS md st)) = cwd st.
Proof.
  unfold on_page_markdown.
  destruct (for_readers E READERS md st) as [r st'] eqn:H.
  now apply for_readers_fatal in H as (Hc & _).
Qed.

(** ** A property of every event of a call *)

Section Events.

Variable E : env.
Variable P : event -> Prop.
Hypothesis P_chdir : forall d, P (EvChdir d).
Hypothesis P_call : forall c a k r, P (EvCall c a k r).
Hypothesis P_exists :
  forall c o b, P (EvExists c (os_path_join (mkdocs_dir E) o) b).

Lemma check_exists_all st r st' :
  check_exists E st = (r, st') ->
  exists t, trace st' = trace st ++ t /\ Forall P t.
Proof.
  unfold check_exists. rewrite bind_eq. unfold read_output_file_path.
  destruct (output_file_path st) as [o|]; cbn; intros [= <- <-]; cbn.
  - eexists. split; [reflexivity|]. repeat constructor. apply P_exists.
  - exists []. now rewrite app_nil_r.
Qed.

Lemma search_loop_all : forall dirs a k st r st',
  search_loop E dirs a k st = (r, st') ->
  exists t, trace st' = trace st ++ t /\ Forall P t.
Proof.
  induction dirs as [|d dirs IH]; intros a k st r st' H.
  - cbn [search_loop] in H. rewrite bind_eq in H.
    unfold read_input_file_path in H.
    destruct (input_file_path st); cbn in H; injection H as <- <-;
      exists []; now rewrite app_nil_r.
  - cbn [search_loop] in H. rewrite bind_eq in H.
    destruct (rewrite_positional d a st) as [[a'|e] st1] eqn:E1;
      apply rewrite_positional_world in E1 as (_ & Ht1).
    2:{ injection H as <- <-. exists []. now rewrite app_nil_r. }
    rewrite bind_eq in H.
    destruct (rewrite_keyword d k st1) as [[k'|e] st2] eqn:E2;
      apply rewrite_keyword_world in E2 as (_ & Ht2).
    2:{ injection H as <- <-. exists []. rewrite app_nil_r.
        split; [congruence|constructor]. }
    rewrite bind_eq in H.
    destruct (check_exists E st2) as [[found|e] st3] eqn:E3;
      apply check_exists_all in E3 as (t3 & Ht3 & Hall3).
    2:{ injection H as <- <-. exists t3. split; [congruence|exact Hall3]. }
    destruct found.
    + injection H as <- <-. exists t3. split; [congruence|exact Hall3].
    + apply IH in H as (t4 & Ht4 & Hall4).
      exists (t3 ++ t4). split.
      * rewrite Ht4, Ht3, Ht2, Ht1. now rewrite app_assoc.
      * apply Forall_app. now split.
Qed.

Lemma load_table_all function a k st :
  exists t,
    trace (snd (load_table E function a k st)) = trace st ++ t /\ Forall P t.
Proof.
  rewrite load_table_eq.
  destruct (search_loop E (search_directories E) a k (entered E st))
    as [[ak|e] st1] eqn:Hs;
    apply search_loop_all in Hs as (t & Ht & Hall);
    cbn [snd trace]; rewrite Ht; cbn [entered trace];
    (eexists; split; [rewrite <- !app_assoc; reflexivity|]).
  - constructor; [apply P_chdir|]. apply Forall_app. split; [exact Hall|].
    constructor; [apply P_call|]. constructor; [apply P_chdir|constructor].
  - constructor; [apply P_chdir|]. apply Forall_app. split; [exact Hall|].
    constructor; [apply P_chdir|constructor].
Qed.

Lemma process_match_all reader function (result : list str) md st :
  exists t,
    trace (snd (process_match E reader function result md st)) = trace st ++ t
    /\ Forall P t.
Proof.
  unfold process_match. rewrite bind_eq. unfold lift at 1.
  destruct (parse_argkwarg E (nth 1 result [])) as [ak|e].
  2:{ exists []. now rewrite app_nil_r. }
  rewrite bind_eq.
  destruct (load_table_all function (fst ak) (snd ak) st) as (t & Ht & Hall).
  destruct (load_table E function (fst ak) (snd ak) st) as [[table|e] st1];
    cbn [snd] in *; exists t; auto.
Qed.

Lemma for_matches_all reader function : forall matches md st,
  exists t,
    trace (snd (for_matches E reader function matches md st)) = trace st ++ t
    /\ Forall P t.
Proof.
  induction matches as [|g gs IH]; intros md st.
  - exists []. now rewrite app_nil_r.
  - cbn [for_matches]. rewrite bind_eq.
    destruct (process_match_all reader function g md st) as (t1 & Ht1 & Hall1).
    destruct (process_match E reader function g md st) as [[md1|e] st1];
      cbn [snd] in *.
    + destruct (IH md1 st1) as (t2 & Ht2 & Hall2).
      exists (t1 ++ t2). split.
      * rewrite Ht2, Ht1. now rewrite app_assoc.
      * apply Forall_app. now split.
    + now exists t1.
Qed.

Lemma for_readers_all : forall READERS md st,
  exists t,
    trace (snd (for_readers E READERS md st)) = trace st ++ t /\ Forall P t.
Proof.
  induction READERS as [|[reader function] rest IH]; intros md st.
  - exists []. now rewrite app_nil_r.
  - cbn [for_readers]. rewrite bind_eq. unfold process_reader.
    destruct (for_matches_all reader function
                (findall (tag_pattern reader) md) md st) as (t1 & Ht1 & Hall1).
    destruct (for_matches E reader function
                (findall (tag_pattern reader) md) md st) as [[md1|e] st1];
      cbn [snd] in *.
    + destruct (IH md1 st1) as (t2 & Ht2 & Hall2).
      exists (t1 ++ t2). split.
      * rewrite Ht2, Ht1. now rewrite app_assoc.
      * apply Forall_app. now split.
    + now exists t1.
Qed.

End Events.

(** ** The directories of lines 63-71 *)

Lemma normpath_absolute p : startswith_sep p = true -> startswith_sep (normpath p) = true.
Proof.
  destruct p as [|a p]; [discriminate|]. cbn [startswith_sep]. intros Ha.
  apply Ascii.eqb_eq in Ha. subst a.
  unfold normpath.
  change (Ascii.eqb slash slash) with true. cbv iota.
  destruct p as [|b [|c p]].
  - reflexivity.
  - destruct (Ascii.eqb b slash); reflexivity.
  - destruct (Ascii.eqb b slash && negb (Ascii.eqb c slash)); reflexivity.
Qed.

Lemma os_path_join_absolute_base a b :
  startswith_sep a = true -> startswith_sep (os_path_join a b) = true.
Proof.
  intros Ha. unfold os_path_join.
  destruct (startswith_sep b) eqn:Hb; [exact Hb|].
  destruct a as [|x a]; [discriminate|]. simpl.
  destruct (endswith_sep (x :: a)); exact Ha.
Qed.

Lemma abspath_absolute d p :
  startswith_sep d = true -> startswith_sep (abspath d p) = true.
Proof.
  intros Hd. unfold abspath. destruct (startswith_sep p) eqn:Hp.
  - now apply normpath_absolute.
  - apply normpath_absolute. now apply os_path_join_absolute_base.
Qed.

Lemma dropwhile_keeps_end f (x : ascii) : forall l,
  f x = false -> exists l', dropwhile f (l ++ [x]) = l' ++ [x].
Proof.
  intros l Hx. induction l as [|y l IH]; simpl.
  - rewrite Hx. now exists [].
  - destruct (f y); [exact IH|]. now exists (y :: l).
Qed.

Lemma dropwhile_nonempty f : forall l,
  forallb f l = false -> dropwhile f l <> [].
Proof.
  induction l as [|y l IH]; simpl; [discriminate|].
  destruct (f y); [exact IH|discriminate].
Qed.

Lemma dropwhile_suffix f : forall l, exists l0, l = l0 ++ dropwhile f l.
Proof.
  induction l as [|y l [l0 IH]]; simpl.
  - now exists [].
  - destruct (f y); [|now exists []].
    exists (y :: l0). simpl. now rewrite <- IH.
Qed.

Lemma forallb_rev {A} (f : A -> bool) (l : list A) :
  forallb f (rev l) = forallb f l.
Proof.
  induction l as [|x l IH]; [reflexivity|].
  simpl. rewrite forallb_app, IH. simpl. rewrite andb_true_r. apply andb_comm.
Qed.

Lemma dirname_absolute p :
  startswith_sep p = true -> startswith_sep (dirname p) = true.
Proof.
  destruct p as [|a p]; [discriminate|]. simpl. intros Ha.
  apply Ascii.eqb_eq in Ha. subst a.
  unfold dirname. cbn [rev].
  destruct (dropwhile_keeps_end (fun c => negb (is_sep c)) slash (rev p))
    as (l' & ->); [reflexivity|].
  rewrite rev_app_distr. cbn [rev app].
  set (head := slash :: rev l').
  destruct (negb (str_eqb head []) && negb (forallb is_sep head)) eqn:Hcond;
    [|reflexivity].
  apply andb_true_iff in Hcond as [_ Hns]. apply negb_true_iff in Hns.
  assert (Hrev : rev head = l' ++ [slash])
    by (unfold head; cbn [rev]; now rewrite rev_involutive).
  assert (Hne : dropwhile is_sep (rev head) <> []).
  { apply dropwhile_nonempty. rewrite forallb_rev. exact Hns. }
  destruct (dropwhile_suffix is_sep (rev head)) as (l0 & Hsuf).
  rewrite Hrev in Hsuf at 1.
  destruct (exists_last Hne) as (l1 & z & Hz). rewrite Hz in *.
  rewrite app_assoc in Hsuf.
  apply app_inj_tail in Hsuf as [_ <-].
  change (rev (rev l') ++ [slash]) with (rev head). rewrite Hz.
  rewrite rev_app_distr. reflexivity.
Qed.

Lemma mkdocs_dir_absolute cfg d :
  startswith_sep d = true -> startswith_sep (compute_mkdocs_dir cfg d) = true.
Proof.
  intros Hd. unfold compute_mkdocs_dir. destruct (opt_base_path cfg).
  - apply dirname_absolute. now apply abspath_absolute.
  - now apply abspath_absolute.
Qed.

(** X13.  Called in an absolute working directory, [on_page_markdown] works
    in an absolute [mkdocs_dir] (for both values of [base_path]), and every
    existence check it makes is on an absolute path: what is found does not
    depend on the working directory of the process. *)
Theorem X13_existence_checks_are_on_absolute_paths
    cfg parse exists_ READERS md st :
  startswith_sep (cwd st) = true ->
  startswith_sep (compute_mkdocs_dir cfg (cwd st)) = true /\
  exists t,
    trace (snd (on_page_markdown_hook cfg parse exists_ READERS md st))
    = trace st ++ t /\
    Forall absolute_check t.
Proof.
  intros Hd. split; [now apply mkdocs_dir_absolute|].
  unfold on_page_markdown_hook, on_page_markdown.
  apply for_readers_all; simpl; auto.
  intros _ o _. apply os_path_join_absolute_base.
  now apply mkdocs_dir_absolute.
Qed.

Lemma X13_witness :
  startswith_sep (compute_mkdocs_dir default_settings (txt "/work")) = true /\
  exists t,
    trace (snd (on_page_markdown_hook default_settings parse_known
                  (fs_exists [txt "/work/a.csv"]) csv_T
                  (txt "{{ read_csv(a.csv) }}") (initial (txt "/work"))))
    = trace (initial (txt "/work")) ++ t /\
    Forall absolute_check t.
Proof.
  apply (X13_existence_checks_are_on_absolute_paths default_settings parse_known
           (fs_exists [txt "/work/a.csv"]) csv_T (txt "{{ read_csv(a.csv) }}")
           (initial (txt "/work"))).
  reflexivity.
Defined.

(** ** The scanner: what is recognised *)

Lemma re_match_tag_line reader sp w1 n body w2 R rest :
  is_identifier reader = true ->
  forallb is_blank sp = true ->
  w1 <> [] -> forallb isspace w1 = true ->
  eq_ci n reader = true ->
  body <> [] -> forallb is_dot body = true ->
  w2 <> [] -> forallb isspace w2 = true ->
  paren_free R ->
  at_line_end rest = true ->
  re_match (tag_pattern reader) (tag_text sp w1 n body w2 ++ R ++ rest)
  = Some ([sp; body], R ++ rest).
Proof.
  intros Hid Hsp Hw1n Hw1 Hn Hbn Hb Hw2n Hw2 HR Hend.
  destruct (name_starts _ _ Hid Hn) as (c & n' & En & Hc).
  assert (Hclose : re_match closing
             (")"%char :: w2 ++ "}"%char :: "}"%char :: R ++ rest)
           = Some ([], R ++ rest))
    by now apply closing_matches.
  assert (Hbody : re_match (Rep true 1 is_dot :: closing)
             (body ++ ")"%char :: w2 ++ "}"%char :: "}"%char :: R ++ rest)
           = Some ([body], R ++ rest)).
  { apply (re_match_Rep true 1 is_dot closing body _ [] (R ++ rest) Hb
             (length_nonempty _ Hbn) Hclose).
    intros [|e ext] r' E Hne Hdot; [congruence|].
    simpl in E. injection E as <- E. cbn [forallb] in Hdot.
    apply andb_true_iff in Hdot as [_ Hdot].
    apply (no_later_closing (w2 ++ ["}"%char; "}"%char] ++ R) rest)
      with (ext := ext); auto.
    - intros x Hx. apply in_app_or in Hx as [Hx|Hx].
      + apply space_not_paren.
        rewrite forallb_forall in Hw2. now apply Hw2.
      + simpl in Hx. destruct Hx as [<-|[<-|Hx]]; try discriminate.
        now apply HR.
    - rewrite <- E. flatten. reflexivity. }
  assert (Hname : re_match (map LitI reader ++ Lit "(" :: Rep true 1 is_dot :: closing)
             (n ++ "("%char :: body ++ ")"%char :: w2
                ++ "}"%char :: "}"%char :: R ++ rest)
           = Some ([body], R ++ rest)).
  { rewrite re_match_name by exact Hn. now rewrite re_match_Lit. }
  rewrite tag_pattern_eq. unfold tag_text, txt. cbn [list_ascii_of_string].
  flatten.
  apply (re_match_Rep true 0 is_blank _ sp _ [body] (R ++ rest) Hsp (Nat.le_0_l _)).
  - rewrite !re_match_Lit.
    apply (re_match_Rep false 1 isspace _ w1 _ [body] (R ++ rest) Hw1
             (length_nonempty _ Hw1n) Hname).
    subst n. cbn [app]. now apply no_extension_at_boundary.
  - now apply no_extension_at_boundary.
Qed.

(** X14.  A tag is recognised with exactly its argument text when nothing
    after it on its line holds a closing parenthesis: whatever the case of
    the reader's name, with any number of blanks before the opening braces
    (all captured as leading whitespace) and any whitespace after the
    opening and before the closing braces.  The scan then goes on right
    after the tag. *)
Theorem X14_a_tag_alone_on_its_line_is_recognised
    reader sp w1 n args w2 R rest :
  is_identifier reader = true ->
  forallb is_blank sp = true ->
  w1 <> [] -> forallb isspace w1 = true ->
  eq_ci n reader = true ->
  args <> [] -> forallb is_dot args = true ->
  w2 <> [] -> forallb isspace w2 = true ->
  paren_free R ->
  at_line_end rest = true ->
  findall (tag_pattern reader) (tag_text sp w1 n args w2 ++ R ++ rest)
  = [sp; args] :: findall (tag_pattern reader) (R ++ rest).
Proof.
  intros. apply findall_at_match; [apply tag_text_nonempty|].
  now apply re_match_tag_line.
Qed.

Lemma X14_witness :
  findall (tag_pattern read_csv)
          (tag_text (txt "    ") [tab] (txt "Read_CSV") (txt "'a.csv', sep=';'")
                    (txt "  ")
           ++ txt " <- table" ++ txt "
next line")
  = [txt "    "; txt "'a.csv', sep=';'"]
    :: findall (tag_pattern read_csv) (txt " <- table" ++ txt "
next line").
Proof.
  apply X14_a_tag_alone_on_its_line_is_recognised;
    try solve [vm_compute; reflexivity | discriminate].
  intros c Hc. vm_compute in Hc.
  repeat (destruct Hc as [<-|Hc]; [discriminate|]). destruct Hc.
Defined.

Lemma re_match_Rep_eq cap min cls p s :
  re_match (Rep cap min cls :: p) s =
  match rep_greedy cls min (re_match p) s with
  | Some (taken, (g, rest)) => Some (if cap then taken :: g else g, rest)
  | None => None
  end.
Proof. reflexivity. Qed.

Lemma rep_greedy_cons cls min k c s :
  cls c = true ->
  rep_greedy cls min k (c :: s) =
  match rep_greedy cls (pred min) k s with
  | Some (taken, r) => Some (c :: taken, r)
  | None =>
      match min with
      | O => match k (c :: s) with Some r => Some ([], r) | None => None end
      | S _ => None
      end
  end.
Proof. intros H. cbn [rep_greedy]. now rewrite H. Qed.

Lemma blank_extends_match reader s g rest :
  re_match (tag_pattern reader) s = Some (g, rest) ->
  exists g', re_match (tag_pattern reader) (" "%char :: s) = Some (g', rest).
Proof.
  rewrite tag_pattern_eq, !re_match_Rep_eq.
  rewrite rep_greedy_cons by reflexivity. cbn [pred].
  destruct (rep_greedy is_blank 0 _ s) as [[taken [g0 rest0]]|];
    [|discriminate].
  intros [= <- <-]. eauto.
Qed.

(** X15.  The leading whitespace of an occurrence is the whole run of
    blanks before the opening braces: the text before a match never ends
    with a blank. *)
Theorem X15_leading_blanks_are_all_captured reader s m pre :
  search (tag_pattern reader) s = Some m ->
  before m <> pre ++ [" "%char].
Proof.
  intros H E.
  destruct (search_sound _ _ _ H) as (Es & Hm & Hnone).
  destruct (blank_extends_match _ _ _ _ Hm) as (g' & Hg).
  assert (Hskip : skipn (length pre) s = " "%char :: matched m ++ after m).
  { rewrite Es, E, <- app_assoc, skipn_app, Nat.sub_diag, skipn_all.
    reflexivity. }
  specialize (Hnone (length pre)). rewrite Hskip, Hg in Hnone.
  rewrite E, length_app in Hnone. simpl in Hnone.
  assert (Hlt : length pre < length pre + 1) by lia.
  specialize (Hnone Hlt). discriminate.
Qed.

Lemma X15_witness :
  before (mkFound (txt "x") [txt "  "; txt "a.csv"]
                  (txt "  {{ read_csv(a.csv) }}") [])
  <> txt "x " ++ [" "%char].
Proof.
  apply (X15_leading_blanks_are_all_captured read_csv
           (txt "x  {{ read_csv(a.csv) }}")).
  vm_compute. reflexivity.
Defined.

(** X16.  A document without an opening brace is returned as it is,
    whatever the registry, without any parsing, checking or reader call. *)
Theorem X16_no_brace_no_change E READERS md d :
  (forall c, In c md -> c <> "{"%char) ->
  run E READERS md d = (Ok md, initial d).
Proof.
  intros Hno. unfold run, on_page_markdown.
  destruct (for_readers_unchanged_or_occurrence E READERS md (initial d))
    as [Hu|(reader & function & g & _ & Hg)]; [exact Hu|].
  exfalso.
  apply findall_occurrence_shape in Hg as (pre & sp & w1 & n & a & w2 & rest & -> & _).
  apply (Hno "{"%char); [|reflexivity].
  apply in_or_app. right. apply in_or_app. left.
  unfold tag_text. apply in_or_app. right. now left.
Qed.

Lemma X16_witness :
  run E_flat csv_T (txt "# Title

| a | b |
|---|---|
read_csv(a.csv) }}") (txt "/")
  = (Ok (txt "# Title

| a | b |
|---|---|
read_csv(a.csv) }}"), initial (txt "/")).
Proof.
  apply X16_no_brace_no_change.
  intros c Hc. vm_compute in Hc.
  repeat (destruct Hc as [<-|Hc]; [discriminate|]). destruct Hc.
Defined.

(** ** Indentation: when nothing is added *)

Lemma join_split_lf : forall s, join_lf (split_lf s) = s.
Proof.
  induction s as [|c s IH]; [reflexivity|].
  cbn [split_lf]. destruct (chr_is 10 c) eqn:Hc.
  - pose proof (split_lf_nonempty s) as Hne.
    destruct (split_lf s) as [|l ls] eqn:Hs; [congruence|].
    change (join_lf ([] :: l :: ls)) with (newline :: join_lf (l :: ls)).
    rewrite IH. f_equal.
    unfold chr_is, code in Hc. apply Nat.eqb_eq in Hc.
    rewrite <- (ascii_nat_embedding c), Hc. reflexivity.
  - destruct (split_lf s) as [|l ls] eqn:Hs.
    + now destruct (split_lf_nonempty s).
    + destruct ls as [|l' ls]; simpl in *; now rewrite <- IH.
Qed.

Lemma textwrap_indent_empty_prefix text : textwrap_indent text [] = text.
Proof.
  unfold textwrap_indent.
  rewrite (map_ext _ (fun line => line))
    by (intros line; now destruct (not_blank_line line)).
  rewrite map_id. apply splitlines_keepends_concat.
Qed.

(** X17.  With fewer than four captured blanks nothing is added: the
    fragment is inserted exactly as the reader rendered it, line boundaries
    of every kind included. *)
Theorem X17_under_four_blanks_the_fragment_is_kept ls fragment :
  length ls < 4 -> indent_table ls fragment = fragment.
Proof.
  intros H. unfold indent_table, normalize_spaces.
  rewrite (Nat.div_small _ 4 H). cbn [repeat concat].
  rewrite (map_ext _ (fun line => line)) by apply textwrap_indent_empty_prefix.
  rewrite map_id. apply join_split_lf.
Qed.

Lemma X17_witness :
  indent_table (txt "   ") (txt "| a |
  
| b |")
  = txt "| a |
  
| b |".
Proof.
  apply X17_under_four_blanks_the_fragment_is_kept. vm_compute. lia.
Defined.

(** ** Readers in sequence *)

Lemma for_readers_app E : forall R1 R2 md st,
  for_readers E (R1 ++ R2) md st =
  match for_readers E R1 md st with
  | (Ok md', st') => for_readers E R2 md' st'
  | (Raise e, st') => (Raise e, st')
  end.
Proof.
  induction R1 as [|[reader function] R1 IH]; intros R2 md st.
  - reflexivity.
  - cbn [app for_readers]. rewrite !bind_eq.
    destruct (process_reader E reader function md st) as [[md1|e] st1];
      [apply IH|reflexivity].
Qed.

(** X18.  The readers work in the order of the registry, each on the text
    the earlier ones produced: processing with two registries joined is
    processing with the first and then, if that did not raise, with the
    second on its result (so a tag of a later reader inside a table rendered
    by an earlier one is expanded, and not the other way round). *)
Theorem X18_readers_work_in_registry_order E R1 R2 md st :
  on_page_markdown E (R1 ++ R2) md st =
  match on_page_markdown E R1 md st with
  | (Ok md', st') => on_page_markdown E R2 md' st'
  | (Raise e, st') => (Raise e, st')
  end.
Proof. apply for_readers_app. Qed.

(** ** One tag, end to end *)

(** X19.  A document with one occurrence of the only registered reader,
    whose first positional argument is a file that exists under the first
    search directory, and a rendered fragment without backslash: the call
    returns the document with the occurrence (its leading blanks included)
    replaced by the indented fragment and everything else kept; the reader
    was called once, in [mkdocs_dir], with the joined path; the process is
    back in its directory. *)
Theorem X19_one_tag_end_to_end
    E reader function md m c rest k data_path dirs fragment d :
  search (tag_pattern reader) md = Some m ->
  search (tag_pattern reader) (after m) = None ->
  parse_argkwarg E (group m 2) = Ok (VStr c :: rest, k) ->
  kw_get filepath_or_buffer k = None ->
  search_directories E = data_path :: dirs ->
  os_path_exists E (mkdocs_dir E)
    (os_path_join (mkdocs_dir E) (os_path_join data_path c)) = true ->
  (forall history,
      fst (function history (VStr (os_path_join data_path c) :: rest) k
                    (mkdocs_dir E)) = Ok fragment) ->
  no_backslash fragment = true ->
  run E [(reader, function)] md d
  = (Ok (before m ++ indent_table (group m 1) fragment ++ after m),
     mkState d
       [EvChdir (mkdocs_dir E);
        EvExists (mkdocs_dir E)
          (os_path_join (mkdocs_dir E) (os_path_join data_path c)) true;
        EvCall (mkdocs_dir E) (VStr (os_path_join data_path c) :: rest) k
               (Ok fragment);
        EvChdir d]
       (Some (VStr c)) (Some (os_path_join data_path c))).
Proof.
  intros Hm Hlast Hparse Hk Hd Hex Hf Hnb.
  unfold run, on_page_markdown. cbn [for_readers]. rewrite bind_eq.
  unfold process_reader.
  rewrite (findall_search _ _ _ Hm) by (eapply search_matched_nonempty; eauto).
  rewrite (findall_nil_search _ _ Hlast).
  cbn [for_matches]. rewrite bind_eq.
  unfold process_match. rewrite bind_eq. unfold lift at 1.
  change (nth 1 (groups m) []) with (group m 2). rewrite Hparse.
  rewrite bind_eq. cbn [fst snd].
  rewrite (load_table_first_hit E function data_path dirs c rest k (initial d)
             Hd Hk Hex).
  rewrite !Hf. unfold lift.
  change (nth 0 (groups m) []) with (group m 1).
  rewrite re_sub_literal by now apply indent_table_no_backslash.
  rewrite Hm. reflexivity.
Qed.

Lemma X19_witness :
  run E_flat [(read_csv, const_reader (txt "| a |
| b |"))] (txt "intro
     {{ read_csv(a.csv) }}
outro") (txt "/")
  = (Ok (before (mkFound (txt "intro
") [txt "     "; txt "a.csv"] (txt "     {{ read_csv(a.csv) }}") (txt "
outro"))
         ++ indent_table (group (mkFound (txt "intro
") [txt "     "; txt "a.csv"] (txt "     {{ read_csv(a.csv) }}") (txt "
outro")) 1) (txt "| a |
| b |")
         ++ after (mkFound (txt "intro
") [txt "     "; txt "a.csv"] (txt "     {{ read_csv(a.csv) }}") (txt "
outro"))),
     mkState (txt "/")
       [EvChdir (mkdocs_dir E_flat);
        EvExists (mkdocs_dir E_flat)
          (os_path_join (mkdocs_dir E_flat) (os_path_join (txt ".") (txt "a.csv")))
          true;
        EvCall (mkdocs_dir E_flat) [VStr (os_path_join (txt ".") (txt "a.csv"))] []
               (Ok (txt "| a |
| b |"));
        EvChdir (txt "/")]
       (Some (VStr (txt "a.csv"))) (Some (os_path_join (txt ".") (txt "a.csv")))).
Proof.
  apply (X19_one_tag_end_to_end E_flat read_csv (const_reader (txt "| a |
| b |")) (txt "intro
     {{ read_csv(a.csv) }}
outro") (mkFound (txt "intro
") [txt "     "; txt "a.csv"] (txt "     {{ read_csv(a.csv) }}") (txt "
outro")) (txt "a.csv") [] [] (txt ".") []);
    vm_compute; reflexivity.
Defined.
